(** * AsyncThrottle: a shallow embedding of [src/async_throttle.ts]

    The throttle admits caller-supplied asynchronous work under two limits:
    the number of started-but-not-completed items ([maxOutstanding]) and the
    number of items started in a rolling one-second window ([maxQps]).

    The embedding follows the TypeScript source object by object:
    - [Work] objects live in a store ([heap]) and are linked into the circular
      doubly-linked list through their [prev]/[next] fields, with the
      sentinel [workList] at address 0;
    - the fields of class [AsyncThrottle] are fields of [State];
    - the host runtime is explicit: pending timeouts ([timers]), the
      [.finally(cleanup)] callbacks registered on promises returned by work
      functions ([reactions]), and the reading of [Date.now()] which every
      event carries;
    - every observable action is appended to [log] (newest first).

    Modelling assumptions, all stated where they are used:
    - JavaScript numbers are integers ([Z]); counters stay far below 2^53;
    - [Date.now()] is constant during one synchronous turn and never goes
      backwards between turns;
    - a work function is opaque: it either throws or returns a promise, and
      it does not call back into the throttle;
    - one host event runs the whole chain
      [.finally(cleanup).then(resolve).catch(reject)] of one promise, and the
      reactions [.then(...).catch(...)] that [callAllThrottled] attached to
      the futures it settles, before the next event begins.  The runtime
      instead interleaves the jobs of promises that settle close together:
      the future of an item is settled two jobs after its [cleanup] ran,
      whereas the future of an item whose work function throws is rejected
      inside the call of [execute]; so the runtime may settle the future of
      one item before that of another which the model settles first.  The
      model therefore fixes ONE order
      in which the futures of different items settle and their reactions
      run, and the runtime may take another.  What happens to each item
      (its admission, its [cleanup], the outcome of its future) and the
      fields of the throttle do not depend on that order, and the
      properties below speak of each item by itself.  The one result that
      the order decides, the error with which [callAllThrottled] rejects
      when several items fail, is stated for every order ([react]);
      [notified] records the order of the model only;
    - the loop of [callAllThrottled] is one synchronous turn. *)

From stdpp Require Import base numbers option list gmap.

Local Open Scope Z_scope.

(** ** Values, errors and the behaviour of work functions *)

Definition Value := nat.

(** [NullCall] is the [TypeError] raised by calling [null] as a function
    (the non-null assertion [this.onLastWorkItemDrained!()] is erased by the
    compiler); [Thrown n] is an error of the caller's work function. *)
Inductive Error :=
| Thrown (n : nat)
| NullCall.

Inductive Outcome :=
| Fulfilled (v : Value)
| Rejected (e : Error).

(** What [startWork()] does when it is invoked. *)
Inductive StartResult :=
| Throws (e : Error)
| ReturnsPromise.

(** How a block of statements ends. *)
Inductive Completion :=
| Normal
| Throw (e : Error).

#[global] Instance Error_eq_dec : EqDecision Error.
Proof. solve_decision. Defined.

#[global] Instance Outcome_eq_dec : EqDecision Outcome.
Proof. solve_decision. Defined.

#[global] Instance StartResult_eq_dec : EqDecision StartResult.
Proof. solve_decision. Defined.

(** ** Options *)

Definition MAX_SAFE_INTEGER : Z := 9007199254740991.

Record AsyncThrottleOptions := mkOptions {
  options_maxOutstanding : option Z;
  options_maxQps : option Z
}.

(** [x || d] on an optional number: [undefined] and [0] are falsy. *)
Definition js_or (x : option Z) (d : Z) : Z :=
  match x with
  | Some v => if v =? 0 then d else v
  | None => d
  end.

(** ** Work objects *)

Record Work := mkWork {
  startWork : StartResult;
  whenComplete : option Outcome;      (* [None]: the promise is pending *)
  expirationTime : Z;
  prev : nat;
  next : nat
}.

#[global] Instance Work_inhabited : Inhabited Work :=
  populate (mkWork ReturnsPromise None 0 0%nat 0%nat).

Definition set_whenComplete (o : option Outcome) (w : Work) : Work :=
  mkWork (startWork w) o (expirationTime w) (prev w) (next w).

Definition set_expirationTime (t : Z) (w : Work) : Work :=
  mkWork (startWork w) (whenComplete w) t (prev w) (next w).

Definition set_prev (p : nat) (w : Work) : Work :=
  mkWork (startWork w) (whenComplete w) (expirationTime w) p (next w).

Definition set_next (n : nat) (w : Work) : Work :=
  mkWork (startWork w) (whenComplete w) (expirationTime w) (prev w) n.

(** [expirationDelay = () => Math.max(0, this.expirationTime - Date.now())] *)
Definition expirationDelay (now : Z) (w : Work) : Z :=
  Z.max 0 (expirationTime w - now).

(** [isExpired = () => this.expirationTime && this.expirationDelay() <= 0] *)
Definition isExpired (now : Z) (w : Work) : bool :=
  negb (expirationTime w =? 0) && (expirationDelay now w <=? 0).

(** ** Observable actions *)

Inductive Effect :=
| Submitted (id : nat) (t : Z)          (* [callThrottled] created item [id] *)
| Started (id : nat) (t : Z)            (* [startWork()] of [id] was invoked *)
| Produced (id : nat) (o : Outcome)     (* the invocation threw, or its promise settled *)
| Completed (id : nat)                  (* [cleanup] decremented [outstandingCount] *)
| Settled (id : nat) (o : Outcome)      (* [resolve]/[reject] of the item's future was called *)
| Drained (p : nat) (t : Z)             (* the drain promise [p] was resolved at time [t] *)
| TimerSet (h : nat) (t : Z) (delay : Z)
| TimerCleared (h : nat).

#[global] Instance Effect_eq_dec : EqDecision Effect.
Proof. solve_decision. Defined.

(** A pending timeout of the host: its handle, when it was set, its delay. *)
Record Timeout := mkTimeout {
  handle : nat;
  armedAt : Z;
  delay : Z
}.

(** ** The state: store, throttle fields, host runtime, log *)

Record State := mkState {
  (* the store of Work objects; address 0 is the sentinel [workList] *)
  heap : gmap nat Work;
  nextWork : nat;
  (* fields of class AsyncThrottle *)
  readyWorkPredecessor : nat;
  maxOutstanding : Z;
  outstandingCount : Z;
  maxQps : Z;
  qpsCount : Z;
  expiringWorkTimer : option nat;
  whenQuiescent : option nat;
  onLastWorkItemDrained : option nat;
  (* host runtime *)
  timers : list Timeout;
  nextTimer : nat;
  reactions : list nat;
  nextPromise : nat;
  clock : Z;
  (* history, newest first *)
  log : list Effect
}.

Definition set_heap (f : gmap nat Work → gmap nat Work) (s : State) : State :=
  mkState (f (heap s)) (nextWork s) (readyWorkPredecessor s) (maxOutstanding s)
    (outstandingCount s) (maxQps s) (qpsCount s) (expiringWorkTimer s)
    (whenQuiescent s) (onLastWorkItemDrained s) (timers s) (nextTimer s)
    (reactions s) (nextPromise s) (clock s) (log s).

Definition set_nextWork (n : nat) (s : State) : State :=
  mkState (heap s) n (readyWorkPredecessor s) (maxOutstanding s)
    (outstandingCount s) (maxQps s) (qpsCount s) (expiringWorkTimer s)
    (whenQuiescent s) (onLastWorkItemDrained s) (timers s) (nextTimer s)
    (reactions s) (nextPromise s) (clock s) (log s).

Definition set_readyWorkPredecessor (w : nat) (s : State) : State :=
  mkState (heap s) (nextWork s) w (maxOutstanding s)
    (outstandingCount s) (maxQps s) (qpsCount s) (expiringWorkTimer s)
    (whenQuiescent s) (onLastWorkItemDrained s) (timers s) (nextTimer s)
    (reactions s) (nextPromise s) (clock s) (log s).

Definition set_outstandingCount (c : Z) (s : State) : State :=
  mkState (heap s) (nextWork s) (readyWorkPredecessor s) (maxOutstanding s)
    c (maxQps s) (qpsCount s) (expiringWorkTimer s)
    (whenQuiescent s) (onLastWorkItemDrained s) (timers s) (nextTimer s)
    (reactions s) (nextPromise s) (clock s) (log s).

Definition set_qpsCount (c : Z) (s : State) : State :=
  mkState (heap s) (nextWork s) (readyWorkPredecessor s) (maxOutstanding s)
    (outstandingCount s) (maxQps s) c (expiringWorkTimer s)
    (whenQuiescent s) (onLastWorkItemDrained s) (timers s) (nextTimer s)
    (reactions s) (nextPromise s) (clock s) (log s).

Definition set_expiringWorkTimer (t : option nat) (s : State) : State :=
  mkState (heap s) (nextWork s) (readyWorkPredecessor s) (maxOutstanding s)
    (outstandingCount s) (maxQps s) (qpsCount s) t
    (whenQuiescent s) (onLastWorkItemDrained s) (timers s) (nextTimer s)
    (reactions s) (nextPromise s) (clock s) (log s).

Definition set_whenQuiescent (p : option nat) (s : State) : State :=
  mkState (heap s) (nextWork s) (readyWorkPredecessor s) (maxOutstanding s)
    (outstandingCount s) (maxQps s) (qpsCount s) (expiringWorkTimer s)
    p (onLastWorkItemDrained s) (timers s) (nextTimer s)
    (reactions s) (nextPromise s) (clock s) (log s).

Definition set_onLastWorkItemDrained (p : option nat) (s : State) : State :=
  mkState (heap s) (nextWork s) (readyWorkPredecessor s) (maxOutstanding s)
    (outstandingCount s) (maxQps s) (qpsCount s) (expiringWorkTimer s)
    (whenQuiescent s) p (timers s) (nextTimer s)
    (reactions s) (nextPromise s) (clock s) (log s).

Definition set_timers (f : list Timeout → list Timeout) (s : State) : State :=
  mkState (heap s) (nextWork s) (readyWorkPredecessor s) (maxOutstanding s)
    (outstandingCount s) (maxQps s) (qpsCount s) (expiringWorkTimer s)
    (whenQuiescent s) (onLastWorkItemDrained s) (f (timers s)) (nextTimer s)
    (reactions s) (nextPromise s) (clock s) (log s).

Definition set_nextTimer (n : nat) (s : State) : State :=
  mkState (heap s) (nextWork s) (readyWorkPredecessor s) (maxOutstanding s)
    (outstandingCount s) (maxQps s) (qpsCount s) (expiringWorkTimer s)
    (whenQuiescent s) (onLastWorkItemDrained s) (timers s) n
    (reactions s) (nextPromise s) (clock s) (log s).

Definition set_reactions (f : list nat → list nat) (s : State) : State :=
  mkState (heap s) (nextWork s) (readyWorkPredecessor s) (maxOutstanding s)
    (outstandingCount s) (maxQps s) (qpsCount s) (expiringWorkTimer s)
    (whenQuiescent s) (onLastWorkItemDrained s) (timers s) (nextTimer s)
    (f (reactions s)) (nextPromise s) (clock s) (log s).

Definition set_nextPromise (n : nat) (s : State) : State :=
  mkState (heap s) (nextWork s) (readyWorkPredecessor s) (maxOutstanding s)
    (outstandingCount s) (maxQps s) (qpsCount s) (expiringWorkTimer s)
    (whenQuiescent s) (onLastWorkItemDrained s) (timers s) (nextTimer s)
    (reactions s) n (clock s) (log s).

Definition set_clock (t : Z) (s : State) : State :=
  mkState (heap s) (nextWork s) (readyWorkPredecessor s) (maxOutstanding s)
    (outstandingCount s) (maxQps s) (qpsCount s) (expiringWorkTimer s)
    (whenQuiescent s) (onLastWorkItemDrained s) (timers s) (nextTimer s)
    (reactions s) (nextPromise s) t (log s).

Definition emit (e : Effect) (s : State) : State :=
  mkState (heap s) (nextWork s) (readyWorkPredecessor s) (maxOutstanding s)
    (outstandingCount s) (maxQps s) (qpsCount s) (expiringWorkTimer s)
    (whenQuiescent s) (onLastWorkItemDrained s) (timers s) (nextTimer s)
    (reactions s) (nextPromise s) (clock s) (e :: log s).

(** Writing one field of the object at address [i]. *)
Definition write (i : nat) (f : Work → Work) (h : gmap nat Work) : gmap nat Work :=
  <[i := f (h !!! i)]> h.

(** ** Class [Work]: list linkage *)

(** [insertAfter(work)]:
    [this.prev = work; this.next = work.next;
     this.prev.next = this; this.next.prev = this;] *)
Definition insertAfter (this work : nat) (h : gmap nat Work) : gmap nat Work :=
  let h := write this (set_prev work) h in
  let h := write this (set_next (next (h !!! work))) h in
  let h := write (prev (h !!! this)) (set_next this) h in
  let h := write (next (h !!! this)) (set_prev this) h in
  h.

(** [remove()]:
    [this.prev.next = this.next; this.next.prev = this.prev;] *)
Definition remove (this : nat) (h : gmap nat Work) : gmap nat Work :=
  let h := write (prev (h !!! this)) (set_next (next (h !!! this))) h in
  let h := write (next (h !!! this)) (set_prev (prev (h !!! this))) h in
  h.

(** ** Class [AsyncThrottle]: the arrow-function members *)

Definition workList : nat := 0%nat.

Definition first (s : State) : nat := next (heap s !!! workList).

Definition last (s : State) : nat := prev (heap s !!! workList).

Definition hasExpiredWork (now : Z) (s : State) : bool :=
  isExpired now (heap s !!! first s).

Definition hasReadyWork (s : State) : bool :=
  negb (next (heap s !!! readyWorkPredecessor s) =? workList)%nat.

Definition atMaxOutstanding (s : State) : bool :=
  maxOutstanding s <=? outstandingCount s.

Definition atMaxQps (s : State) : bool :=
  maxQps s <=? qpsCount s.

Definition canExecuteWork (s : State) : bool :=
  negb (atMaxQps s) && negb (atMaxOutstanding s).

(** [new AsyncThrottle(options)] *)
Definition constructor (options : AsyncThrottleOptions) : State :=
  {| heap := {[ workList := mkWork ReturnsPromise None 0 workList workList ]};
     nextWork := 1;
     readyWorkPredecessor := workList;
     maxOutstanding := js_or (options_maxOutstanding options) MAX_SAFE_INTEGER;
     outstandingCount := 0;
     maxQps := js_or (options_maxQps options) MAX_SAFE_INTEGER;
     qpsCount := 0;
     expiringWorkTimer := None;
     whenQuiescent := None;
     onLastWorkItemDrained := None;
     timers := [];
     nextTimer := 1;
     reactions := [];
     nextPromise := 0;
     clock := 0;
     log := [] |}.

(** [onWorkItemEnqueued()] *)
Definition onWorkItemEnqueued (s : State) : State :=
  match whenQuiescent s with
  | Some _ => s
  | None =>
      let p := nextPromise s in
      set_onLastWorkItemDrained (Some p)
        (set_whenQuiescent (Some p) (set_nextPromise (S p) s))
  end.

(** The call [this.onLastWorkItemDrained!()]: the closure resolves the drain
    promise and clears both fields; calling [null] throws. *)
Definition callOnLastWorkItemDrained (s : State) : State * Completion :=
  match onLastWorkItemDrained s with
  | Some p =>
      (set_onLastWorkItemDrained None
         (set_whenQuiescent None (emit (Drained p (clock s)) s)),
       Normal)
  | None => (s, Throw NullCall)
  end.

(** [purgeExpiredWork()]; the [while] loop is bounded by [fuel]. *)
Fixpoint purgeExpiredWork (fuel : nat) (now : Z) (s : State) : option State :=
  match fuel with
  | O => None
  | S fuel' =>
      if hasExpiredWork now s then
        let work := first s in
        let s := set_heap (remove work) s in
        let s := set_qpsCount (qpsCount s - 1) s in
        let s :=
          if (readyWorkPredecessor s =? work)%nat
          then set_readyWorkPredecessor (prev (heap s !!! work)) s
          else s in
        purgeExpiredWork fuel' now s
      else Some s
  end.

(** [resolve]/[reject] of an item's future: only the first call settles. *)
Definition settle (id : nat) (o : Outcome) (s : State) : State :=
  let s := emit (Settled id o) s in
  match whenComplete (heap s !!! id) with
  | None => set_heap (write id (set_whenComplete (Some o))) s
  | Some _ => s
  end.

(** The closure passed to [work.execute] in [executeReadyWork]:
    [const shouldTriggerWork = this.atMaxOutstanding();
     if (--this.outstandingCount === 0 && !this.hasReadyWork())
       this.onLastWorkItemDrained!();
     if (shouldTriggerWork) this.processWork();] *)
Definition cleanup (processWork : State → option State) (id : nat) (s : State)
  : option (State * Completion) :=
  let shouldTriggerWork := atMaxOutstanding s in
  let s := emit (Completed id) (set_outstandingCount (outstandingCount s - 1) s) in
  let '(s, c) :=
    if (outstandingCount s =? 0) && negb (hasReadyWork s)
    then callOnLastWorkItemDrained s
    else (s, Normal) in
  match c with
  | Throw e => Some (s, Throw e)
  | Normal =>
      if shouldTriggerWork
      then s' ← processWork s; Some (s', Normal)
      else Some (s, Normal)
  end.

(** [Work.execute(cleanup)]:
    [this.expirationTime = Date.now() + 1000;
     try { this.startWork().finally(cleanup).then(this.resolve).catch(this.reject) }
     catch (e) { cleanup(); this.reject(e); }
     finally { return this.whenComplete; }] *)
Definition execute (cleanup : nat → State → option (State * Completion))
    (now : Z) (work : nat) (s : State) : option State :=
  let s := set_heap (write work (set_expirationTime (now + 1000))) s in
  let s := emit (Started work now) s in
  match startWork (heap s !!! work) with
  | ReturnsPromise => Some (set_reactions (cons work) s)
  | Throws e =>
      let s := emit (Produced work (Rejected e)) s in
      '(s, c) ← cleanup work s;
      match c with
      | Normal => Some (settle work (Rejected e) s)
      | Throw _ => Some s   (* the [return] in [finally] discards the exception *)
      end
  end.

(** [updateTimer()] *)
Definition updateTimer (now : Z) (s : State) : State :=
  if hasReadyWork s && atMaxQps s && negb (atMaxOutstanding s) then
    match expiringWorkTimer s with
    | None =>
        let h := nextTimer s in
        let d := expirationDelay now (heap s !!! first s) in
        emit (TimerSet h now d)
          (set_expiringWorkTimer (Some h)
            (set_timers (cons (mkTimeout h now d)) (set_nextTimer (S h) s)))
    | Some _ => s
    end
  else
    match expiringWorkTimer s with
    | Some h =>
        emit (TimerCleared h)
          (set_expiringWorkTimer None
            (set_timers (filter (λ t, handle t ≠ h)) s))
    | None => s
    end.

(** [processWork()], given the admission loop. *)
Definition processWorkWith (executeReadyWork : State → option State)
    (now : Z) (s : State) : option State :=
  s ← purgeExpiredWork (nextWork s) now s;
  s ← executeReadyWork s;
  Some (updateTimer now s).

(** [executeReadyWork()]; the [while] loop and the re-entrant call of
    [processWork] from a synchronous [cleanup] are bounded by [fuel]. *)
Fixpoint executeReadyWork (fuel : nat) (now : Z) (s : State) : option State :=
  match fuel with
  | O => None
  | S fuel' =>
      if hasReadyWork s && canExecuteWork s then
        let work := next (heap s !!! readyWorkPredecessor s) in
        let s := set_readyWorkPredecessor work s in
        let s := set_outstandingCount (outstandingCount s + 1) s in
        let s := set_qpsCount (qpsCount s + 1) s in
        s ← execute (cleanup (processWorkWith (executeReadyWork fuel' now) now)) now work s;
        executeReadyWork fuel' now s
      else Some s
  end.

Definition processWork (fuel : nat) (now : Z) (s : State) : option State :=
  processWorkWith (executeReadyWork fuel now) now s.

(** [callThrottled(startWork)], called at time [now] with a work function
    that behaves as [b]; the returned future is that of the new item. *)
Definition callThrottled (now : Z) (b : StartResult) (s : State) : option State :=
  let work := nextWork s in
  let s := set_heap (insert work (mkWork b None 0 work work)) s in
  let s := set_nextWork (S work) s in
  let s := emit (Submitted work now) s in
  let s := set_heap (insertAfter work (last s)) s in
  let s := onWorkItemEnqueued s in
  processWork (nextWork s) now s.

(** [whenDrained()] *)
Inductive DrainFuture :=
| PendingDrain (p : nat)     (* [this.whenQuiescent] *)
| ResolvedDrain.             (* [Promise.resolve()] *)

Definition whenDrained (s : State) : DrainFuture :=
  match whenQuiescent s with
  | Some p => PendingDrain p
  | None => ResolvedDrain
  end.

(** ** Host events *)

(** The promise returned by the work function of item [id] settles with [o]:
    the chain [.finally(cleanup).then(this.resolve).catch(this.reject)] runs.
    [cleanup] is the first job of the chain; [this.resolve]/[this.reject]
    run two jobs later and touch only the future of the item.  The model
    runs them in one step: the futures that [cleanup] itself settles (those
    of items whose work function throws when [cleanup] starts them) are
    settled before the future of [id], as in the runtime, but jobs of other
    promises that the runtime would run in between are not interleaved.  So
    the position of [Settled id _] among the settlements of OTHER items is
    the model's; the outcome [o'] and the state of the throttle are not
    affected. *)
Definition settleWorkWith (processWork : State → option State)
    (id : nat) (o : Outcome) (s : State) : option State :=
  let s := set_reactions (filter (λ i, i ≠ id)) s in
  let s := emit (Produced id o) s in
  '(s, c) ← cleanup processWork id s;
  let o' := match c with Normal => o | Throw e => Rejected e end in
  Some (settle id o' s).

Definition settleWork (fuel : nat) (now : Z) (id : nat) (o : Outcome) (s : State)
  : option State :=
  settleWorkWith (processWork fuel now) id o s.

(** The timeout callback: [this.expiringWorkTimer = null; this.processWork();] *)
Definition timerFires (fuel : nat) (now : Z) (h : nat) (s : State) : option State :=
  let s := set_timers (filter (λ t, handle t ≠ h)) s in
  let s := set_expiringWorkTimer None s in
  processWork fuel now s.

Inductive Event :=
| CallThrottled (now : Z) (b : StartResult)
| WorkSettles (now : Z) (id : nat) (o : Outcome)
| TimerFires (now : Z) (h : nat).

Definition time_of (ev : Event) : Z :=
  match ev with
  | CallThrottled now _ | WorkSettles now _ _ | TimerFires now _ => now
  end.

(** What the host can do in a state: time does not go backwards, a promise
    settles once and only after it was returned, a timeout runs once, only
    while pending and not before its delay has passed. *)
Definition enabled (ev : Event) (s : State) : bool :=
  (clock s <=? time_of ev) &&
  match ev with
  | CallThrottled _ _ => true
  | WorkSettles _ id _ => bool_decide (id ∈ reactions s)
  | TimerFires now h =>
      existsb (λ t, (handle t =? h)%nat && (armedAt t + delay t <=? now)) (timers s)
  end.

Definition handleEvent (ev : Event) (s : State) : option State :=
  let s := set_clock (time_of ev) s in
  match ev with
  | CallThrottled now b => callThrottled now b s
  | WorkSettles now id o => settleWork (nextWork s) now id o s
  | TimerFires now h => timerFires (nextWork s) now h s
  end.

Definition step (ev : Event) (s : State) : option State :=
  if enabled ev s then handleEvent ev s else None.

Fixpoint run (evs : list Event) (s : State) : option State :=
  match evs with
  | [] => Some s
  | ev :: evs' => s' ← step ev s; run evs' s'
  end.


(** ** Reading the history *)

(** Start times, newest first. *)
Definition starts (l : list Effect) : list Z :=
  omap (λ e, match e with Started _ t => Some t | _ => None end) l.

Definition nStarted (l : list Effect) : nat := length (starts l).

Definition submissions (l : list Effect) : list nat :=
  omap (λ e, match e with Submitted id _ => Some id | _ => None end) l.

Definition nSubmitted (l : list Effect) : nat := length (submissions l).

(** Items started minus items completed. *)
Fixpoint balance (l : list Effect) : Z :=
  match l with
  | [] => 0
  | Started _ _ :: l' => balance l' + 1
  | Completed _ :: l' => balance l' - 1
  | _ :: l' => balance l'
  end.

(** Number of items started in the window (t - 1000, t]; no start in [l]
    is later than [t] when this is used. *)
Definition window (t : Z) (l : list Effect) : Z :=
  Z.of_nat (length (filter (λ τ, t - 1000 < τ ∧ τ ≤ t) (starts l))).

(** The life of one item, as the spec's state machine:
    queued, started (running), work finished, cleaned up, future settled. *)
Inductive Status :=
| Absent
| Queued
| Running
| Finishing (o : Outcome)
| Cleaned (o : Outcome)
| Done (o : Outcome).

#[global] Instance Status_eq_dec : EqDecision Status.
Proof. solve_decision. Defined.

Fixpoint status (l : list Effect) (id : nat) : Status :=
  match l with
  | [] => Absent
  | e :: l' =>
      match e with
      | Submitted i _ => if decide (i = id) then Queued else status l' id
      | Started i _ => if decide (i = id) then Running else status l' id
      | Produced i o => if decide (i = id) then Finishing o else status l' id
      | Completed i =>
          if decide (i = id)
          then match status l' id with Finishing o => Cleaned o | st => st end
          else status l' id
      | Settled i o => if decide (i = id) then Done o else status l' id
      | _ => status l' id
      end
  end.

Definition isOutstanding (st : Status) : bool :=
  match st with
  | Running | Finishing _ => true
  | _ => false
  end.

(** The items that are started but not completed at the end of history [l]. *)
Definition outstandingItems (l : list Effect) : list nat :=
  filter (λ id, isOutstanding (status l id) = true) (seq 1 (nSubmitted l)).

(** The items that are submitted but not started at the end of history [l]. *)
Definition queuedItems (l : list Effect) : list nat :=
  filter (λ id, status l id = Queued) (seq 1 (nSubmitted l)).

(** Nothing is queued and nothing is outstanding. *)
Definition idle (l : list Effect) : Prop :=
  balance l = 0 ∧ nStarted l = nSubmitted l.

(** The drain promise [p] has been resolved. *)
Definition drained (p : nat) (l : list Effect) : Prop :=
  ∃ t, Drained p t ∈ l.

(** A completion that leaves the throttle idle is followed at once by the
    resolution of the drain promise: no other action comes in between. *)
Definition prompt (l : list Effect) : Prop :=
  ∀ id, head l = Some (Completed id) → ¬ idle l.

Fixpoint Prompt (l : list Effect) : Prop :=
  match l with
  | [] => True
  | e :: l' =>
      match e with Drained _ _ => True | _ => prompt l' end ∧ Prompt l'
  end.

(** What must hold when an action is appended to history [l]. *)
Definition entry_ok (kO kQ : Z) (e : Effect) (l : list Effect) : Prop :=
  match e with
  | Submitted id t =>
      id = S (nSubmitted l) ∧ status l id = Absent
  | Started id t =>
      id = S (nStarted l) ∧ status l id = Queued ∧
      balance l < kO ∧ window t l < kQ ∧
      (∀ τ, τ ∈ starts l → τ ≤ t)
  | Produced id o =>
      status l id = Running
  | Completed id =>
      (∃ o, status l id = Finishing o ∧ head l = Some (Produced id o)) ∧
      0 < balance l
  | Settled id o =>
      status l id = Cleaned o
  | Drained p t =>
      (∃ id, head l = Some (Completed id)) ∧ idle l ∧ ¬ drained p l
  | TimerSet h t d =>
      ∃ τ, τ ∈ starts l ∧ t < τ + 1000 ∧ d = τ + 1000 - t ∧
           (∀ τ', τ' ∈ starts l → t < τ' + 1000 → τ ≤ τ')
  | TimerCleared h => True
  end.

Fixpoint Hist (kO kQ : Z) (l : list Effect) : Prop :=
  match l with
  | [] => True
  | e :: l' => entry_ok kO kQ e l' ∧ Hist kO kQ l'
  end.

(** ** The shape of the work list *)

(** The ring holds the sentinel and the items [j+1 .. n], in this order. *)
Definition nxt (j n i : nat) : nat :=
  let p := if (i =? 0)%nat then j else i in
  if (p <? n)%nat then S p else workList.

Definition prv (j n i : nat) : nat :=
  if (i =? 0)%nat then (if (j <? n)%nat then n else workList)
  else if (i =? S j)%nat then workList else Nat.pred i.

Definition ListOK (h : gmap nat Work) (j n : nat) : Prop :=
  ∀ i, (i = 0 ∨ j < i ≤ n)%nat →
       next (h !!! i) = nxt j n i ∧ prev (h !!! i) = prv j n i.

Definition valid_options (o : AsyncThrottleOptions) : Prop :=
  (∀ k, options_maxOutstanding o = Some k → 0 ≤ k) ∧
  (∀ k, options_maxQps o = Some k → 0 ≤ k).

(** The fields of a [Work] object other than its linkage. *)
Definition data (w : Work) : StartResult * option Outcome * Z :=
  (startWork w, whenComplete w, expirationTime w).

(** ** The invariant *)

Definition exp (h : gmap nat Work) (i : nat) : Z := expirationTime (h !!! i).

(** [Inv cur stack j m n s]: [n] items were submitted, the first [m] of them
    were started and the first [j] of those have left the list.  [cur] is
    the item whose work has produced its outcome and whose [cleanup] is about
    to run; [stack] holds the items whose [cleanup] is running or has run and
    whose future is about to be settled (they are on the call stack). *)
Record Inv (cur : option (nat * Outcome)) (stack : list (nat * Outcome))
    (j m n : nat) (s : State) : Prop := {
  inv_nextWork : nextWork s = S n;
  inv_order : (j ≤ m ≤ n)%nat;
  inv_list : ListOK (heap s) j n;
  inv_ready : readyWorkPredecessor s = if (j <? m)%nat then m else workList;
  inv_qps : qpsCount s = Z.of_nat m - Z.of_nat j;
  inv_qps_max : qpsCount s ≤ maxQps s;
  inv_maxQps : 1 ≤ maxQps s;
  inv_maxOut : 1 ≤ maxOutstanding s;
  inv_out : outstandingCount s =
            Z.of_nat (length (reactions s)) + match cur with Some _ => 1 | None => 0 end;
  inv_out_max : outstandingCount s ≤ maxOutstanding s;
  inv_balance : balance (log s) = outstandingCount s;
  inv_nStarted : nStarted (log s) = m;
  inv_nSubmitted : nSubmitted (log s) = n;
  inv_hist : Hist (maxOutstanding s) (maxQps s) (log s);
  inv_clock : 0 ≤ clock s;
  inv_times : ∀ p τ, starts (log s) !! p = Some τ → exp (heap s) (m - p) = τ + 1000;
  inv_exp_hi : ∀ i, (1 ≤ i ≤ m)%nat → 1000 ≤ exp (heap s) i ≤ clock s + 1000;
  inv_exp_mono : ∀ i i', (1 ≤ i ≤ i')%nat → (i' ≤ m)%nat → exp (heap s) i ≤ exp (heap s) i';
  inv_exp_purged : ∀ i, (1 ≤ i ≤ j)%nat → exp (heap s) i ≤ clock s;
  inv_exp_queued : ∀ i, (i = 0 ∨ m < i)%nat → exp (heap s) i = 0;
  inv_absent : ∀ id, status (log s) id = Absent ↔ (id = 0 ∨ n < id)%nat;
  inv_queued : ∀ id, status (log s) id = Queued ↔ (m < id ≤ n)%nat;
  inv_running : ∀ id, status (log s) id = Running ↔ id ∈ reactions s;
  inv_finishing : ∀ id o, status (log s) id = Finishing o ↔ cur = Some (id, o);
  inv_cur_head : ∀ id o, cur = Some (id, o) → head (log s) = Some (Produced id o);
  inv_cleaned : ∀ id o, status (log s) id = Cleaned o ↔ (id, o) ∈ stack;
  inv_reactions_nodup : NoDup (reactions s);
  inv_stack_nodup : NoDup stack;
  inv_whenComplete : ∀ id,
    whenComplete (heap s !!! id) =
    match status (log s) id with Done o => Some o | _ => None end;
  inv_throws : ∀ id e,
    startWork (heap s !!! id) = Throws e →
    match status (log s) id with
    | Absent | Queued => True
    | Running => False
    | Finishing o | Cleaned o | Done o => o = Rejected e
    end;
  inv_drain_fields : onLastWorkItemDrained s = whenQuiescent s;
  inv_drain : whenQuiescent s = None ↔ (outstandingCount s = 0 ∧ m = n);
  inv_drain_pending : ∀ p, whenQuiescent s = Some p →
                           (p < nextPromise s)%nat ∧ ¬ drained p (log s);
  inv_drain_resolved : ∀ p, (p < nextPromise s)%nat → whenQuiescent s ≠ Some p →
                            drained p (log s);
  inv_drain_bound : ∀ p, drained p (log s) → (p < nextPromise s)%nat;
  inv_prompt : prompt (log s);
  inv_prompt_hist : Prompt (log s);
  inv_timer : match expiringWorkTimer s with
              | Some h => ∃ t, timers s = [t] ∧ handle t = h
              | None => timers s = []
              end;
  inv_timer_log : ∀ t, t ∈ timers s →
                       TimerSet (handle t) (armedAt t) (delay t) ∈ log s
}.

(** No listed item has left its window at time [now]. *)
Definition Fresh (now : Z) (j m : nat) (h : gmap nat Work) : Prop :=
  ∀ i, (j < i ≤ m)%nat → now < exp h i.

(** One iteration of the loop of [purgeExpiredWork]. *)
Definition purgeStep (s : State) : State :=
  let work := first s in
  let s := set_heap (remove work) s in
  let s := set_qpsCount (qpsCount s - 1) s in
  if (readyWorkPredecessor s =? work)%nat
  then set_readyWorkPredecessor (prev (heap s !!! work)) s
  else s.

(** The condition under which [updateTimer] wants a timer. *)
Definition timerCond (s : State) : bool :=
  hasReadyWork s && atMaxQps s && negb (atMaxOutstanding s).

Definition TimerOK (s : State) : Prop :=
  is_Some (expiringWorkTimer s) ↔ timerCond s = true.

(** The state in which [startWork()] of the next ready item is invoked:
    the loop body of [executeReadyWork] up to the first two statements of
    [Work.execute]. *)
Definition startedState (now : Z) (s : State) : State :=
  let work := next (heap s !!! readyWorkPredecessor s) in
  let s := set_readyWorkPredecessor work s in
  let s := set_outstandingCount (outstandingCount s + 1) s in
  let s := set_qpsCount (qpsCount s + 1) s in
  let s := set_heap (write work (set_expirationTime (now + 1000))) s in
  emit (Started work now) s.

(** The admission loop has nothing left that it may start. *)
Definition Exit (s : State) : Prop :=
  hasReadyWork s && canExecuteWork s = false.

(** The first half of [cleanup]: the decrement and the drain check. *)
Definition drainCheck (id : nat) (s : State) : State * Completion :=
  let s := emit (Completed id) (set_outstandingCount (outstandingCount s - 1) s) in
  if (outstandingCount s =? 0) && negb (hasReadyWork s)
  then callOnLastWorkItemDrained s
  else (s, Normal).

(** What a pass of [processWork] achieves, for a pass that is given as a
    function; [bound] limits the number of queued items it can handle. *)
Definition PassOK (PW : State → option State) (now : Z) (n bound : nat) : Prop :=
  ∀ stack j m s,
    Inv None stack j m n s → clock s = now → (n - m < bound)%nat →
    ∃ s' j' m', PW s = Some s' ∧ (j ≤ j')%nat ∧ (m ≤ m')%nat ∧
                Inv None stack j' m' n s' ∧ Fresh now j' m' (heap s') ∧
                clock s' = now ∧ TimerOK s' ∧ Exit s'.

(** What the loop of [executeReadyWork] achieves, for a loop that is given
    as a function. *)
Definition LoopOK (ERW : State → option State) (now : Z) (n bound : nat) : Prop :=
  ∀ stack j m s,
    Inv None stack j m n s → Fresh now j m (heap s) → clock s = now →
    (n - m < bound)%nat →
    ∃ s' j' m', ERW s = Some s' ∧ (j ≤ j')%nat ∧ (m ≤ m')%nat ∧
                Inv None stack j' m' n s' ∧ Fresh now j' m' (heap s') ∧
                clock s' = now ∧ Exit s'.

(** [callThrottled] up to the call of [processWork]. *)
Definition enqueued (now : Z) (b : StartResult) (s : State) : State :=
  let work := nextWork s in
  let s := set_heap (insert work (mkWork b None 0 work work)) s in
  let s := set_nextWork (S work) s in
  let s := emit (Submitted work now) s in
  let s := set_heap (insertAfter work (last s)) s in
  onWorkItemEnqueued s.

(** ** A throttle with a negative limit *)

(** The actions of a throttle that starts nothing. *)
Definition passive (e : Effect) : Prop :=
  match e with
  | Submitted _ _ | TimerSet _ _ _ | TimerCleared _ => True
  | _ => False
  end.

(** What holds of every state of a throttle one of whose limits is
    negative: nothing was started, nothing is counted, every future is
    pending. *)
Definition Starved (s : State) : Prop :=
  (maxOutstanding s < 0 ∨ maxQps s < 0) ∧
  outstandingCount s = 0 ∧ qpsCount s = 0 ∧
  reactions s = [] ∧
  (∀ i, expirationTime (heap s !!! i) = 0 ∧ whenComplete (heap s !!! i) = None) ∧
  Forall passive (log s) ∧
  (1 ≤ nextWork s)%nat ∧
  ((1 < nextWork s)%nat → is_Some (whenQuiescent s)).

(** ** Where outcomes come from *)

(** From [s] to [s'] no work function was replaced, and the only outcomes
    produced are the errors thrown by work functions that were started. *)
Definition Prov (s s' : State) : Prop :=
  (∀ i, startWork (heap s' !!! i) = startWork (heap s !!! i)) ∧
  ∃ l, log s' = l ++ log s ∧
       ∀ id r, Produced id r ∈ l →
               ∃ e, startWork (heap s !!! id) = Throws e ∧ r = Rejected e.

(** ** The drain promise *)

(** Number of drain promises resolved so far. *)
Fixpoint nDrained (l : list Effect) : nat :=
  match l with
  | [] => 0
  | Drained _ _ :: l' => S (nDrained l')
  | _ :: l' => nDrained l'
  end.

(** Drain promises are resolved in the order in which they were created:
    the resolution that follows [k] others is that of promise [k]. *)
Fixpoint DrainSeq (l : list Effect) : Prop :=
  match l with
  | [] => True
  | e :: l' =>
      match e with Drained p _ => p = nDrained l' | _ => True end ∧ DrainSeq l'
  end.

(** The closure [onLastWorkItemDrained] resolves the very promise that
    [whenDrained] hands out; that promise is the newest one, and every older
    one has been resolved. *)
Definition DrainOK (s : State) : Prop :=
  onLastWorkItemDrained s = whenQuiescent s ∧
  nextPromise s =
    (nDrained (log s) + match whenQuiescent s with Some _ => 1 | None => 0 end)%nat ∧
  (∀ p, whenQuiescent s = Some p → p = nDrained (log s)) ∧
  DrainSeq (log s).

(** A piece of code that keeps [DrainOK] and forgets no promise. *)
Definition DrainStep (s s' : State) : Prop :=
  DrainOK s → DrainOK s' ∧ (nextPromise s ≤ nextPromise s')%nat.

(** ** Between two turns of the event loop *)

(** [StableAt true] holds right after an admission pass: then no listed
    item has left its window. *)
Definition StableAt (fresh : bool) (s : State) : Prop :=
  ∃ j m n, Inv None [] j m n s ∧ TimerOK s ∧ Exit s ∧
           (fresh = true → Fresh (clock s) j m (heap s)).

Definition Stable (s : State) : Prop := StableAt false s.

(** Events whose handler always runs [processWork]. *)
Definition isPass (ev : Event) : bool :=
  match ev with
  | WorkSettles _ _ _ => false
  | _ => true
  end.

(** ** What no step changes *)

(** The limits are fixed at construction, the history only grows, and a
    work function stays what the caller submitted. *)
Definition Frame (d : nat) (s s' : State) : Prop :=
  maxOutstanding s' = maxOutstanding s ∧
  maxQps s' = maxQps s ∧
  (∃ l, log s' = l ++ log s) ∧
  nextWork s' = (nextWork s + d)%nat ∧
  (∀ i, startWork (heap s' !!! i) = startWork (heap s !!! i) ∨ (nextWork s ≤ i)%nat).

(** The work functions submitted by a sequence of events, in order. *)
Definition submitted (evs : list Event) : list StartResult :=
  omap (λ ev, match ev with CallThrottled _ b => Some b | _ => None end) evs.

(** ** More readings of the state and of the history *)

(** The items linked into the work list, from [first()] on. *)
Fixpoint ring (h : gmap nat Work) (fuel : nat) (i : nat) : list nat :=
  match fuel with
  | O => []
  | S fuel' => if (i =? workList)%nat then [] else i :: ring h fuel' (next (h !!! i))
  end.

Definition workItems (s : State) : list nat :=
  ring (heap s) (nextWork s) (first s).

(** Number of calls of [resolve]/[reject] for the future of item [id]. *)
Definition isSettledOf (id : nat) (e : Effect) : bool :=
  match e with
  | Settled i _ => bool_decide (i = id)
  | _ => false
  end.

Definition settleCalls (id : nat) (l : list Effect) : nat :=
  length (filter (λ e, isSettledOf id e = true) l).

(** ** A worked scenario *)

(** [maxOutstanding = 1], [maxQps = 2]: item 1 runs from t=0 to t=20, item 2
    throws synchronously when it is started at t=20, item 3 has to wait for
    the one-second window of item 1 and is started by the timer at t=1000. *)
Definition demo_options : AsyncThrottleOptions := mkOptions (Some 1) (Some 2).

Definition demo_events : list Event :=
  [ CallThrottled 0 ReturnsPromise;
    CallThrottled 0 (Throws (Thrown 5));
    CallThrottled 10 ReturnsPromise;
    WorkSettles 20 1 (Fulfilled 7%nat);
    TimerFires 1000 1;
    WorkSettles 1200 3 (Rejected (Thrown 9)) ].

(** The state at the end of the scenario. *)
Definition demo_state : State :=
  default (constructor demo_options) (run demo_events (constructor demo_options)).

(** The state after the first [k] events of the scenario. *)
Definition demo_at (k : nat) : State :=
  default (constructor demo_options)
    (run (take k demo_events) (constructor demo_options)).

(** The trace on which the drain future resolves while an item is still
    tracked: one item, submitted with no limits, whose work fulfils within
    the millisecond in which it was started. *)
Definition quick_events : list Event :=
  [CallThrottled 0 ReturnsPromise; WorkSettles 0 1 (Fulfilled 7%nat)].

(** ** The scenarios of the repository's tests

    What a test observes after a prefix of its events: the start times
    (newest first, so their number is the number of workers that were
    called), the drain future, and the pending timeouts. *)
Definition observe (evs : list Event) (o : AsyncThrottleOptions)
  : option (list Z * DrainFuture * list Timeout) :=
  s ← run evs (constructor o); Some (starts (log s), whenDrained s, timers s).

(** 'throttling on outstanding work / throttles a sequence of items':
    three workers, completed by hand after 2000 ms. *)
Definition test_outstanding : list Event :=
  [ CallThrottled 0 ReturnsPromise; CallThrottled 0 ReturnsPromise;
    CallThrottled 0 ReturnsPromise;
    WorkSettles 2000 1 (Fulfilled 0%nat); WorkSettles 2000 2 (Fulfilled 0%nat);
    WorkSettles 2000 3 (Fulfilled 0%nat) ].

(** 'throttling on QPS / throttles a sequence of items', [maxQps = 1]. *)
Definition test_qps : list Event :=
  [ CallThrottled 0 ReturnsPromise; WorkSettles 0 1 (Fulfilled 0%nat);
    CallThrottled 1 ReturnsPromise; CallThrottled 1 ReturnsPromise;
    TimerFires 1000 1; WorkSettles 1000 2 (Fulfilled 0%nat);
    TimerFires 2000 2; WorkSettles 2000 3 (Fulfilled 0%nat) ].

(** 'throttling on QPS / uses a rolling window', [maxQps = 2]. *)
Definition test_window : list Event :=
  [ CallThrottled 0 ReturnsPromise; WorkSettles 0 1 (Fulfilled 0%nat);
    CallThrottled 500 ReturnsPromise; WorkSettles 500 2 (Fulfilled 0%nat);
    CallThrottled 500 ReturnsPromise; CallThrottled 500 ReturnsPromise;
    TimerFires 1000 1; WorkSettles 1000 3 (Fulfilled 0%nat);
    TimerFires 1500 2; WorkSettles 1500 4 (Fulfilled 0%nat) ].

(** 'dealing with errors / handles an error in the work function',
    [maxQps = 1]. *)
Definition test_error : list Event :=
  [ CallThrottled 0 (Throws (Thrown 1)); CallThrottled 0 ReturnsPromise;
    TimerFires 1000 1; WorkSettles 1000 2 (Fulfilled 0%nat) ].

(** The state after the first event of [test_error]: the work function is
    invoked at once and throws. *)
Definition thrower_state : State :=
  default (constructor (mkOptions None (Some 1)))
    (run (take 1 test_error) (constructor (mkOptions None (Some 1)))).

(** The state in which [execute] leaves the throttle when the work function
    returns a promise: the chain of reactions is attached to it. *)
Definition registered (now : Z) (work : nat) (s : State) : State :=
  set_reactions (cons work)
    (emit (Started work now)
       (set_heap (write work (set_expirationTime (now + 1000))) s)).

(** ** [callAllThrottled] *)

(** The promise returned by [callAllThrottled]: resolved with the array
    [results] (the array object itself is handed to [resolve]), or rejected
    with an error. *)
Inductive AllOutcome :=
| ResolvedWithResults
| RejectedWith (error : Error).

(** The variables of the executor's closure, and the returned promise. *)
Record Aggregate := mkAggregate {
  rejected : bool;
  results : list (option Value);      (* [new Array<T>(n)]: [None] is a hole *)
  outstandingResultCount : Z;
  allPromise : option AllOutcome      (* [None] while pending *)
}.

(** [results[i] = value] on a JavaScript array: an index past the end
    extends the array with holes. *)
Definition array_set (i : nat) (value : Value) (a : list (option Value))
  : list (option Value) :=
  if (i <? length a)%nat then <[i := Some value]> a
  else a ++ replicate (i - length a) None ++ [Some value].

(** [resolve]/[reject] of the returned promise: only the first call counts. *)
Definition resolve (a : Aggregate) : Aggregate :=
  match allPromise a with
  | None => mkAggregate (rejected a) (results a) (outstandingResultCount a)
              (Some ResolvedWithResults)
  | Some _ => a
  end.

Definition reject (error : Error) (a : Aggregate) : Aggregate :=
  match allPromise a with
  | None => mkAggregate (rejected a) (results a) (outstandingResultCount a)
              (Some (RejectedWith error))
  | Some _ => a
  end.

(** [value => { results[i] = value;
                if (--outstandingResultCount === 0) resolve(results); }] *)
Definition onValue (i : nat) (value : Value) (a : Aggregate) : Aggregate :=
  let a := mkAggregate (rejected a) (array_set i value (results a))
             (outstandingResultCount a - 1) (allPromise a) in
  if outstandingResultCount a =? 0 then resolve a else a.

(** [error => { if (!rejected) { rejected = true; reject(error); } }] *)
Definition onError (error : Error) (a : Aggregate) : Aggregate :=
  if rejected a then a
  else reject error
         (mkAggregate true (results a) (outstandingResultCount a) (allPromise a)).

(** A running [callAllThrottled]: its throttle, its closure, and the
    reactions that have run so far (newest first; kept for the statements,
    the code has no such list). *)
Record Call := mkCall {
  throttle : State;
  aggregate : Aggregate;
  notified : list (nat * Outcome)
}.

(** The reactions [.then(...).catch(...)] of item [p.1], the [(p.1 - 1)]-th
    function of the array (the throttle is new, so its items are numbered
    from 1), when its future has settled with [p.2]. *)
Definition notify (p : nat * Outcome) (c : Call) : Call :=
  mkCall (throttle c)
    (match p.2 with
     | Fulfilled value => onValue (Nat.pred p.1) value (aggregate c)
     | Rejected error => onError error (aggregate c)
     end)
    (p :: notified c).

(** The futures settled by the [k] newest actions of history [l], oldest
    first; a call of [resolve]/[reject] on a settled future settles
    nothing. *)
Fixpoint settledIn (k : nat) (l : list Effect) : list (nat * Outcome) :=
  match k, l with
  | S k', e :: l' =>
      settledIn k' l' ++
      match e with
      | Settled id o => if (settleCalls id l' =? 0)%nat then [(id, o)] else []
      | _ => []
      end
  | _, _ => []
  end.

(** The reactions of the futures that a turn which took the throttle from
    [s] to [s'] has settled, run in the order in which the model settled
    them.  The runtime runs the same reactions, once each, but may run them
    in another order (a rejection reaches [.catch] one job after a value
    reaches [.then], and see [settleWorkWith]). *)
Definition deliver (s s' : State) (c : Call) : Call :=
  foldl (λ c p, notify p c) c (settledIn (length (log s') - length (log s)) (log s')).

(** The loop of [callAllThrottled], at time [now]: each function is
    submitted, then the reactions are attached to the future of the new
    item [work].  Futures that settle during the submission queue their
    reactions at once if they have them already; the future of [work] gets
    them afterwards, and queues them then if it has settled. *)
Fixpoint submitAll (now : Z) (startWorkArray : list StartResult) (c : Call)
  : option Call :=
  match startWorkArray with
  | [] => Some c
  | b :: rest =>
      let s := throttle c in
      let work := nextWork s in
      s' ← step (CallThrottled now b) s;
      let c := mkCall s' (aggregate c) (notified c) in
      let c := foldl (λ c p, notify p c) c
                 (filter (λ p, p.1 ≠ work)
                    (settledIn (length (log s') - length (log s)) (log s'))) in
      let c := match whenComplete (heap s' !!! work) with
               | Some o => notify (work, o) c
               | None => c
               end in
      submitAll now rest c
  end.

Definition callAllThrottled (now : Z) (startWorkArray : list StartResult)
    (options : AsyncThrottleOptions) : option Call :=
  let n := length startWorkArray in
  submitAll now startWorkArray
    (mkCall (constructor options)
       (mkAggregate false (replicate n None) (Z.of_nat n) None) []).

(** What the host does next: promises of work settle and timers fire; the
    throttle is private to the call, so nothing else is submitted.  The
    reactions of the futures settled by the event run before the next
    event, in the order of [deliver]. *)
Definition hostStep (ev : Event) (c : Call) : option Call :=
  match ev with
  | CallThrottled _ _ => None
  | _ =>
      s' ← step ev (throttle c);
      Some (deliver (throttle c) s' (mkCall s' (aggregate c) (notified c)))
  end.

Fixpoint hostRun (evs : list Event) (c : Call) : option Call :=
  match evs with
  | [] => Some c
  | ev :: evs' => c' ← hostStep ev c; hostRun evs' c'
  end.

(** The closure after the reactions [d] have run, in this order (oldest
    first), on a new call for an array of [n] functions: whatever order the
    runtime takes is one such [d]. *)
Definition react (n : nat) (s : State) (d : list (nat * Outcome)) : Call :=
  foldl (λ c p, notify p c)
    (mkCall s (mkAggregate false (replicate n None) (Z.of_nat n) None) []) d.

(** The error of the first rejection in a sequence of reactions (oldest
    first). *)
Fixpoint firstRejection (d : list (nat * Outcome)) : option Error :=
  match d with
  | [] => None
  | p :: d' =>
      match p.2 with
      | Rejected e => Some e
      | Fulfilled _ => firstRejection d'
      end
  end.

(** The first error that the reactions met ([d] is newest first). *)
Fixpoint firstError (d : list (nat * Outcome)) : option Error :=
  match d with
  | [] => None
  | p :: d' =>
      match firstError d', p.2 with
      | Some e, _ => Some e
      | None, Rejected e => Some e
      | None, Fulfilled _ => None
      end
  end.

(** 'callAllThrottled / waits for all work', [maxQps = 1]: the third
    worker is completed by hand at the end. *)
Definition test_all_waits (k : nat) : option Call :=
  c ← callAllThrottled 0 [ReturnsPromise; ReturnsPromise; ReturnsPromise]
        (mkOptions None (Some 1));
  hostRun (take k [ WorkSettles 0 1 (Fulfilled 1%nat); TimerFires 1000 1;
                    WorkSettles 1000 2 (Fulfilled 2%nat); TimerFires 2000 2;
                    WorkSettles 5000 3 (Fulfilled 3%nat) ]) c.

(** 'callAllThrottled / rejects when any reject': the second worker fails. *)
Definition test_all_rejects (k : nat) : option Call :=
  c ← callAllThrottled 0 [ReturnsPromise; ReturnsPromise; ReturnsPromise; ReturnsPromise]
        (mkOptions None None);
  hostRun (take k [ WorkSettles 0 1 (Fulfilled 1%nat);
                    WorkSettles 0 2 (Rejected (Thrown 2));
                    WorkSettles 0 3 (Fulfilled 3%nat);
                    WorkSettles 0 4 (Fulfilled 4%nat) ]) c.

(** The calls at the end of these two scenarios. *)
Definition all_waits_done : Call :=
  default (mkCall (constructor (mkOptions None None)) (mkAggregate false [] 0 None) [])
    (test_all_waits 5).

Definition all_rejects_done : Call :=
  default (mkCall (constructor (mkOptions None None)) (mkAggregate false [] 0 None) [])
    (test_all_rejects 4).

(** *** The closure of [callAllThrottled] *)

Definition isFulfilled (o : Outcome) : bool :=
  match o with Fulfilled _ => true | Rejected _ => false end.

(** The closure [a] after the reactions [d], for an array of [n] functions. *)
Record AggOK (n : nat) (d : list (nat * Outcome)) (a : Aggregate) : Prop := {
  agg_nodup : NoDup d.*1;
  agg_range : ∀ p, p ∈ d → (1 ≤ p.1 ≤ n)%nat;
  agg_length : length (results a) = n;
  agg_results : ∀ i v, results a !! i = Some (Some v) ↔ (S i, Fulfilled v) ∈ d;
  agg_count : outstandingResultCount a =
              Z.of_nat n - Z.of_nat (length (filter (λ p, isFulfilled p.2 = true) d));
  agg_rejected : rejected a = true ↔ is_Some (firstError d);
  agg_promise : allPromise a =
                match firstError d with
                | Some e => Some (RejectedWith e)
                | None => if (outstandingResultCount a =? 0) && (0 <? n)%nat
                          then Some ResolvedWithResults else None
                end
}.

(** The call and its throttle agree, for an array of [n] functions. *)
Definition CallInv (n : nat) (c : Call) : Prop :=
  Stable (throttle c) ∧
  AggOK n (notified c) (aggregate c) ∧
  (∀ id o, (id, o) ∈ notified c ↔ Settled id o ∈ log (throttle c)) ∧
  (nextWork (throttle c) ≤ S n)%nat.

(** ** Store lemmas *)

Lemma lookup_write (i k : nat) (f : Work → Work) (h : gmap nat Work) :
  write i f h !!! k = if decide (i = k) then f (h !!! i) else h !!! k.
Proof.
  unfold write. rewrite lookup_total_insert. by case_decide; subst.
Qed.

Lemma write_data (k i : nat) (f : Work → Work) (h : gmap nat Work) :
  (∀ w, data (f w) = data w) →
  data (write k f h !!! i) = data (h !!! i).
Proof.
  intros Hf. rewrite lookup_write. case_decide; subst; auto.
Qed.

Lemma insertAfter_data (a b i : nat) (h : gmap nat Work) :
  data (insertAfter a b h !!! i) = data (h !!! i).
Proof.
  unfold insertAfter. cbv zeta. by rewrite !write_data.
Qed.

Lemma remove_data (a i : nat) (h : gmap nat Work) :
  data (remove a h !!! i) = data (h !!! i).
Proof.
  unfold remove. cbv zeta. by rewrite !write_data.
Qed.

Lemma insertAfter_eq (a b : nat) (h : gmap nat Work) :
  a ≠ b →
  insertAfter a b h =
  write (next (h !!! b)) (set_prev a)
    (write b (set_next a)
      (write a (set_next (next (h !!! b)))
        (write a (set_prev b) h))).
Proof.
  intros Hab. unfold insertAfter. cbv zeta.
  set (h1 := write a (set_prev b) h).
  assert (E1 : next (h1 !!! b) = next (h !!! b)).
  { subst h1. rewrite lookup_write. by case_decide. }
  rewrite E1.
  set (h2 := write a (set_next (next (h !!! b))) h1).
  assert (E2 : prev (h2 !!! a) = b).
  { subst h2 h1. rewrite !lookup_write. by repeat case_decide. }
  rewrite E2.
  set (h3 := write b (set_next a) h2).
  assert (E3 : next (h3 !!! a) = next (h !!! b)).
  { subst h3 h2 h1. rewrite !lookup_write. by repeat case_decide. }
  by rewrite E3.
Qed.

Lemma remove_eq (a : nat) (h : gmap nat Work) :
  prev (h !!! a) ≠ a →
  remove a h =
  write (next (h !!! a)) (set_prev (prev (h !!! a)))
    (write (prev (h !!! a)) (set_next (next (h !!! a))) h).
Proof.
  intros Hp. unfold remove. cbv zeta.
  set (h1 := write (prev (h !!! a)) (set_next (next (h !!! a))) h).
  assert (E1 : next (h1 !!! a) = next (h !!! a) ∧ prev (h1 !!! a) = prev (h !!! a)).
  { subst h1. rewrite lookup_write. by case_decide. }
  destruct E1 as [-> ->]. done.
Qed.

Ltac nat_cases :=
  unfold nxt, prv, workList in *; simpl in *;
  repeat (match goal with
          | |- context [(?a <? ?b)%nat] => destruct (Nat.ltb_spec a b)
          | |- context [(?a =? ?b)%nat] => destruct (Nat.eqb_spec a b)
          | H : context [(?a <? ?b)%nat] |- _ => destruct (Nat.ltb_spec a b)
          | H : context [(?a =? ?b)%nat] |- _ => destruct (Nat.eqb_spec a b)
          end; simpl in *; try lia);
  repeat split; try lia; try congruence.

Lemma insertAfter_ListOK (h : gmap nat Work) (j n : nat) (w : Work) :
  (j ≤ n)%nat →
  ListOK h j n →
  let h' := <[S n := w]> h in
  ListOK (insertAfter (S n) (prev (h' !!! workList)) h') j (S n).
Proof.
  intros Hjn HL h' i Hi.
  assert (Hold : ∀ k, (k = 0 ∨ j < k ≤ n)%nat →
            next (h' !!! k) = nxt j n k ∧ prev (h' !!! k) = prv j n k).
  { intros k Hk. subst h'. rewrite lookup_total_insert_ne by lia. by apply HL. }
  assert (H0 := Hold 0%nat (or_introl eq_refl)).
  destruct H0 as [H0n H0p]. unfold workList. rewrite H0p.
  assert (Hl : (prv j n 0 = 0 ∨ j < prv j n 0 ≤ n)%nat).
  { unfold prv, workList. simpl. destruct (Nat.ltb_spec j n); lia. }
  destruct (Hold _ Hl) as [Hln Hlp].
  assert (Hne : S n ≠ prv j n 0) by lia.
  rewrite insertAfter_eq by done. rewrite Hln.
  assert (Hz : nxt j n (prv j n 0) = 0%nat).
  { unfold nxt, prv, workList. simpl. nat_cases. }
  rewrite Hz.
  rewrite !lookup_write. clear HL.
  destruct (decide (i = S n)) as [->|Hi1].
  - clear Hold Hln Hlp H0n H0p Hz Hl.
    repeat case_decide; simpl; try lia; nat_cases.
  - assert (Hi' : (i = 0 ∨ j < i ≤ n)%nat) by lia.
    destruct (Hold _ Hi') as [Hin Hip].
    repeat case_decide; simpl; subst; try lia;
      rewrite ?Hin, ?Hip, ?H0n, ?H0p, ?Hln, ?Hlp;
      clear Hold Hin Hip Hln Hlp H0n H0p Hz Hl; nat_cases.
Qed.

Lemma remove_ListOK (h : gmap nat Work) (j n : nat) :
  (j < n)%nat →
  ListOK h j n →
  ListOK (remove (S j) h) (S j) n ∧ prev (remove (S j) h !!! S j) = workList.
Proof.
  intros Hjn HL.
  destruct (HL (S j)) as [Hn Hp]; [lia|].
  destruct (HL 0%nat) as [H0n H0p]; [lia|].
  assert (Hpv : prv j n (S j) = 0%nat) by (clear; nat_cases).
  rewrite remove_eq by (rewrite Hp, Hpv; lia).
  rewrite Hn, Hp, Hpv.
  split.
  - intros i Hi.
    assert (Hi' : (i = 0 ∨ j < i ≤ n)%nat) by lia.
    destruct (HL _ Hi') as [Hin Hip].
    rewrite !lookup_write.
    repeat case_decide; simpl; subst; try lia;
      rewrite ?Hin, ?Hip, ?H0n, ?H0p; clear HL Hin Hip H0n H0p Hn Hp Hpv; nat_cases.
  - rewrite !lookup_write.
    repeat case_decide; simpl; subst; try lia;
      rewrite ?Hp; clear HL H0n H0p Hn Hp; nat_cases.
Qed.

Lemma js_or_pos (x : option Z) :
  (∀ k, x = Some k → 0 ≤ k) → 1 ≤ js_or x MAX_SAFE_INTEGER.
Proof.
  intros H. unfold js_or, MAX_SAFE_INTEGER. destruct x as [v|]; [|lia].
  specialize (H v eq_refl). destruct (Z.eqb_spec v 0); lia.
Qed.

Lemma constructor_Inv (o : AsyncThrottleOptions) :
  valid_options o → Inv None [] 0 0 0 (constructor o).
Proof.
  intros [HO HQ].
  assert (H1 := js_or_pos _ HO). assert (H2 := js_or_pos _ HQ).
  assert (Hs : ∀ i, ({[workList := mkWork ReturnsPromise None 0 workList workList]}
                       : gmap nat Work) !!! i
                    = mkWork ReturnsPromise None 0 workList workList).
  { intros i. unfold workList. destruct (decide (i = 0%nat)) as [->|].
    - by rewrite lookup_total_singleton.
    - by rewrite lookup_total_singleton_ne. }
  constructor; simpl; try done; try lia.
  - intros i [->|Hi]; [|lia]. by rewrite Hs.
  - intros i _. unfold exp. by rewrite Hs.
  - intros id. split; [lia|done].
  - intros id. split; [done|lia].
  - intros id. split; [done|]. by intros ?%elem_of_nil.
  - intros id o'. split; [done|]. by intros ?%elem_of_nil.
  - constructor.
  - constructor.
  - intros id. by rewrite Hs.
  - by intros p [t ?%elem_of_nil].
  - by intros t ?%elem_of_nil.
Qed.

Lemma isExpired_spec (now : Z) (w : Work) :
  isExpired now w = true ↔ expirationTime w ≠ 0 ∧ expirationTime w ≤ now.
Proof.
  unfold isExpired, expirationDelay.
  rewrite andb_true_iff, negb_true_iff, Z.eqb_neq, Z.leb_le. lia.
Qed.

Lemma exp_remove (a : nat) (h : gmap nat Work) (i : nat) :
  exp (remove a h) i = exp h i.
Proof.
  unfold exp. pose proof (remove_data a i h) as H.
  unfold data in H. congruence.
Qed.

Lemma whenComplete_remove (a : nat) (h : gmap nat Work) (i : nat) :
  whenComplete (remove a h !!! i) = whenComplete (h !!! i).
Proof.
  pose proof (remove_data a i h) as H. unfold data in H. congruence.
Qed.

Lemma startWork_remove (a : nat) (h : gmap nat Work) (i : nat) :
  startWork (remove a h !!! i) = startWork (h !!! i).
Proof.
  pose proof (remove_data a i h) as H. unfold data in H. congruence.
Qed.

Lemma first_spec cur stack j m n s :
  Inv cur stack j m n s → first s = if (j <? n)%nat then S j else workList.
Proof.
  intros H. unfold first, workList.
  by destruct (inv_list _ _ _ _ _ _ H 0%nat) as [-> _]; [lia|].
Qed.

Lemma hasReadyWork_spec cur stack j m n s :
  Inv cur stack j m n s → hasReadyWork s = bool_decide (m < n)%nat.
Proof.
  intros H. unfold hasReadyWork.
  rewrite (inv_ready _ _ _ _ _ _ H).
  pose proof (inv_order _ _ _ _ _ _ H) as Ho.
  destruct (Nat.ltb_spec j m).
  - destruct (inv_list _ _ _ _ _ _ H m) as [-> _]; [lia|].
    case_bool_decide; nat_cases.
  - destruct (inv_list _ _ _ _ _ _ H 0%nat) as [Hn _]; [lia|].
    unfold workList. rewrite Hn.
    case_bool_decide; nat_cases.
Qed.

Lemma purgeStep_Inv (stack : list (nat * Outcome)) j m n s :
  Inv None stack j m n s → (j < m)%nat → exp (heap s) (S j) ≤ clock s →
  Inv None stack (S j) m n (purgeStep s).
Proof.
  intros HI Hjm He.
  pose proof (inv_order _ _ _ _ _ _ HI) as Ho.
  unfold purgeStep. rewrite (first_spec _ _ _ _ _ _ HI).
  assert (Hjn : (j <? n)%nat = true) by (apply Nat.ltb_lt; lia).
  rewrite Hjn. cbv zeta.
  destruct (remove_ListOK (heap s) j n) as [HL Hpv];
    [lia | apply (inv_list _ _ _ _ _ _ HI) |].
  destruct HI. simpl. rewrite inv_ready0.
  assert (Hjm' : (j <? m)%nat = true) by (apply Nat.ltb_lt; lia).
  rewrite Hjm'.
  assert (Hexp : ∀ i, (1 ≤ i ≤ S j)%nat → exp (heap s) i ≤ clock s).
  { intros i Hi. destruct (decide (i = S j)) as [->|]; [done|].
    apply inv_exp_purged0. lia. }
  destruct (Nat.eqb_spec m (S j)) as [Hm|Hm];
    (constructor; simpl; try done; try lia;
     [ try (rewrite Hpv); try (rewrite inv_ready0); nat_cases
     | intros; rewrite ?exp_remove; eauto .. ]).
  all: intros; rewrite ?whenComplete_remove, ?startWork_remove in *; eauto.
  all: by apply (inv_throws0 id e).
Qed.

Lemma purgeExpiredWork_Inv (now : Z) (stack : list (nat * Outcome)) (fuel : nat) :
  ∀ j m n s,
    Inv None stack j m n s → clock s = now → (m - j < fuel)%nat →
    ∃ s' j', purgeExpiredWork fuel now s = Some s' ∧ (j ≤ j')%nat ∧
             Inv None stack j' m n s' ∧ Fresh now j' m (heap s') ∧
             clock s' = now ∧ log s' = log s ∧
             expiringWorkTimer s' = expiringWorkTimer s ∧
             outstandingCount s' = outstandingCount s.
Proof.
  induction fuel as [|fuel IH]; intros j m n s HI Hc Hf; [lia|].
  pose proof (inv_order _ _ _ _ _ _ HI) as Ho.
  simpl. fold (purgeStep s). unfold hasExpiredWork.
  destruct (isExpired now (heap s !!! first s)) eqn:He.
  - rewrite (first_spec _ _ _ _ _ _ HI) in He.
    apply isExpired_spec in He. destruct He as [He0 He1].
    assert (Hjm : (j < m)%nat).
    { destruct (Nat.ltb_spec j n).
      - destruct (decide (j < m)%nat); [done|].
        exfalso. apply He0. apply (inv_exp_queued _ _ _ _ _ _ HI). lia.
      - exfalso. apply He0. apply (inv_exp_queued _ _ _ _ _ _ HI). by left. }
    assert (Hjn : (j <? n)%nat = true) by (apply Nat.ltb_lt; lia).
    rewrite Hjn in *.
    destruct (IH (S j) m n (purgeStep s))
      as (s' & j' & E & Hj' & HI' & HF & Hc' & Hl' & Ht' & Ho').
    + apply purgeStep_Inv; auto. unfold exp. lia.
    + unfold purgeStep. by case_match.
    + lia.
    + exists s', j'. split_and!; auto; try lia.
      * rewrite Hl'. unfold purgeStep. by case_match.
      * rewrite Ht'. unfold purgeStep. by case_match.
      * rewrite Ho'. unfold purgeStep. by case_match.
  - exists s, j. split_and!; auto.
    intros i Hi.
    rewrite (first_spec _ _ _ _ _ _ HI) in He.
    assert (Hjn : (j <? n)%nat = true) by (apply Nat.ltb_lt; lia).
    rewrite Hjn in He.
    assert (H1 : exp (heap s) (S j) ≤ exp (heap s) i).
    { apply (inv_exp_mono _ _ _ _ _ _ HI); lia. }
    assert (H2 : 1000 ≤ exp (heap s) (S j)).
    { apply (inv_exp_hi _ _ _ _ _ _ HI). lia. }
    destruct (decide (exp (heap s) (S j) ≤ now)) as [Hle|]; [|lia].
    assert (isExpired now (heap s !!! S j) = true); [|congruence].
    apply isExpired_spec. unfold exp in *. lia.
Qed.

Lemma Drained_emit (p : nat) (e : Effect) (l : list Effect) :
  (∀ q t, e ≠ Drained q t) → drained p (e :: l) ↔ drained p l.
Proof.
  intros He. unfold drained. split.
  - intros [t [Heq|?]%elem_of_cons]; [|by eauto].
    symmetry in Heq. by apply He in Heq.
  - intros [t ?]. exists t. by right.
Qed.

Lemma prompt_emit (e : Effect) (l : list Effect) :
  (∀ id, e ≠ Completed id) → prompt (e :: l).
Proof. intros He id [= Heq]. by apply He in Heq. Qed.

Ltac hist_frame :=
  try (by apply prompt_emit);
  try (split; [assumption|assumption]);
  try (by intros ? ?; right; auto);
  try (by intros ? ?; right; right; auto).

Lemma starts_lookup stack cur j m n s (i : nat) :
  Inv cur stack j m n s → (1 ≤ i ≤ m)%nat →
  ∃ τ, τ ∈ starts (log s) ∧ exp (heap s) i = τ + 1000.
Proof.
  intros HI Hi.
  destruct (lookup_lt_is_Some_2 (starts (log s)) (m - i)) as [τ Hτ].
  { pose proof (inv_nStarted _ _ _ _ _ _ HI) as Hn. unfold nStarted in Hn. lia. }
  exists τ. split.
  - by eapply list_elem_of_lookup_2.
  - apply (inv_times _ _ _ _ _ _ HI) in Hτ.
    by replace (m - (m - i))%nat with i in Hτ by lia.
Qed.

Lemma starts_elem stack cur j m n s (τ : Z) :
  Inv cur stack j m n s → τ ∈ starts (log s) →
  ∃ i, (1 ≤ i ≤ m)%nat ∧ exp (heap s) i = τ + 1000.
Proof.
  intros HI Hτ.
  apply list_elem_of_lookup in Hτ as [p Hp].
  pose proof (lookup_lt_Some _ _ _ Hp) as Hlt.
  pose proof (inv_nStarted _ _ _ _ _ _ HI) as Hn. unfold nStarted in Hn.
  exists (m - p)%nat. split; [lia|].
  by apply (inv_times _ _ _ _ _ _ HI).
Qed.

Lemma updateTimer_Inv now stack j m n s :
  Inv None stack j m n s → Fresh now j m (heap s) → clock s = now →
  Inv None stack j m n (updateTimer now s) ∧ TimerOK (updateTimer now s) ∧
  heap (updateTimer now s) = heap s ∧
  clock (updateTimer now s) = clock s ∧
  timerCond (updateTimer now s) = timerCond s ∧
  hasReadyWork (updateTimer now s) = hasReadyWork s ∧
  canExecuteWork (updateTimer now s) = canExecuteWork s.
Proof.
  intros HI HF Hc.
  unfold updateTimer. fold (timerCond s).
  destruct (timerCond s) eqn:Hcond.
  - destruct (expiringWorkTimer s) as [h|] eqn:Ht.
    + split_and!; auto. unfold TimerOK. rewrite Ht, Hcond. naive_solver.
    + split_and!; try done.
      unfold timerCond in Hcond.
      apply andb_true_iff in Hcond as [Hcond Ho].
      apply andb_true_iff in Hcond as [Hr Hq].
      unfold atMaxQps in Hq. apply Z.leb_le in Hq.
      rewrite (hasReadyWork_spec _ _ _ _ _ _ HI) in Hr.
      apply bool_decide_eq_true in Hr.
      rewrite (first_spec _ _ _ _ _ _ HI).
      pose proof (inv_order _ _ _ _ _ _ HI) as Hord.
      pose proof (inv_qps _ _ _ _ _ _ HI) as Hqps.
      pose proof (inv_maxQps _ _ _ _ _ _ HI) as Hmq.
      assert (Hjm : (j < m)%nat) by lia.
      assert (Hjn : (j <? n)%nat = true) by (apply Nat.ltb_lt; lia).
      rewrite Hjn.
      destruct (starts_lookup _ _ _ _ _ _ (S j) HI) as (τ & Hτ & Hexp); [lia|].
      pose proof (HF (S j) ltac:(lia)) as Hfresh.
      pose proof HI as HI0.
      destruct HI. rewrite Ht in inv_timer0.
      constructor; simpl; try done.
      * split; [|done]. unfold expirationDelay. fold (exp (heap s) (S j)).
        exists τ. split_and!; auto; try lia.
        intros τ' Hτ' Hlt.
        destruct (starts_elem _ _ _ _ _ _ τ' HI0 Hτ') as (i & Hi & Hexp').
        destruct (decide (i ≤ j)%nat).
        -- pose proof (inv_exp_purged0 i ltac:(lia)). lia.
        -- pose proof (inv_exp_mono0 (S j) i ltac:(lia) ltac:(lia)). lia.
      * intros p Hp. destruct (inv_drain_pending0 p Hp) as [? ?].
        split; [done|]. by rewrite Drained_emit.
      * intros p Hp Hne. rewrite Drained_emit by done. auto.
      * intros p. rewrite Drained_emit by done. auto.
      * rewrite inv_timer0. eauto.
      * rewrite inv_timer0. intros t [->|?%elem_of_nil]%elem_of_cons; [|done].
        simpl. by left.
  - destruct (expiringWorkTimer s) as [h|] eqn:Ht.
    + split_and!; try done.
      2:{ unfold TimerOK. simpl. split; [by intros [? ?]|].
          intros Hx. unfold timerCond in *.
          unfold hasReadyWork, atMaxQps, atMaxOutstanding in *. simpl in *. congruence. }
      destruct HI. rewrite Ht in inv_timer0.
      constructor; simpl; try done.
      * intros p Hp. destruct (inv_drain_pending0 p Hp) as [? ?].
        split; [done|]. by rewrite Drained_emit.
      * intros p Hp Hne. rewrite Drained_emit by done. auto.
      * intros p. rewrite Drained_emit by done. auto.
      * destruct inv_timer0 as (t & -> & Hh).
        rewrite filter_cons, filter_nil. by case_decide.
      * intros t [_ Hin]%list_elem_of_filter. right. auto.
    + split_and!; auto. unfold TimerOK. rewrite Ht, Hcond. split; [by intros [? ?]|done].
Qed.

Lemma filter_none {A} (P : A → Prop) `{∀ x, Decision (P x)} (l : list A) :
  (∀ x, x ∈ l → ¬ P x) → filter P l = [].
Proof.
  induction l as [|x l IH]; intros Hl; [done|].
  rewrite filter_cons_False by (apply Hl; left).
  apply IH. intros y Hy. apply Hl. by right.
Qed.

(** At most [m - j] starts of the history lie in the window that ends now:
    the [j] oldest items left the list because their second was over. *)
Lemma window_bound cur stack j m n s :
  Inv cur stack j m n s →
  window (clock s) (log s) ≤ Z.of_nat m - Z.of_nat j.
Proof.
  intros HI. unfold window.
  pose proof (inv_nStarted _ _ _ _ _ _ HI) as Hn. unfold nStarted in Hn.
  pose proof (inv_order _ _ _ _ _ _ HI) as Ho.
  rewrite <- (take_drop (m - j) (starts (log s))).
  rewrite filter_app, length_app.
  rewrite (filter_none _ (drop _ _)).
  - pose proof (length_filter (λ τ, clock s - 1000 < τ ∧ τ ≤ clock s)
                  (take (m - j) (starts (log s)))) as Hl.
    rewrite length_take in Hl. simpl. lia.
  - intros τ Hτ [H1 H2].
    apply list_elem_of_lookup in Hτ as [p Hp].
    rewrite lookup_drop in Hp.
    pose proof (lookup_lt_Some _ _ _ Hp) as Hlt.
    apply (inv_times _ _ _ _ _ _ HI) in Hp.
    pose proof (inv_exp_purged _ _ _ _ _ _ HI (m - (m - j + p))%nat ltac:(lia)).
    lia.
Qed.

Lemma ready_next cur stack j m n s :
  Inv cur stack j m n s → (m < n)%nat →
  next (heap s !!! readyWorkPredecessor s) = S m.
Proof.
  intros HI Hmn.
  rewrite (inv_ready _ _ _ _ _ _ HI).
  pose proof (inv_order _ _ _ _ _ _ HI) as Ho.
  destruct (Nat.ltb_spec j m).
  - destruct (inv_list _ _ _ _ _ _ HI m) as [-> _]; [lia|]. nat_cases.
  - destruct (inv_list _ _ _ _ _ _ HI 0%nat) as [Hn _]; [lia|].
    unfold workList. rewrite Hn. nat_cases.
Qed.

Lemma ListOK_write (h : gmap nat Work) (j n k : nat) (f : Work → Work) :
  (∀ w, next (f w) = next w ∧ prev (f w) = prev w) →
  ListOK h j n → ListOK (write k f h) j n.
Proof.
  intros Hf HL i Hi. rewrite lookup_write.
  case_decide; subst; [|by apply HL].
  destruct (Hf (h !!! i)) as [-> ->]. by apply HL.
Qed.

Lemma exp_write_time (h : gmap nat Work) (k i : nat) (t : Z) :
  exp (write k (set_expirationTime t) h) i = if decide (k = i) then t else exp h i.
Proof. unfold exp. rewrite lookup_write. by case_decide. Qed.

Lemma whenComplete_write_time (h : gmap nat Work) (k i : nat) (t : Z) :
  whenComplete (write k (set_expirationTime t) h !!! i) = whenComplete (h !!! i).
Proof. rewrite lookup_write. by case_decide; subst. Qed.

Lemma startWork_write_time (h : gmap nat Work) (k i : nat) (t : Z) :
  startWork (write k (set_expirationTime t) h !!! i) = startWork (h !!! i).
Proof. rewrite lookup_write. by case_decide; subst. Qed.

Lemma exp_write_future (h : gmap nat Work) (k i : nat) (o : option Outcome) :
  exp (write k (set_whenComplete o) h) i = exp h i.
Proof. unfold exp. rewrite lookup_write. by case_decide; subst. Qed.

Lemma whenComplete_write_future (h : gmap nat Work) (k i : nat) (o : option Outcome) :
  whenComplete (write k (set_whenComplete o) h !!! i) =
  if decide (k = i) then o else whenComplete (h !!! i).
Proof. rewrite lookup_write. by case_decide; subst. Qed.

Lemma startWork_write_future (h : gmap nat Work) (k i : nat) (o : option Outcome) :
  startWork (write k (set_whenComplete o) h !!! i) = startWork (h !!! i).
Proof. rewrite lookup_write. by case_decide; subst. Qed.

Lemma startedState_Inv now stack j m n s :
  Inv None stack j m n s → Fresh now j m (heap s) → clock s = now →
  hasReadyWork s && canExecuteWork s = true →
  (m < n)%nat ∧
  next (heap s !!! readyWorkPredecessor s) = S m ∧
  Fresh now j (S m) (heap (startedState now s)) ∧
  (startWork (heap s !!! S m) = ReturnsPromise →
   Inv None stack j (S m) n (set_reactions (cons (S m)) (startedState now s))) ∧
  (∀ e, startWork (heap s !!! S m) = Throws e →
   Inv (Some (S m, Rejected e)) stack j (S m) n
     (emit (Produced (S m) (Rejected e)) (startedState now s))).
Proof.
  intros HI HF Hc Hgo.
  apply andb_true_iff in Hgo as [Hr Hx].
  rewrite (hasReadyWork_spec _ _ _ _ _ _ HI) in Hr.
  apply bool_decide_eq_true in Hr.
  unfold canExecuteWork, atMaxQps, atMaxOutstanding in Hx.
  apply andb_true_iff in Hx as [Hq Ho].
  apply negb_true_iff, Z.leb_gt in Hq. apply negb_true_iff, Z.leb_gt in Ho.
  pose proof (ready_next _ _ _ _ _ _ HI Hr) as Hw.
  pose proof (window_bound _ _ _ _ _ _ HI) as Hwin.
  pose proof (inv_queued _ _ _ _ _ _ HI (S m)) as HQ.
  assert (HstQ : status (log s) (S m) = Queued) by (apply HQ; lia).
  assert (HnR : S m ∉ reactions s).
  { intros Hin. apply (inv_running _ _ _ _ _ _ HI) in Hin. congruence. }
  assert (HnS : ∀ o, (S m, o) ∉ stack).
  { intros o Hin. apply (inv_cleaned _ _ _ _ _ _ HI) in Hin. congruence. }
  assert (HwQ : whenQuiescent s ≠ None).
  { intros Hn. apply (inv_drain _ _ _ _ _ _ HI) in Hn. lia. }
  assert (Htimes : ∀ τ, τ ∈ starts (log s) → τ ≤ now).
  { intros τ Hτ. destruct (starts_elem _ _ _ _ _ _ τ HI Hτ) as (i & Hi & He).
    pose proof (inv_exp_hi _ _ _ _ _ _ HI i Hi). lia. }
  split; [done|]. split; [done|].
  unfold startedState. rewrite Hw. cbv zeta.
  split.
  { intros i Hi. simpl. rewrite exp_write_time. case_decide; [lia|].
    apply HF. lia. }
  destruct HI. subst now.
  split; [intros Hsw | intros e Hsw].
  all: constructor; simpl; try done; try lia.
  all: try (by apply prompt_emit).
  all: try (split; [assumption|assumption]).
  all: try (by intros t Ht; right; auto).
  all: try (by intros t Ht; right; right; auto).
  all: try (apply ListOK_write; [by intros []|done]).
  all: try (nat_cases; fail).
  all: rewrite ?length_cons; try lia.
  all: try (unfold nStarted in *; simpl; lia).
  all: try (rewrite ?decide_True by done; split_and!; auto; lia).
  all: try (intros p τ Hp; destruct p as [|p]; simpl in Hp;
            [ injection Hp as <-; rewrite exp_write_time, decide_True by done; lia
            | rewrite exp_write_time, decide_False by lia; by apply inv_times0 ]).
  all: try (intros i Hi; rewrite exp_write_time; case_decide; subst;
            [ lia | first [ apply inv_exp_hi0 | apply inv_exp_purged0
                          | apply inv_exp_queued0 ]; lia ]).
  all: try (intros i i' Hi Hi'; rewrite !exp_write_time; repeat case_decide; subst;
            try lia;
            [ pose proof (inv_exp_hi0 i ltac:(lia)); lia
            | apply inv_exp_mono0; lia ]).
  all: try (intros p Hp; destruct (inv_drain_pending0 p Hp) as [? ?];
            split; [done|]; by rewrite !Drained_emit).
  all: try (intros p Hp Hne; rewrite !Drained_emit by done; auto).
  all: try (intros p; rewrite !Drained_emit by done; auto).
  (* the status of each item *)
  all: try (intros id; destruct (decide (S m = id)) as [<-|Hne]; simpl;
            rewrite ?decide_True by done;
            [ split; [ try done | intros; try lia; try done ]
            | first [ apply inv_absent0
                    | rewrite inv_queued0; lia
                    | rewrite inv_running0, ?elem_of_cons; naive_solver ] ]).
  all: try (intros id o; destruct (decide (S m = id)) as [<-|Hne]; simpl;
            rewrite ?decide_True by done;
            [ split; [ try done | intros; try lia; try done ]
            | first [ rewrite inv_finishing0; naive_solver
                    | apply inv_cleaned0 ] ]).
  all: try (constructor; done).
  all: try (intros id; rewrite whenComplete_write_time, inv_whenComplete0;
            repeat case_decide; subst; rewrite ?HstQ; done).
  all: try (intros id e'; rewrite startWork_write_time; intros Hsw';
            repeat case_decide; subst; [congruence|by apply (inv_throws0 id e')]).
  all: try (by intros id o [= <- <-]).
  all: try (by intros ? ? ?%HnS).
  all: try (naive_solver).
Qed.


Lemma length_filter_ne (id : nat) (l : list nat) :
  NoDup l → id ∈ l →
  S (length (filter (λ i, i ≠ id) l)) = length l.
Proof.
  induction 1 as [|x l Hx Hl IH]; intros Hin; [by apply elem_of_nil in Hin|].
  rewrite filter_cons. case_decide as Hd; simpl.
  - f_equal. apply IH. apply elem_of_cons in Hin as [->|]; done.
  - subst x. f_equal. clear IH Hin Hl.
    induction l as [|y l IH]; [done|].
    apply not_elem_of_cons in Hx as [Hy Hx].
    rewrite filter_cons_True by done. simpl. f_equal. by apply IH.
Qed.

(** The work of a running item produces its outcome. *)
Lemma produced_Inv stack j m n s id o :
  Inv None stack j m n s → id ∈ reactions s →
  Inv (Some (id, o)) stack j m n
    (emit (Produced id o) (set_reactions (filter (λ i, i ≠ id)) s)).
Proof.
  intros HI Hin.
  pose proof (length_filter_ne id _ (inv_reactions_nodup _ _ _ _ _ _ HI) Hin) as Hlen.
  assert (HR : status (log s) id = Running) by by apply (inv_running _ _ _ _ _ _ HI).
  destruct HI.
  constructor; simpl; try done; try lia.
  all: hist_frame.
  all: try (intros p Hp; destruct (inv_drain_pending0 p Hp) as [? ?];
            split; [done|]; by rewrite !Drained_emit).
  all: try (intros p Hp Hne; rewrite !Drained_emit by done; auto).
  all: try (intros p; rewrite !Drained_emit by done; auto).
  - intros i. case_decide; subst; [|done]. split; [done|].
    intros Hx. apply inv_absent0 in Hx. congruence.
  - intros i. case_decide; subst; [|done]. split; [done|].
    intros Hx. apply inv_queued0 in Hx. congruence.
  - intros i. rewrite list_elem_of_filter. case_decide; subst.
    + split; [done|]. by intros [? _].
    + rewrite inv_running0. naive_solver.
  - intros i o'. case_decide; subst.
    + naive_solver.
    + rewrite inv_finishing0. naive_solver.
  - by intros i o' [= <- <-].
  - intros i o'. case_decide; subst; [|done]. split; [done|].
    intros Hx. apply inv_cleaned0 in Hx. congruence.
  - by apply NoDup_filter.
  - intros i. rewrite inv_whenComplete0. case_decide; subst; [|done]. by rewrite HR.
  - intros i e Hsw. pose proof (inv_throws0 i e Hsw) as Ht.
    case_decide; subst; [|done]. by rewrite HR in Ht.
Qed.

Lemma cleanup_unfold (PW : State → option State) (id : nat) (s : State) :
  cleanup PW id s =
  let '(s', c) := drainCheck id s in
  match c with
  | Throw e => Some (s', Throw e)
  | Normal =>
      if atMaxOutstanding s
      then s'' ← PW s'; Some (s'', Normal)
      else Some (s', Normal)
  end.
Proof. reflexivity. Qed.

Lemma drainCheck_Inv stack j m n s id o :
  Inv (Some (id, o)) stack j m n s →
  ∃ s', drainCheck id s = (s', Normal) ∧
        Inv None ((id, o) :: stack) j m n s' ∧
        heap s' = heap s ∧
        readyWorkPredecessor s' = readyWorkPredecessor s ∧
        outstandingCount s' = outstandingCount s - 1 ∧
        maxOutstanding s' = maxOutstanding s ∧
        qpsCount s' = qpsCount s ∧ maxQps s' = maxQps s ∧
        expiringWorkTimer s' = expiringWorkTimer s ∧
        clock s' = clock s.
Proof.
  intros HI.
  assert (HF : status (log s) id = Finishing o) by by apply (inv_finishing _ _ _ _ _ _ HI).
  assert (HH : head (log s) = Some (Produced id o)) by by apply (inv_cur_head _ _ _ _ _ _ HI).
  assert (HnS : ∀ o', (id, o') ∉ stack).
  { intros o' Hin. apply (inv_cleaned _ _ _ _ _ _ HI) in Hin. congruence. }
  assert (HnR : id ∉ reactions s).
  { intros Hin. apply (inv_running _ _ _ _ _ _ HI) in Hin. congruence. }
  assert (Hpos : 1 ≤ outstandingCount s).
  { rewrite (inv_out _ _ _ _ _ _ HI). lia. }
  assert (HwQ : ∃ p, whenQuiescent s = Some p).
  { destruct (whenQuiescent s) as [p|] eqn:Hq; [eauto|].
    apply (inv_drain _ _ _ _ _ _ HI) in Hq. lia. }
  destruct HwQ as [p HwQ].
  assert (Hready : hasReadyWork
            (emit (Completed id) (set_outstandingCount (outstandingCount s - 1) s))
          = bool_decide (m < n)%nat).
  { rewrite <- (hasReadyWork_spec _ _ _ _ _ _ HI). done. }
  unfold drainCheck. rewrite Hready. simpl.
  destruct HI.
  assert (Hst : ∀ i, (if decide (id = i)
                      then match status (log s) i with
                           | Finishing o0 => Cleaned o0 | st => st end
                      else status (log s) i)
                     = if decide (id = i) then Cleaned o else status (log s) i).
  { intros i. destruct (decide (id = i)) as [<-|?]; [by rewrite HF|done]. }
  destruct ((outstandingCount s - 1 =? 0) && negb (bool_decide (m < n)%nat)) eqn:Hd.
  - apply andb_true_iff in Hd as [Hz Hd]. apply Z.eqb_eq in Hz.
    apply negb_true_iff, bool_decide_eq_false in Hd.
    unfold callOnLastWorkItemDrained. simpl.
    rewrite inv_drain_fields0, HwQ.
    eexists. split; [done|]. split; [|done].
    destruct (inv_drain_pending0 p HwQ) as [Hp1 Hp2].
    constructor; simpl; try done; try lia.
    all: try (intros i; rewrite Hst; destruct (decide (id = i)) as [<-|Hne]).
    all: clear Hst.
    + unfold idle, nStarted, nSubmitted in *. simpl.
      split_and!; eauto; try lia. by rewrite Drained_emit.
    + split; [done|]. intros Hx. apply inv_absent0 in Hx. congruence.
    + done.
    + split; [done|]. intros Hx. apply inv_queued0 in Hx. congruence.
    + done.
    + split; [done|]. by intros ?%HnR.
    + done.
    + done.
    + intros o'. rewrite inv_finishing0. naive_solver.
    + intros o'. rewrite elem_of_cons.
      split; [intros [= <-]; by left|]. intros [[= <-]|?%HnS]; done.
    + intros o'. rewrite elem_of_cons, inv_cleaned0.
      split; [by right|]. by intros [[= ? ?]|?].
    + constructor; [apply HnS|done].
    + rewrite inv_whenComplete0. by rewrite HF.
    + done.
    + intros e Hsw. pose proof (inv_throws0 id e Hsw) as Ht. by rewrite HF in Ht.
    + intros e Hsw. by apply (inv_throws0 i e).
    + split; [intros _; split; lia|done].
    + intros q Hq _. destruct (decide (q = p)) as [->|Hne].
      * exists (clock s). by left.
      * destruct (inv_drain_resolved0 q Hq) as [t Ht]; [congruence|].
        exists t. by right; right.
    + intros q [t [[= -> _]|Hq]%elem_of_cons]; [done|].
      apply inv_drain_bound0. rewrite <- (Drained_emit q (Completed id)) by done.
      by exists t.
    + intros t Ht. right; right; auto.
  - eexists. split; [done|]. split; [|done].
    apply andb_false_iff in Hd.
    constructor; simpl; try done; try lia.
    all: try (intros i; rewrite Hst; destruct (decide (id = i)) as [<-|Hne]).
    all: clear Hst.
    all: try (intros q Hq; destruct (inv_drain_pending0 q Hq) as [? ?];
              split; [done|]; by rewrite !Drained_emit).
    all: try (intros q Hq Hne; rewrite !Drained_emit by done; auto).
    all: try (intros q; rewrite !Drained_emit by done; auto).
    all: try (by intros t Ht; right; auto).
    all: try (split; [|assumption]; by intros ? ?).
    + split_and!; eauto; try lia.
    + split; [done|]. intros Hx. apply inv_absent0 in Hx. congruence.
    + done.
    + split; [done|]. intros Hx. apply inv_queued0 in Hx. congruence.
    + done.
    + split; [done|]. by intros ?%HnR.
    + done.
    + done.
    + intros o'. rewrite inv_finishing0. naive_solver.
    + intros o'. rewrite elem_of_cons.
      split; [intros [= <-]; by left|]. intros [[= <-]|?%HnS]; done.
    + intros o'. rewrite elem_of_cons, inv_cleaned0.
      split; [by right|]. by intros [[= ? ?]|?].
    + constructor; [apply HnS|done].
    + rewrite inv_whenComplete0. by rewrite HF.
    + done.
    + intros e Hsw. pose proof (inv_throws0 id e Hsw) as Ht. by rewrite HF in Ht.
    + intros e Hsw. by apply (inv_throws0 i e).
    + rewrite HwQ. split; [done|]. intros [Hz ->].
      destruct Hd as [Hd|Hd].
      * apply Z.eqb_neq in Hd. lia.
      * apply negb_false_iff, bool_decide_eq_true in Hd. lia.
    + intros id0 _ [Hb Hs]. unfold nStarted, nSubmitted in *. simpl in Hb, Hs.
      destruct Hd as [Hd|Hd].
      * apply Z.eqb_neq in Hd. lia.
      * apply negb_false_iff, bool_decide_eq_true in Hd. lia.
Qed.


(** The future of an item whose [cleanup] has run is settled. *)
Lemma settle_Inv stack j m n s id o :
  Inv None ((id, o) :: stack) j m n s →
  Inv None stack j m n (settle id o s) ∧
  (∀ i, next (heap (settle id o s) !!! i) = next (heap s !!! i)) ∧
  (∀ i, exp (heap (settle id o s)) i = exp (heap s) i) ∧
  readyWorkPredecessor (settle id o s) = readyWorkPredecessor s ∧
  outstandingCount (settle id o s) = outstandingCount s ∧
  maxOutstanding (settle id o s) = maxOutstanding s ∧
  qpsCount (settle id o s) = qpsCount s ∧
  maxQps (settle id o s) = maxQps s ∧
  expiringWorkTimer (settle id o s) = expiringWorkTimer s ∧
  clock (settle id o s) = clock s.
Proof.
  intros HI.
  assert (HC : status (log s) id = Cleaned o).
  { apply (inv_cleaned _ _ _ _ _ _ HI). by left. }
  assert (HW : whenComplete (heap s !!! id) = None).
  { by rewrite (inv_whenComplete _ _ _ _ _ _ HI), HC. }
  pose proof (inv_stack_nodup _ _ _ _ _ _ HI) as Hnd.
  apply NoDup_cons in Hnd as [HnS Hnd].
  unfold settle. simpl. rewrite HW.
  split_and!; try done.
  2:{ intros i. simpl. rewrite lookup_write. by case_decide; subst. }
  2:{ intros i. simpl. by rewrite exp_write_future. }
  destruct HI.
  constructor; simpl; try done; try lia.
  all: hist_frame.
  all: try (intros q Hq; destruct (inv_drain_pending0 q Hq) as [? ?];
            split; [done|]; by rewrite !Drained_emit).
  all: try (intros q Hq Hne; rewrite !Drained_emit by done; auto).
  all: try (intros q; rewrite !Drained_emit by done; auto).
  all: try (intros; rewrite ?exp_write_future; eauto; fail).
  - apply ListOK_write; [by intros []|done].
  - intros i. destruct (decide (id = i)) as [<-|Hne]; [|done].
    split; [done|]. intros Hx. apply inv_absent0 in Hx. congruence.
  - intros i. destruct (decide (id = i)) as [<-|Hne]; [|done].
    split; [done|]. intros Hx. apply inv_queued0 in Hx. congruence.
  - intros i. destruct (decide (id = i)) as [<-|Hne]; [|done].
    split; [done|]. intros Hx. apply inv_running0 in Hx. congruence.
  - intros i o'. destruct (decide (id = i)) as [<-|Hne]; [done|].
    by rewrite inv_finishing0.
  - intros i o'. destruct (decide (id = i)) as [<-|Hne].
    + split; [done|]. intros Hin.
      assert (Hx : status (log s) id = Cleaned o').
      { apply inv_cleaned0. by right. }
      assert (o' = o) as -> by congruence. done.
    + rewrite inv_cleaned0, elem_of_cons. split; [|by right].
      by intros [[= ? ?]|?].
  - intros i. rewrite whenComplete_write_future.
    destruct (decide (id = i)) as [<-|Hne]; [done|]. apply inv_whenComplete0.
  - intros i e. rewrite startWork_write_future. intros Hsw.
    pose proof (inv_throws0 i e Hsw) as Ht.
    destruct (decide (id = i)) as [<-|Hne]; [by rewrite HC in Ht|done].
Qed.

Lemma hasReadyWork_ext (s s' : State) :
  (∀ i, next (heap s' !!! i) = next (heap s !!! i)) →
  readyWorkPredecessor s' = readyWorkPredecessor s →
  hasReadyWork s' = hasReadyWork s.
Proof. intros Hn Hr. unfold hasReadyWork. by rewrite Hr, Hn. Qed.

Lemma cleanup_Inv PW now bound stack j m n s id o :
  PassOK PW now n bound → (n - m < bound)%nat →
  Inv (Some (id, o)) stack j m n s → clock s = now →
  ∃ s' j' m', cleanup PW id s = Some (s', Normal) ∧ (j ≤ j')%nat ∧ (m ≤ m')%nat ∧
              Inv None ((id, o) :: stack) j' m' n s' ∧
              (Fresh now j m (heap s) → Fresh now j' m' (heap s')) ∧
              clock s' = now ∧
              (TimerOK s → Exit s → TimerOK s' ∧ Exit s').
Proof.
  intros HPW Hb HI Hc.
  rewrite cleanup_unfold.
  destruct (drainCheck_Inv _ _ _ _ _ _ _ HI)
    as (s1 & -> & HI1 & Hh & Hr & Ho & Hmo & Hq & Hmq & Ht & Hc1).
  destruct (atMaxOutstanding s) eqn:Hmax.
  - destruct (HPW _ _ _ _ HI1) as (s' & j' & m' & -> & Hj & Hm & HI' & HF' & Hc' & HT & HE);
      [congruence|done|].
    simpl. exists s', j', m'. split_and!; auto.
  - exists s1, j, m. split_and!; auto.
    + by rewrite Hh.
    + congruence.
    + unfold atMaxOutstanding in Hmax. apply Z.leb_gt in Hmax.
      assert (Hready : hasReadyWork s1 = hasReadyWork s).
      { apply hasReadyWork_ext; [by rewrite Hh|done]. }
      assert (Hmax1 : atMaxOutstanding s1 = false).
      { unfold atMaxOutstanding. apply Z.leb_gt. lia. }
      assert (Hmax0 : atMaxOutstanding s = false).
      { unfold atMaxOutstanding. apply Z.leb_gt. lia. }
      assert (Hqps : atMaxQps s1 = atMaxQps s).
      { unfold atMaxQps. by rewrite Hq, Hmq. }
      unfold TimerOK, Exit, timerCond, canExecuteWork.
      rewrite Ht, Hready, Hqps, Hmax1, Hmax0. done.
Qed.

Lemma processWorkWith_PassOK ERW now n bound :
  LoopOK ERW now n bound → PassOK (processWorkWith ERW now) now n bound.
Proof.
  intros HL stack j m s HI Hc Hb.
  unfold processWorkWith.
  pose proof (inv_order _ _ _ _ _ _ HI) as Ho.
  destruct (purgeExpiredWork_Inv now stack (nextWork s) j m n s HI Hc)
    as (s1 & j1 & -> & Hj1 & HI1 & HF1 & Hc1 & _).
  { rewrite (inv_nextWork _ _ _ _ _ _ HI). lia. }
  simpl.
  destruct (HL _ _ _ _ HI1 HF1 Hc1 Hb)
    as (s2 & j2 & m2 & -> & Hj2 & Hm2 & HI2 & HF2 & Hc2 & HE2).
  simpl.
  destruct (updateTimer_Inv now _ _ _ _ _ HI2 HF2 Hc2)
    as (HI3 & HT3 & Hh & Hc3 & _ & Hr & Hx).
  eexists _, j2, m2. split_and!; try done; try lia; try congruence.
  all: first [ by rewrite Hh | unfold Exit in *; by rewrite Hr, Hx ].
Qed.

Lemma executeReadyWork_unfold (fuel : nat) (now : Z) (s : State) :
  executeReadyWork (S fuel) now s =
  if hasReadyWork s && canExecuteWork s then
    let work := next (heap s !!! readyWorkPredecessor s) in
    let st := startedState now s in
    let PW := processWorkWith (executeReadyWork fuel now) now in
    match startWork (heap s !!! work) with
    | ReturnsPromise => executeReadyWork fuel now (set_reactions (cons work) st)
    | Throws e =>
        match cleanup PW work (emit (Produced work (Rejected e)) st) with
        | Some (s', Normal) => executeReadyWork fuel now (settle work (Rejected e) s')
        | Some (s', Throw _) => executeReadyWork fuel now s'
        | None => None
        end
    end
  else Some s.
Proof.
  simpl. destruct (hasReadyWork s && canExecuteWork s); [|done].
  unfold execute. cbv zeta. simpl.
  rewrite startWork_write_time.
  destruct (startWork (heap s !!! next (heap s !!! readyWorkPredecessor s))); [|done].
  fold (startedState now s).
  destruct (cleanup _ _ _) as [[s' []]|]; done.
Qed.

Lemma executeReadyWork_LoopOK (now : Z) (n fuel : nat) :
  LoopOK (executeReadyWork fuel now) now n fuel.
Proof.
  induction fuel as [|fuel IH]; intros stack j m s HI HF Hc Hb; [lia|].
  rewrite executeReadyWork_unfold.
  destruct (hasReadyWork s && canExecuteWork s) eqn:Hgo.
  2:{ exists s, j, m. split_and!; auto. }
  destruct (startedState_Inv now _ _ _ _ _ HI HF Hc Hgo)
    as (Hmn & Hw & HF1 & HA & HS).
  cbv zeta. rewrite Hw.
  destruct (startWork (heap s !!! S m)) as [e|] eqn:Hsw.
  - specialize (HS e eq_refl).
    destruct (cleanup_Inv _ now fuel stack j (S m) n _ (S m) (Rejected e)
                (processWorkWith_PassOK _ _ _ _ IH) ltac:(lia) HS)
      as (s1 & j1 & m1 & -> & Hj1 & Hm1 & HI1 & HF1' & Hc1 & _); [done|].
    specialize (HF1' HF1).
    destruct (settle_Inv _ _ _ _ _ _ _ HI1) as (HI2 & _ & He & _ & _ & _ & _ & _ & _ & Hc2).
    destruct (IH stack j1 m1 (settle (S m) (Rejected e) s1))
      as (s3 & j3 & m3 & -> & Hj3 & Hm3 & HI3 & HF3 & Hc3 & HE3); auto.
    + intros i Hi. rewrite He. by apply HF1'.
    + congruence.
    + lia.
    + exists s3, j3, m3. split_and!; auto; lia.
  - specialize (HA eq_refl).
    destruct (IH stack j (S m) (set_reactions (cons (S m)) (startedState now s)))
      as (s3 & j3 & m3 & -> & Hj3 & Hm3 & HI3 & HF3 & Hc3 & HE3); auto.
    + lia.
    + exists s3, j3, m3. split_and!; auto; lia.
Qed.

Lemma processWork_PassOK (now : Z) (n fuel : nat) :
  PassOK (processWork fuel now) now n fuel.
Proof.
  apply processWorkWith_PassOK, executeReadyWork_LoopOK.
Qed.

Lemma set_clock_Inv cur stack j m n s now :
  Inv cur stack j m n s → clock s ≤ now →
  Inv cur stack j m n (set_clock now s).
Proof.
  intros HI Hc. destruct HI.
  constructor; simpl; try done; try lia.
  - intros i Hi. pose proof (inv_exp_hi0 i Hi). lia.
  - intros i Hi. pose proof (inv_exp_purged0 i Hi). lia.
Qed.

Lemma enqueued_frame s now b :
  clock (enqueued now b s) = clock s ∧
  nextWork (enqueued now b s) = S (nextWork s) ∧
  startWork (heap (enqueued now b s) !!! nextWork s) = b.
Proof.
  unfold enqueued, onWorkItemEnqueued. cbv zeta. simpl.
  destruct (whenQuiescent s); simpl; split_and!; try done.
  all: match goal with |- startWork (?h !!! ?i) = _ =>
         pose proof (insertAfter_data (nextWork s) (last
           (emit (Submitted (nextWork s) now)
              (set_nextWork (S (nextWork s))
                 (set_heap (insert (nextWork s) (mkWork b None 0 (nextWork s) (nextWork s))) s))))
           i (<[nextWork s := mkWork b None 0 (nextWork s) (nextWork s)]> (heap s))) as Hd
       end.
  all: unfold data in Hd; simpl in Hd; rewrite lookup_total_insert_eq in Hd;
       by simplify_eq.
Qed.

Lemma enqueued_Inv stack j m n s now b :
  Inv None stack j m n s →
  Inv None stack j m (S n) (enqueued now b s).
Proof.
  intros HI.
  pose proof (inv_nextWork _ _ _ _ _ _ HI) as Hnw.
  pose proof (inv_order _ _ _ _ _ _ HI) as Hord.
  assert (HstA : status (log s) (S n) = Absent).
  { apply (inv_absent _ _ _ _ _ _ HI). lia. }
  set (w := mkWork b None 0 (S n) (S n)).
  pose proof (insertAfter_ListOK (heap s) j n w ltac:(lia) (inv_list _ _ _ _ _ _ HI)) as HL.
  simpl in HL.
  remember (enqueued now b s) as s' eqn:Hs'.
  assert (Hheap : heap s' = insertAfter (S n) (prev (<[S n:=w]> (heap s) !!! workList))
                              (<[S n:=w]> (heap s))).
  { subst s'. unfold enqueued, onWorkItemEnqueued. rewrite Hnw. cbv zeta.
    by destruct (whenQuiescent _). }
  assert (Hfields :
    nextWork s' = S (S n) ∧ readyWorkPredecessor s' = readyWorkPredecessor s ∧
    maxOutstanding s' = maxOutstanding s ∧ outstandingCount s' = outstandingCount s ∧
    maxQps s' = maxQps s ∧ qpsCount s' = qpsCount s ∧
    expiringWorkTimer s' = expiringWorkTimer s ∧ timers s' = timers s ∧
    reactions s' = reactions s ∧ clock s' = clock s ∧
    log s' = Submitted (S n) now :: log s ∧
    onLastWorkItemDrained s' = whenQuiescent s' ∧
    whenQuiescent s' = Some (default (nextPromise s) (whenQuiescent s)) ∧
    nextPromise s' = (if whenQuiescent s is Some _ then nextPromise s
                      else S (nextPromise s))).
  { pose proof (inv_drain_fields _ _ _ _ _ _ HI) as Hdf.
    subst s'. unfold enqueued, onWorkItemEnqueued. rewrite Hnw. cbv zeta. simpl.
    destruct (whenQuiescent s) eqn:HwQ; simpl; rewrite ?HwQ; split_and!; try done;
      congruence. }
  destruct Hfields as (F1 & F2 & F3 & F4 & F5 & F6 & F7 & F8 & F9 & F10 & F11 & F12 & F13 & F14).
  clear Hs'.
  assert (Hdata : ∀ i, data (heap s' !!! i)
                       = if decide (S n = i) then data w else data (heap s !!! i)).
  { intros i. rewrite Hheap, insertAfter_data, lookup_total_insert. by case_decide. }
  assert (Hexp : ∀ i, exp (heap s') i = if decide (S n = i) then 0 else exp (heap s) i).
  { intros i; specialize (Hdata i); unfold data, exp in *. case_decide; by simplify_eq. }
  assert (Hwc : ∀ i, whenComplete (heap s' !!! i) =
                     if decide (S n = i) then None else whenComplete (heap s !!! i)).
  { intros i; specialize (Hdata i); unfold data in *. case_decide; by simplify_eq. }
  assert (Hsw : ∀ i, startWork (heap s' !!! i) =
                     if decide (S n = i) then b else startWork (heap s !!! i)).
  { intros i; specialize (Hdata i); unfold data in *. case_decide; by simplify_eq. }
  clear Hdata.
  destruct HI.
  constructor; rewrite ?F1, ?F2, ?F3, ?F4, ?F5, ?F6, ?F7, ?F8, ?F9, ?F10, ?F11, ?F12;
    simpl; try done; try lia.
  - by rewrite Hheap.
  - unfold nSubmitted in *; simpl; lia.
  - split_and!; auto; unfold nSubmitted in *; f_equal; lia.
  - intros k τ Hk; rewrite Hexp, decide_False; [by apply inv_times0 |].
    apply lookup_lt_Some in Hk; unfold nStarted in *; lia.
  - intros i Hi; rewrite Hexp, decide_False by lia; auto.
  - intros i i' Hi Hi'; rewrite !Hexp, !decide_False by lia; auto.
  - intros i Hi; rewrite Hexp, decide_False by lia; auto.
  - intros i Hi; rewrite Hexp; case_decide; [done|]; apply inv_exp_queued0; lia.
  - intros i; destruct (decide (S n = i)) as [<-|Hne]; [split; [done|lia]|].
    rewrite inv_absent0; lia.
  - intros i; destruct (decide (S n = i)) as [<-|Hne]; [split; [lia|done]|].
    rewrite inv_queued0; lia.
  - intros i; destruct (decide (S n = i)) as [<-|Hne]; [|done].
    split; [done|]. intros Hx. apply inv_running0 in Hx. congruence.
  - intros i o; destruct (decide (S n = i)) as [<-|Hne]; [done|]. apply inv_finishing0.
  - intros i o; destruct (decide (S n = i)) as [<-|Hne]; [|done].
    split; [done|]. intros Hx. apply inv_cleaned0 in Hx. congruence.
  - intros i; rewrite Hwc, inv_whenComplete0.
    by destruct (decide (S n = i)) as [<-|Hne].
  - intros i e; rewrite Hsw; destruct (decide (S n = i)) as [<-|Hne]; [done|apply inv_throws0].
  - rewrite F13. split; [done|lia].
  - rewrite F13, F14. intros q [= <-]. rewrite Drained_emit by done.
    destruct (whenQuiescent s) as [p|] eqn:HwQ; simpl.
    + by apply inv_drain_pending0.
    + split; [lia|]. intros Hx%inv_drain_bound0. lia.
  - rewrite F13, F14. intros q Hq Hne. rewrite Drained_emit by done.
    destruct (whenQuiescent s) as [p|] eqn:HwQ; simpl in *.
    + apply inv_drain_resolved0; [done|congruence].
    + apply inv_drain_resolved0; [|done].
      destruct (decide (q = nextPromise s)) as [->|]; [done|lia].
  - rewrite F14. intros q. rewrite Drained_emit by done. intros Hx%inv_drain_bound0.
    destruct (whenQuiescent s); lia.
  - intros t Ht. right. auto.
Qed.

Lemma sched_ext (s s' : State) :
  (∀ i, next (heap s' !!! i) = next (heap s !!! i)) →
  readyWorkPredecessor s' = readyWorkPredecessor s →
  outstandingCount s' = outstandingCount s →
  maxOutstanding s' = maxOutstanding s →
  qpsCount s' = qpsCount s →
  maxQps s' = maxQps s →
  expiringWorkTimer s' = expiringWorkTimer s →
  (TimerOK s → TimerOK s') ∧ (Exit s → Exit s').
Proof.
  intros Hn Hr Ho Hmo Hq Hmq Ht.
  pose proof (hasReadyWork_ext s s' Hn Hr) as Hready.
  unfold TimerOK, Exit, timerCond, canExecuteWork, atMaxQps, atMaxOutstanding.
  by rewrite Hready, Ho, Hmo, Hq, Hmq, Ht.
Qed.

Lemma StableAt_Stable fresh s : StableAt fresh s → Stable s.
Proof.
  intros (j & m & n & HI & HT & HE & _). exists j, m, n. by split_and!.
Qed.

Lemma constructor_Stable (o : AsyncThrottleOptions) :
  valid_options o → Stable (constructor o).
Proof.
  intros Hv. exists 0%nat, 0%nat, 0%nat. split; [by apply constructor_Inv|].
  split_and!; try done. unfold TimerOK. simpl. split; [by intros [? ?]|done].
Qed.

Lemma callThrottled_Stable_at s now b :
  Stable s → clock s ≤ now →
  ∃ s', callThrottled now b (set_clock now s) = Some s' ∧ StableAt true s' ∧
        clock s' = now.
Proof.
  intros (j & m & n & HI & _ & _ & _) Hc.
  pose proof (set_clock_Inv _ _ _ _ _ _ now HI Hc) as HI1.
  pose proof (enqueued_Inv _ _ _ _ _ now b HI1) as HI2.
  destruct (enqueued_frame (set_clock now s) now b) as (Hc2 & Hn2 & _).
  pose proof (inv_order _ _ _ _ _ _ HI2) as Hord.
  change (callThrottled now b (set_clock now s))
    with (processWork (nextWork (enqueued now b (set_clock now s))) now
            (enqueued now b (set_clock now s))).
  destruct (processWork_PassOK now (S n)
              (nextWork (enqueued now b (set_clock now s))) _ _ _ _ HI2)
    as (s' & j' & m' & E & _ & _ & HI' & HF' & Hc' & HT & HE).
  - done.
  - rewrite (inv_nextWork _ _ _ _ _ _ HI2). lia.
  - exists s'. split; [done|]. split; [|done].
    exists j', m', (S n). split_and!; try done.
    intros _. by rewrite Hc'.
Qed.

Lemma callThrottled_Stable s now b :
  Stable s → clock s ≤ now →
  ∃ s', callThrottled now b (set_clock now s) = Some s' ∧ StableAt true s'.
Proof.
  intros HS Hc. destruct (callThrottled_Stable_at s now b HS Hc) as (s' & E & H & _).
  by exists s'.
Qed.

Lemma settleWork_Stable s now id o :
  Stable s → clock s ≤ now → id ∈ reactions s →
  ∃ s', settleWork (nextWork s) now id o (set_clock now s) = Some s' ∧ Stable s'.
Proof.
  intros (j & m & n & HI & HT & HE & _) Hc Hin.
  pose proof (set_clock_Inv _ _ _ _ _ _ now HI Hc) as HI1.
  pose proof (produced_Inv _ _ _ _ _ id o HI1 Hin) as HI2.
  pose proof (inv_order _ _ _ _ _ _ HI) as Hord.
  pose proof (inv_nextWork _ _ _ _ _ _ HI) as Hnw.
  unfold settleWork, settleWorkWith. cbv zeta.
  destruct (cleanup_Inv (processWork (nextWork s) now) now (nextWork s)
              [] j m n _ id o (processWork_PassOK _ _ _) ltac:(lia) HI2 eq_refl)
    as (s1 & j1 & m1 & E & _ & _ & HI3 & _ & _ & HTE).
  simpl in E. simpl. rewrite E. simpl.
  destruct (settle_Inv _ _ _ _ _ _ _ HI3) as (HI4 & F1 & F2 & F3 & F4 & F5 & F6 & F7 & F8 & F9).
  destruct HTE as [HT1 HE1]; [done|done|].
  destruct (sched_ext s1 (settle id o s1)) as [HT2 HE2]; auto.
  eexists. split; [done|]. exists j1, m1, n. split_and!; auto. done.
Qed.

Lemma timerFires_Stable s now h :
  Stable s → clock s ≤ now →
  existsb (λ t, (handle t =? h)%nat && (armedAt t + delay t <=? now)) (timers s) = true →
  ∃ s', timerFires (nextWork s) now h (set_clock now s) = Some s' ∧ StableAt true s'.
Proof.
  intros (j & m & n & HI & HT & HE & _) Hc Hen.
  pose proof (set_clock_Inv _ _ _ _ _ _ now HI Hc) as HI1.
  pose proof (inv_order _ _ _ _ _ _ HI) as Hord.
  assert (HI2 : Inv None [] j m n
            (set_expiringWorkTimer None
               (set_timers (filter (λ t, handle t ≠ h)) (set_clock now s)))).
  { pose proof (inv_timer _ _ _ _ _ _ HI) as Htm.
    destruct HI1. constructor; simpl; try done.
    - destruct (expiringWorkTimer s) as [h'|].
      + destruct Htm as (t & Ht & Hh). rewrite Ht in *. simpl in Hen.
        rewrite orb_false_r in Hen. apply andb_true_iff in Hen as [Hh' _].
        apply Nat.eqb_eq in Hh'.
        rewrite filter_cons, filter_nil. by case_decide.
      + by rewrite Htm in Hen.
    - intros t [_ Hin]%list_elem_of_filter. auto. }
  unfold timerFires. cbv zeta.
  destruct (processWork_PassOK now n (nextWork s) _ _ _ _ HI2)
    as (s' & j' & m' & E & _ & _ & HI' & HF' & Hc' & HT' & HE').
  - done.
  - rewrite (inv_nextWork _ _ _ _ _ _ HI). lia.
  - exists s'. split; [done|]. exists j', m', n. split_and!; try done.
    intros _. by rewrite Hc'.
Qed.

Lemma handleEvent_Stable s ev :
  Stable s → enabled ev s = true →
  ∃ s', handleEvent ev s = Some s' ∧ StableAt (isPass ev) s'.
Proof.
  intros HS Hen. unfold enabled in Hen.
  apply andb_true_iff in Hen as [Hc Hen]. apply Z.leb_le in Hc.
  destruct ev as [now b|now id o|now h]; simpl in *.
  - by apply callThrottled_Stable.
  - apply bool_decide_eq_true in Hen. by apply settleWork_Stable.
  - by apply timerFires_Stable.
Qed.

Lemma run_Stable evs : ∀ s s',
  Stable s → run evs s = Some s' → Stable s'.
Proof.
  induction evs as [|ev evs IH]; intros s s' HS Hrun; simpl in Hrun.
  - by simplify_eq.
  - unfold step in Hrun. destruct (enabled ev s) eqn:Hen; [|done].
    destruct (handleEvent_Stable s ev HS Hen) as (s1 & E & HS1).
    rewrite E in Hrun. simpl in Hrun. apply StableAt_Stable in HS1. eauto.
Qed.

(** ** What a well-formed history says *)

Lemma Hist_suffix kO kQ (l1 l2 : list Effect) :
  Hist kO kQ (l1 ++ l2) → Hist kO kQ l2.
Proof. induction l1 as [|e l1 IH]; simpl; [done|]. intros [_ H]. auto. Qed.

Lemma Prompt_suffix (l1 l2 : list Effect) :
  Prompt (l1 ++ l2) → Prompt l2.
Proof. induction l1 as [|e l1 IH]; simpl; [done|]. intros [_ H]. auto. Qed.

Lemma Hist_balance kO kQ (l : list Effect) :
  0 ≤ kO → Hist kO kQ l → 0 ≤ balance l ≤ kO.
Proof.
  intros Hk. induction l as [|e l IH]; simpl; [lia|].
  intros [He Hl]. specialize (IH Hl).
  destruct e; simpl in *; lia.
Qed.

(** Items are numbered in submission order and start in that order: in a
    well-formed history the started items are exactly the first
    [nStarted l] of the [nSubmitted l] submitted ones. *)
Lemma Hist_range kO kQ (l : list Effect) :
  Hist kO kQ l →
  (nStarted l ≤ nSubmitted l)%nat ∧
  ∀ id, (status l id = Absent ↔ (id = 0 ∨ nSubmitted l < id)%nat) ∧
        (status l id = Queued ↔ (nStarted l < id ≤ nSubmitted l)%nat).
Proof.
  induction l as [|e l IH]; simpl.
  - intros _. split; [done|]. intros id. unfold nStarted, nSubmitted. simpl.
    split; split; try done; lia.
  - intros [He Hl]. destruct (IH Hl) as [Hle Hst]. clear IH.
    destruct e; simpl in *; unfold nStarted, nSubmitted in *; simpl in *; try done.
    + destruct He as [-> HeA]. split; [lia|]. intros i.
      destruct (Hst i) as [HA HQ].
      destruct (decide (S (length (submissions l)) = i)) as [<-|Hne].
      * split; split; try done; lia.
      * rewrite HA, HQ. lia.
    + destruct He as (-> & HeQ & _).
      apply Hst in HeQ. split; [lia|]. intros i.
      destruct (Hst i) as [HA HQ].
      destruct (decide (S (length (starts l)) = i)) as [<-|Hne].
      * split; split; try done; lia.
      * rewrite HA, HQ. lia.
    + split; [done|]. intros i. destruct (Hst i) as [HA HQ].
      destruct (decide (id = i)) as [<-|Hne]; [|done].
      rewrite He in HA, HQ. split; split; try done; intros Hx; [apply HA in Hx|apply HQ in Hx]; done.
    + split; [done|]. intros i. destruct (Hst i) as [HA HQ].
      destruct (decide (id = i)) as [<-|Hne]; [|done].
      destruct He as [(o & He & _) _]. rewrite He in *.
      split; split; try done; intros Hx; [apply HA in Hx|apply HQ in Hx]; done.
    + split; [done|]. intros i. destruct (Hst i) as [HA HQ].
      destruct (decide (id = i)) as [<-|Hne]; [|done].
      rewrite He in HA, HQ. split; split; try done; intros Hx; [apply HA in Hx|apply HQ in Hx]; done.
Qed.

Lemma filter_ext_in {A} (P Q : A → Prop) `{∀ x, Decision (P x)} `{∀ x, Decision (Q x)}
    (l : list A) :
  (∀ x, x ∈ l → (P x ↔ Q x)) → filter P l = filter Q l.
Proof.
  induction l as [|x l IH]; intros Hl; [done|].
  rewrite !filter_cons.
  rewrite IH by (intros y Hy; apply Hl; by right).
  destruct (Hl x ltac:(by left)) as [H1 H2].
  repeat case_decide; try done; tauto.
Qed.

Lemma filter_flip {A} `{EqDecision A} (P Q : A → Prop)
    `{∀ x, Decision (P x)} `{∀ x, Decision (Q x)} (l : list A) (a : A) :
  NoDup l → a ∈ l → ¬ P a → Q a → (∀ x, x ≠ a → (P x ↔ Q x)) →
  length (filter Q l) = S (length (filter P l)).
Proof.
  intros Hnd Ha HP HQ Hext.
  induction Hnd as [|x l Hx Hnd IH]; [by apply elem_of_nil in Ha|].
  rewrite !filter_cons.
  destruct (decide (x = a)) as [->|Hne].
  - rewrite decide_True by done. rewrite decide_False by done. simpl. f_equal.
    f_equal. symmetry. apply filter_ext_in. intros y Hy. apply Hext.
    intros ->. done.
  - apply elem_of_cons in Ha as [->|Ha]; [done|].
    specialize (IH Ha). destruct (Hext x Hne) as [H1 H2].
    repeat case_decide; simpl; try lia; tauto.
Qed.

Lemma filter_length_mono {A} (P Q : A → Prop) `{∀ x, Decision (P x)} `{∀ x, Decision (Q x)}
    (l : list A) :
  (∀ x, x ∈ l → P x → Q x) → (length (filter P l) ≤ length (filter Q l))%nat.
Proof.
  induction l as [|x l IH]; intros Hl; [done|].
  rewrite !filter_cons.
  assert (IH' := IH ltac:(intros y Hy; apply Hl; by right)).
  pose proof (Hl x ltac:(by left)).
  repeat case_decide; simpl; try lia. tauto.
Qed.

Lemma filter_all {A} (P : A → Prop) `{∀ x, Decision (P x)} (l : list A) :
  (∀ x, x ∈ l → P x) → filter P l = l.
Proof.
  induction l as [|x l IH]; intros Hl; [done|].
  rewrite filter_cons_True by (apply Hl; by left).
  f_equal. apply IH. intros y Hy. apply Hl. by right.
Qed.

(** The number of started-but-not-completed items is the balance of starts
    and completions. *)
Lemma Hist_outstanding kO kQ (l : list Effect) :
  Hist kO kQ l → Z.of_nat (length (outstandingItems l)) = balance l.
Proof.
  induction l as [|e l IH]; [done|].
  intros HH. pose proof HH as [He Hl]. specialize (IH Hl).
  destruct (Hist_range _ _ _ Hl) as [Hle Hst].
  unfold outstandingItems in *. unfold nStarted, nSubmitted in *.
  assert (Hsame : ∀ (st : nat → Status),
            (∀ i, isOutstanding (st i) = isOutstanding (status l i)) →
            filter (λ id, isOutstanding (st id) = true) (seq 1 (length (submissions l)))
            = filter (λ id, isOutstanding (status l id) = true)
                (seq 1 (length (submissions l)))).
  { intros st Hs. apply filter_ext_in. intros i _. by rewrite Hs. }
  destruct e; simpl in *; unfold nStarted, nSubmitted in *; simpl in *.
  - destruct He as [-> HeA].
    replace (1%nat :: seq 2 (length (submissions l)))
      with (seq 1 (S (length (submissions l)))) by done.
    rewrite seq_S, filter_app. simpl.
    rewrite filter_cons_False, filter_nil, app_nil_r.
    2:{ rewrite decide_True by done. done. }
    rewrite <- IH. f_equal. f_equal. apply filter_ext_in.
    intros i Hi. apply elem_of_seq in Hi. rewrite decide_False by lia. done.
  - destruct He as (-> & HeQ & _).
    pose proof HeQ as HeQ'. apply Hst in HeQ'.
    rewrite <- IH.
    rewrite (filter_flip (λ id, isOutstanding (status l id) = true) _ _
               (S (length (starts l)))); [lia|..].
    + apply NoDup_seq.
    + apply elem_of_seq. lia.
    + by rewrite HeQ.
    + by rewrite decide_True.
    + intros i Hi. by rewrite decide_False.
  - rewrite <- IH. f_equal. f_equal. apply Hsame. intros i.
    destruct (decide (id = i)) as [<-|]; [by rewrite He|done].
  - destruct He as [(o & He & _) Hpos].
    assert (Hin : (1 ≤ id ≤ length (submissions l))%nat).
    { destruct (Hst id) as [HA _]. rewrite He in HA.
      destruct (decide (id = 0 ∨ length (submissions l) < id)%nat) as [Hx|]; [|lia].
      by apply HA in Hx. }
    pose proof (filter_flip
      (λ i, isOutstanding (if decide (id = i)
                           then match status l i with Finishing o0 => Cleaned o0 | st => st end
                           else status l i) = true)
      (λ i, isOutstanding (status l i) = true)
      (seq 1 (length (submissions l))) id) as Hf.
    rewrite Hf in IH; [lia|..].
    + apply NoDup_seq.
    + apply elem_of_seq. lia.
    + rewrite decide_True by done. by rewrite He.
    + by rewrite He.
    + intros i Hi. by rewrite decide_False.
  - rewrite <- IH. f_equal. f_equal. apply Hsame. intros i.
    destruct (decide (id = i)) as [<-|]; [by rewrite He|done].
  - done.
  - done.
  - done.
Qed.

Lemma Hist_queued kO kQ (l : list Effect) :
  Hist kO kQ l →
  queuedItems l = seq (S (nStarted l)) (nSubmitted l - nStarted l).
Proof.
  intros HH. destruct (Hist_range _ _ _ HH) as [Hle Hst].
  unfold queuedItems.
  replace (nSubmitted l) with (nStarted l + (nSubmitted l - nStarted l))%nat at 1 by lia.
  rewrite seq_app, filter_app.
  rewrite filter_none, filter_all; [done|..].
  - intros i Hi. apply elem_of_seq in Hi. apply Hst. lia.
  - intros i Hi. apply elem_of_seq in Hi. intros HQ%Hst. lia.
Qed.

(** The rolling window: no more than [kQ] starts in any interval
    (t - 1000, t]. *)
Lemma Hist_window kO kQ (l : list Effect) :
  0 ≤ kQ → Hist kO kQ l → ∀ t, window t l ≤ kQ.
Proof.
  intros Hk. induction l as [|e l IH]; intros HH t.
  - unfold window. simpl. lia.
  - destruct HH as [He Hl]. specialize (IH Hl).
    destruct e; try (exact (IH t)).
    destruct He as (_ & _ & _ & Hw & Hmono).
    unfold window in *. simpl. rewrite filter_cons.
    case_decide as Hin; [|apply IH].
    simpl.
    pose proof (filter_length_mono
      (λ τ, t - 1000 < τ ∧ τ ≤ t) (λ τ, t0 - 1000 < τ ∧ τ ≤ t0) (starts l)) as Hm.
    rewrite Nat2Z.inj_succ.
    assert (Hle := Hm ltac:(intros τ Hτ [H1 H2]; specialize (Hmono τ Hτ); simpl; lia)).
    lia.
Qed.

Lemma Frame_refl s : Frame 0 s s.
Proof.
  split_and!; try done; try lia; [by exists []|by left].
Qed.

Lemma Frame_trans d1 d2 s1 s2 s3 :
  Frame d1 s1 s2 → Frame d2 s2 s3 → Frame (d1 + d2) s1 s3.
Proof.
  intros (A1 & A2 & [l1 A3] & A4 & A5) (B1 & B2 & [l2 B3] & B4 & B5).
  split_and!; try congruence; try lia.
  - exists (l2 ++ l1). by rewrite B3, A3, app_assoc.
  - intros i. destruct (A5 i) as [Ha|Ha]; [|right; lia].
    destruct (B5 i) as [Hb|Hb]; [left; congruence|].
    right. lia.
Qed.

Lemma Frame_trans0 s1 s2 s3 :
  Frame 0 s1 s2 → Frame 0 s2 s3 → Frame 0 s1 s3.
Proof. apply (Frame_trans 0 0). Qed.

Lemma Frame_same s s' :
  maxOutstanding s' = maxOutstanding s →
  maxQps s' = maxQps s →
  (∃ l, log s' = l ++ log s) →
  nextWork s' = nextWork s →
  (∀ i, startWork (heap s' !!! i) = startWork (heap s !!! i)) →
  Frame 0 s s'.
Proof. intros ? ? ? Hn ?. split_and!; auto. lia. Qed.

Lemma purgeStep_Frame s : Frame 0 s (purgeStep s).
Proof.
  unfold purgeStep. cbv zeta.
  case_match; apply Frame_same; simpl; try done; try (by exists []).
  all: intros i; by rewrite startWork_remove.
Qed.

Lemma purgeExpiredWork_Frame fuel now : ∀ s s',
  purgeExpiredWork fuel now s = Some s' → Frame 0 s s'.
Proof.
  induction fuel as [|fuel IH]; intros s s' E; [done|].
  simpl in E. fold (purgeStep s) in E.
  destruct (hasExpiredWork now s).
  - eapply Frame_trans0; [apply purgeStep_Frame|by apply IH].
  - injection E as <-. apply Frame_refl.
Qed.

Lemma updateTimer_Frame now s : Frame 0 s (updateTimer now s).
Proof.
  unfold updateTimer.
  repeat case_match; try apply Frame_refl.
  all: apply Frame_same; simpl; try done; by eexists [_].
Qed.

Lemma settle_Frame id o s : Frame 0 s (settle id o s).
Proof.
  unfold settle. simpl.
  case_match; apply Frame_same; simpl; try done; try (by eexists [_]).
  intros i. by rewrite startWork_write_future.
Qed.

Lemma drainCheck_Frame id s : Frame 0 s (drainCheck id s).1.
Proof.
  unfold drainCheck, callOnLastWorkItemDrained. cbv zeta.
  repeat case_match; simpl; apply Frame_same; simpl; try done.
  all: try (by eexists [_]).
  by eexists [_; _].
Qed.

Lemma cleanup_Frame (PW : State → option State) id s s' c :
  (∀ s1 s2, PW s1 = Some s2 → Frame 0 s1 s2) →
  cleanup PW id s = Some (s', c) → Frame 0 s s'.
Proof.
  intros HPW. rewrite cleanup_unfold.
  pose proof (drainCheck_Frame id s) as HF.
  destruct (drainCheck id s) as [s1 c1]. simpl in HF.
  destruct c1.
  - destruct (atMaxOutstanding s).
    + destruct (PW s1) as [s2|] eqn:E; simpl; [|done].
      intros [= <- <-]. eapply Frame_trans0; [done|]. by apply HPW.
    + by intros [= <- <-].
  - by intros [= <- <-].
Qed.

Lemma processWorkWith_Frame (ERW : State → option State) now s s' :
  (∀ s1 s2, ERW s1 = Some s2 → Frame 0 s1 s2) →
  processWorkWith ERW now s = Some s' → Frame 0 s s'.
Proof.
  intros HE. unfold processWorkWith.
  destruct (purgeExpiredWork _ _ _) as [s1|] eqn:E1; simpl; [|done].
  destruct (ERW s1) as [s2|] eqn:E2; simpl; [|done].
  intros [= <-].
  eapply Frame_trans0; [by eapply purgeExpiredWork_Frame|].
  eapply Frame_trans0; [by apply HE|]. apply updateTimer_Frame.
Qed.

Lemma startedState_Frame now s : Frame 0 s (startedState now s).
Proof.
  unfold startedState. cbv zeta. apply Frame_same; simpl; try done.
  - by eexists [_].
  - intros i. by rewrite startWork_write_time.
Qed.

Lemma executeReadyWork_Frame now fuel : ∀ s s',
  executeReadyWork fuel now s = Some s' → Frame 0 s s'.
Proof.
  induction fuel as [|fuel IH]; intros s s' E; [done|].
  rewrite executeReadyWork_unfold in E.
  destruct (hasReadyWork s && canExecuteWork s); [|injection E as <-; apply Frame_refl].
  cbv zeta in E.
  pose proof (startedState_Frame now s) as HS.
  destruct (startWork _) as [e|].
  - destruct (cleanup _ _ _) as [[s1 c]|] eqn:Ec; [|done].
    assert (HF1 : Frame 0 s s1).
    { eapply Frame_trans0; [apply HS|].
      eapply Frame_trans0; [|eapply cleanup_Frame; [|exact Ec]].
      - apply Frame_same; simpl; try done. by eexists [_].
      - intros s2 s3. apply processWorkWith_Frame. apply IH. }
    destruct c.
    + eapply Frame_trans0; [|by apply IH].
      eapply Frame_trans0; [done|]. apply settle_Frame.
    + eapply Frame_trans0; [done|]. by apply IH.
  - eapply Frame_trans0; [|by apply IH].
    eapply Frame_trans0; [done|]. apply Frame_same; simpl; try done. by exists [].
Qed.

Lemma processWork_Frame fuel now s s' :
  processWork fuel now s = Some s' → Frame 0 s s'.
Proof. apply processWorkWith_Frame, executeReadyWork_Frame. Qed.

Lemma enqueued_Frame now b s : Frame 1 s (enqueued now b s).
Proof.
  destruct (enqueued_frame s now b) as (_ & Hn & _).
  split_and!.
  - unfold enqueued, onWorkItemEnqueued. cbv zeta. by case_match.
  - unfold enqueued, onWorkItemEnqueued. cbv zeta. by case_match.
  - unfold enqueued, onWorkItemEnqueued. cbv zeta. case_match; simpl; by eexists [_].
  - lia.
  - intros i. destruct (decide (i = nextWork s)) as [->|Hne]; [right; lia|left].
    assert (Hh : heap (enqueued now b s) =
                 insertAfter (nextWork s)
                   (prev (<[nextWork s := mkWork b None 0 (nextWork s) (nextWork s)]> (heap s) !!! workList))
                   (<[nextWork s := mkWork b None 0 (nextWork s) (nextWork s)]> (heap s))).
    { unfold enqueued, onWorkItemEnqueued. cbv zeta. by case_match. }
    rewrite Hh.
    pose proof (insertAfter_data (nextWork s)
      (prev (<[nextWork s := mkWork b None 0 (nextWork s) (nextWork s)]> (heap s) !!! workList))
      i (<[nextWork s := mkWork b None 0 (nextWork s) (nextWork s)]> (heap s))) as Hd.
    rewrite (lookup_total_insert_ne _ (nextWork s) i) in Hd by congruence.
    unfold data in Hd. by simplify_eq.
Qed.

Lemma handleEvent_Frame ev s s' :
  handleEvent ev s = Some s' → Frame (length (submitted [ev])) s s'.
Proof.
  unfold handleEvent. cbv zeta.
  assert (HC : Frame 0 s (set_clock (time_of ev) s)).
  { apply Frame_same; simpl; try done. by exists []. }
  destruct ev as [now b|now id o|now h]; intros E; simpl.
  - apply (Frame_trans 0 1 _ (set_clock now s)); [exact HC|].
    apply (Frame_trans 1 0 _ (enqueued now b (set_clock now s)));
      [apply (enqueued_Frame now b)|].
    by eapply processWork_Frame.
  - unfold settleWork, settleWorkWith in E. cbv zeta in E.
    destruct (cleanup _ _ _) as [[s1 c]|] eqn:Ec; simpl in E; [|done].
    injection E as <-.
    eapply Frame_trans0; [exact HC|].
    eapply Frame_trans0; [|apply settle_Frame].
    eapply Frame_trans0; [|eapply cleanup_Frame; [|exact Ec]].
    + apply Frame_same; simpl; try done. by eexists [_].
    + intros s2 s3. apply processWork_Frame.
  - eapply Frame_trans0; [exact HC|].
    eapply Frame_trans0; [|by eapply processWork_Frame].
    apply Frame_same; simpl; try done. by exists [].
Qed.

Lemma run_Frame evs : ∀ s s',
  run evs s = Some s' → Frame (length (submitted evs)) s s'.
Proof.
  induction evs as [|ev evs IH]; intros s s' E; simpl in E.
  - injection E as <-. apply Frame_refl.
  - unfold step in E. destruct (enabled ev s); [|done].
    destruct (handleEvent ev s) as [s1|] eqn:E1; [|done]. simpl in E.
    replace (length (submitted (ev :: evs)))
      with (length (submitted [ev]) + length (submitted evs))%nat.
    + eapply Frame_trans; [by eapply handleEvent_Frame|by apply IH].
    + unfold submitted. simpl. by destruct ev.
Qed.

(** The function stored for the [i]-th submission is the one submitted. *)
Lemma run_submitted evs : ∀ s s' i b,
  run evs s = Some s' → submitted evs !! i = Some b →
  startWork (heap s' !!! (nextWork s + i)%nat) = b.
Proof.
  induction evs as [|ev evs IH]; intros s s' i b E Hi; [done|].
  simpl in E. unfold step in E. destruct (enabled ev s); [|done].
  destruct (handleEvent ev s) as [s1|] eqn:E1; [|done]. simpl in E.
  pose proof (handleEvent_Frame _ _ _ E1) as (_ & _ & _ & Hn1 & _).
  destruct ev as [now b0|now id o|now h]; simpl in *.
  - destruct i as [|i]; simpl in Hi.
    + injection Hi as ->.
      pose proof (run_Frame _ _ _ E) as (_ & _ & _ & _ & Hsw).
      destruct (Hsw (nextWork s + 0)%nat) as [->|?]; [|exfalso; lia].
      unfold handleEvent in E1. cbv zeta in E1.
      change (callThrottled now b (set_clock now s))
        with (processWork (nextWork (enqueued now b (set_clock now s))) now
                (enqueued now b (set_clock now s))) in E1.
      pose proof (processWork_Frame _ _ _ _ E1) as (_ & _ & _ & _ & Hsw1).
      destruct (enqueued_frame (set_clock now s) now b) as (_ & Hn & Hb).
      destruct (Hsw1 (nextWork s + 0)%nat) as [->|Hx].
      * rewrite Nat.add_0_r. exact Hb.
      * rewrite Hn in Hx. simpl in Hx. exfalso. lia.
    + replace (nextWork s + S i)%nat with (nextWork s1 + i)%nat by lia. eauto.
  - replace (nextWork s + i)%nat with (nextWork s1 + i)%nat by lia. eauto.
  - replace (nextWork s + i)%nat with (nextWork s1 + i)%nat by lia. eauto.
Qed.

Lemma ring_ListOK (h : gmap nat Work) (j n : nat) (fuel : nat) : ∀ i,
  ListOK h j n → (j < i ≤ n)%nat → (n - i < fuel)%nat →
  ring h fuel i = seq i (S n - i).
Proof.
  induction fuel as [|fuel IH]; intros i HL Hi Hf; [lia|].
  simpl. destruct (Nat.eqb_spec i workList) as [->|Hne]; [unfold workList in *; lia|].
  destruct (HL i ltac:(lia)) as [Hn _]. rewrite Hn.
  replace (S n - i)%nat with (S (n - i)) by lia. simpl. f_equal.
  unfold nxt. rewrite (proj2 (Nat.eqb_neq i 0)) by (unfold workList in Hne; lia).
  destruct (Nat.ltb_spec i n).
  - rewrite IH by (try done; lia). done.
  - replace (n - i)%nat with 0%nat by lia. simpl. by destruct fuel.
Qed.

Lemma workItems_spec cur stack j m n s :
  Inv cur stack j m n s → workItems s = seq (S j) (n - j).
Proof.
  intros HI. unfold workItems.
  rewrite (first_spec _ _ _ _ _ _ HI), (inv_nextWork _ _ _ _ _ _ HI).
  pose proof (inv_order _ _ _ _ _ _ HI) as Ho.
  destruct (Nat.ltb_spec j n).
  - by rewrite (ring_ListOK _ j n) by (try apply (inv_list _ _ _ _ _ _ HI); lia).
  - replace (n - j)%nat with 0%nat by lia. done.
Qed.

Lemma Hist_started_pos kO kQ (l : list Effect) (id : nat) (t : Z) :
  Hist kO kQ l → Started id t ∈ l →
  (1 ≤ id ≤ nStarted l)%nat ∧ starts l !! (nStarted l - id)%nat = Some t.
Proof.
  induction l as [|e l IH]; intros HH Hin; [by apply elem_of_nil in Hin|].
  destruct HH as [He Hl].
  apply elem_of_cons in Hin as [<-|Hin].
  - destruct He as (-> & _). unfold nStarted. simpl.
    split; [lia|]. by rewrite Nat.sub_diag.
  - destruct (IH Hl Hin) as [Hr Hp].
    destruct e; try done.
    unfold nStarted in *. simpl.
    split; [lia|].
    replace (S (length (starts l)) - id)%nat with (S (length (starts l) - id)) by lia.
    done.
Qed.

Lemma started_exp cur stack j m n s id t :
  Inv cur stack j m n s → Started id t ∈ log s →
  (1 ≤ id ≤ m)%nat ∧ exp (heap s) id = t + 1000.
Proof.
  intros HI Hin.
  destruct (Hist_started_pos _ _ _ _ _ (inv_hist _ _ _ _ _ _ HI) Hin) as [Hr Hp].
  rewrite (inv_nStarted _ _ _ _ _ _ HI) in *.
  split; [done|].
  apply (inv_times _ _ _ _ _ _ HI) in Hp.
  by replace (m - (m - id))%nat with id in Hp by lia.
Qed.


Lemma Hist_idle kO kQ (l : list Effect) :
  Hist kO kQ l →
  idle l ↔ queuedItems l = [] ∧ outstandingItems l = [].
Proof.
  intros HH. unfold idle.
  rewrite (Hist_queued _ _ _ HH).
  pose proof (Hist_outstanding _ _ _ HH) as Hb.
  destruct (Hist_range _ _ _ HH) as [Hle _].
  split.
  - intros [H1 H2]. split.
    + rewrite H2, Nat.sub_diag. done.
    + apply nil_length_inv. lia.
  - intros [H1 H2]. rewrite H2 in Hb. simpl in Hb. split; [lia|].
    apply (f_equal length) in H1. rewrite length_seq in H1. simpl in H1. lia.
Qed.

(** The life of an item, read off the history: what was logged for it is
    determined by its status. *)
Lemma Hist_item kO kQ (l : list Effect) (id : nat) :
  Hist kO kQ l →
  settleCalls id l = (if status l id is Done _ then 1 else 0)%nat ∧
  (∀ o, Settled id o ∈ l ↔ status l id = Done o) ∧
  (∀ o, Produced id o ∈ l ↔
        status l id = Finishing o ∨ status l id = Cleaned o ∨ status l id = Done o) ∧
  (Completed id ∈ l ↔ ∃ o, status l id = Cleaned o ∨ status l id = Done o).
Proof.
  induction l as [|e l IH]; intros HH.
  - simpl. split; [done|]. split; [|split].
    + intros o. split; [by intros ?%elem_of_nil|done].
    + intros o. split; [by intros ?%elem_of_nil|]. by intros [?|[?|?]].
    + split; [by intros ?%elem_of_nil|]. by intros [o [?|?]].
  - destruct HH as [He Hl]. destruct (IH Hl) as (IH1 & IH2 & IH3 & IH4). clear IH.
    assert (Hmem : ∀ x : Effect, x ≠ e → (x ∈ e :: l ↔ x ∈ l)).
    { intros x Hx. rewrite elem_of_cons. naive_solver. }
    unfold settleCalls in *. rewrite filter_cons.
    destruct e as [i t|i t|i o'|i|i o'|p t|h t d|h]; simpl in *.
    all: try (rewrite decide_False by done; split; [done|]; split; [|split];
              [ intros o; by rewrite Hmem
              | intros o; by rewrite Hmem
              | by rewrite Hmem ]).
    + (* Submitted *)
      destruct (decide (i = id)) as [->|Hne].
      * destruct He as [_ HeA]. rewrite HeA in *.
        split; [done|]. split; [|split].
        -- intros o. rewrite Hmem, IH2 by done. done.
        -- intros o. rewrite Hmem, IH3 by done. naive_solver.
        -- rewrite Hmem, IH4 by done. naive_solver.
      * split; [done|]. split; [|split].
        -- intros o. by rewrite Hmem.
        -- intros o. by rewrite Hmem.
        -- by rewrite Hmem.
    + (* Started *)
      destruct (decide (i = id)) as [->|Hne].
      * destruct He as (_ & HeQ & _). rewrite HeQ in *.
        split; [done|]. split; [|split].
        -- intros o. rewrite Hmem, IH2 by done. done.
        -- intros o. rewrite Hmem, IH3 by done. naive_solver.
        -- rewrite Hmem, IH4 by done. naive_solver.
      * split; [done|]. split; [|split].
        -- intros o. by rewrite Hmem.
        -- intros o. by rewrite Hmem.
        -- by rewrite Hmem.
    + (* Produced *)
      destruct (decide (i = id)) as [->|Hne].
      * rewrite He in *.
        split; [done|]. split; [|split].
        -- intros o. rewrite Hmem, IH2 by done. done.
        -- intros o. rewrite elem_of_cons, IH3. naive_solver.
        -- rewrite Hmem, IH4 by done. naive_solver.
      * split; [done|]. split; [|split].
        -- intros o. by rewrite Hmem.
        -- intros o. rewrite Hmem; [done|]. intros [= ? ?]. done.
        -- by rewrite Hmem.
    + (* Completed *)
      destruct (decide (i = id)) as [->|Hne].
      * destruct He as [(o1 & He & _) _]. rewrite He in *.
        split; [done|]. split; [|split].
        -- intros o. rewrite Hmem, IH2 by done. done.
        -- intros o. rewrite Hmem, IH3 by done. naive_solver.
        -- split; [eauto|]. intros _. by left.
      * split; [done|]. split; [|split].
        -- intros o. by rewrite Hmem.
        -- intros o. by rewrite Hmem.
        -- rewrite Hmem; [done|]. intros [= ?]. done.
    + (* Settled *)
      destruct (decide (i = id)) as [->|Hne].
      * rewrite He in *. rewrite bool_decide_eq_true_2 by done.
        rewrite decide_True by done. simpl.
        split; [by rewrite IH1|]. split; [|split].
        -- intros o. rewrite elem_of_cons, IH2. naive_solver.
        -- intros o. rewrite Hmem, IH3 by done. naive_solver.
        -- rewrite Hmem, IH4 by done. naive_solver.
      * rewrite bool_decide_eq_false_2 by done. rewrite decide_False by done.
        split; [done|]. split; [|split].
        -- intros o. rewrite Hmem; [done|]. intros [= ? ?]. done.
        -- intros o. by rewrite Hmem.
        -- by rewrite Hmem.
    + split; [done|]; split; [|split];
        [ intros o; by rewrite Hmem | intros o; by rewrite Hmem | by rewrite Hmem ].
    + split; [done|]; split; [|split];
        [ intros o; by rewrite Hmem | intros o; by rewrite Hmem | by rewrite Hmem ].
    + split; [done|]; split; [|split];
        [ intros o; by rewrite Hmem | intros o; by rewrite Hmem | by rewrite Hmem ].
Qed.

Lemma Hist_started_status kO kQ (l : list Effect) (id : nat) (t : Z) :
  Hist kO kQ l → Started id t ∈ l →
  status l id ≠ Absent ∧ status l id ≠ Queued.
Proof.
  intros HH Hin.
  destruct (Hist_started_pos _ _ _ _ _ HH Hin) as [Hr _].
  destruct (Hist_range _ _ _ HH) as [Hle Hst].
  destruct (Hst id) as [HA HQ].
  split; intros Hx; [apply HA in Hx|apply HQ in Hx]; lia.
Qed.

(** Between two turns every item is queued, running, or done. *)
Lemma Stable_status s id :
  Stable s →
  status (log s) id = Absent ∨ status (log s) id = Queued ∨
  (status (log s) id = Running ∧ id ∈ reactions s) ∨
  ∃ o, status (log s) id = Done o ∧ whenComplete (heap s !!! id) = Some o.
Proof.
  intros (j & m & n & HI & _).
  pose proof (inv_whenComplete _ _ _ _ _ _ HI id) as Hw.
  destruct (status (log s) id) as [| | |o|o|o] eqn:Hst; eauto.
  - right; right; left. split; [done|]. by apply (inv_running _ _ _ _ _ _ HI).
  - by apply (inv_finishing _ _ _ _ _ _ HI) in Hst.
  - by apply (inv_cleaned _ _ _ _ _ _ HI), elem_of_nil in Hst.
  - right; right; right. by exists o.
Qed.

Lemma settleWork_produced fuel now id o s s' :
  settleWork fuel now id o s = Some s' → Produced id o ∈ log s'.
Proof.
  unfold settleWork, settleWorkWith. cbv zeta. intros E.
  destruct (cleanup _ _ _) as [[s1 c]|] eqn:Ec; simpl in E; [|done].
  injection E as <-.
  apply cleanup_Frame in Ec as (_ & _ & [l Hl] & _); [|intros s2 s3; apply processWork_Frame].
  pose proof (settle_Frame id (match c with Normal => o | Throw e => Rejected e end) s1)
    as (_ & _ & [l' Hl'] & _).
  rewrite Hl', Hl. simpl.
  apply elem_of_app. right. apply elem_of_app. right. by left.
Qed.

Lemma run_produced evs : ∀ s s' now id o,
  run evs s = Some s' → WorkSettles now id o ∈ evs → Produced id o ∈ log s'.
Proof.
  induction evs as [|ev evs IH]; intros s s' now id o E Hin;
    [by apply elem_of_nil in Hin|].
  simpl in E. unfold step in E. destruct (enabled ev s); [|done].
  destruct (handleEvent ev s) as [s1|] eqn:E1; [|done]. simpl in E.
  apply elem_of_cons in Hin as [<-|Hin]; [|by eapply IH].
  simpl in E1. apply settleWork_produced in E1.
  pose proof (run_Frame _ _ _ E) as (_ & _ & [l Hl] & _).
  rewrite Hl. apply elem_of_app. by right.
Qed.

(** ** Reachable states *)

Lemma run_reachable (o : AsyncThrottleOptions) (evs : list Event) (s : State) :
  valid_options o → run evs (constructor o) = Some s →
  Stable s ∧ Frame (length (submitted evs)) (constructor o) s.
Proof.
  intros Hv Hrun. split.
  - apply (run_Stable evs (constructor o) s); [by apply constructor_Stable|done].
  - by apply (run_Frame evs).
Qed.

(** The host can always take its step: the loops of the handlers finish
    within the fuel that [handleEvent] gives them. *)
Lemma step_total (o : AsyncThrottleOptions) (evs : list Event) (s : State) (ev : Event) :
  valid_options o → run evs (constructor o) = Some s →
  enabled ev s = true → ∃ s', step ev s = Some s'.
Proof.
  intros Hv Hrun Hen. destruct (run_reachable o evs s Hv Hrun) as [HS _].
  destruct (handleEvent_Stable s ev HS Hen) as (s' & E & _).
  exists s'. unfold step. by rewrite Hen.
Qed.

Lemma demo_options_valid : valid_options demo_options.
Proof. split; intros k [= <-]; lia. Qed.

(** ** A work function that throws *)

Lemma execute_registered cl now work s :
  startWork (heap s !!! work) = ReturnsPromise →
  execute cl now work s = Some (registered now work s).
Proof.
  intros Hs. unfold execute, registered. cbv zeta.
  replace (startWork (heap (emit (Started work now)
             (set_heap (write work (set_expirationTime (now + 1000))) s)) !!! work))
    with (startWork (heap s !!! work)); [by rewrite Hs|].
  simpl. unfold write. by rewrite lookup_total_insert_eq.
Qed.

Lemma cleanup_Normal PW id s s' c :
  is_Some (onLastWorkItemDrained s) →
  cleanup PW id s = Some (s', c) → c = Normal.
Proof.
  intros [p Hp]. rewrite cleanup_unfold. unfold drainCheck, callOnLastWorkItemDrained.
  cbv zeta. simpl. rewrite Hp.
  destruct (_ && _); simpl.
  - destruct (atMaxOutstanding s); [|by intros [= <- <-]].
    destruct (PW _); simpl; [by intros [= <- <-]|done].
  - destruct (atMaxOutstanding s); [|by intros [= <- <-]].
    destruct (PW _); simpl; [by intros [= <- <-]|done].
Qed.

Lemma unregister now work s :
  work ∉ reactions s →
  set_reactions (filter (λ i, i ≠ work)) (registered now work s) =
  emit (Started work now) (set_heap (write work (set_expirationTime (now + 1000))) s).
Proof.
  intros Hw. destruct s. unfold registered, set_reactions, emit, set_heap. simpl in *.
  f_equal. rewrite filter_cons_False by (intros H; by apply H).
  apply filter_all. intros x Hx ->. done.
Qed.

(** ** [callAllThrottled]: the closure and the throttle agree *)

Lemma AggOK_init (n : nat) :
  AggOK n [] (mkAggregate false (replicate n None) (Z.of_nat n) None).
Proof.
  constructor; simpl.
  - constructor.
  - by intros p ?%elem_of_nil.
  - by rewrite length_replicate.
  - intros i v. split; [|by intros ?%elem_of_nil].
    intros [H _]%lookup_replicate. done.
  - lia.
  - split; [done|]. by intros [? ?].
  - destruct (Z.eqb_spec (Z.of_nat n) 0), (Nat.ltb_spec 0 n); simpl; try done. lia.
Qed.

Lemma AggOK_length n d a : AggOK n d a → (length d ≤ n)%nat.
Proof.
  intros H. rewrite <- (length_fmap fst d).
  transitivity (length (seq 1 n)); [|by rewrite length_seq].
  apply submseteq_length, NoDup_submseteq; [apply (agg_nodup _ _ _ H)|].
  intros x Hx. apply list_elem_of_fmap in Hx as (p & -> & Hp).
  apply elem_of_seq. pose proof (agg_range _ _ _ H p Hp). lia.
Qed.

Lemma firstError_None d :
  firstError d = None ↔ length (filter (λ p, isFulfilled p.2 = true) d) = length d.
Proof.
  induction d as [|[id o] d IH]; [done|].
  pose proof (length_filter (λ p : nat * Outcome, isFulfilled p.2 = true) d) as Hle.
  destruct o as [v|e].
  - rewrite filter_cons_True by done. simpl.
    destruct (firstError d) eqn:E.
    + split; [done|]. intros [= Hl]. apply IH in Hl. done.
    + split; [|done]. intros _. f_equal. by apply IH.
  - rewrite filter_cons_False by (simpl; done). simpl.
    destruct (firstError d); split; try done; lia.
Qed.

Lemma pigeonhole (n : nat) (ids : list nat) :
  NoDup ids → (∀ x, x ∈ ids → (1 ≤ x ≤ n)%nat) → (length ids ≤ n)%nat.
Proof.
  intros Hnd Hr. transitivity (length (seq 1 n)); [|by rewrite length_seq].
  apply submseteq_length, NoDup_submseteq; [done|].
  intros x Hx. apply elem_of_seq. specialize (Hr x Hx). lia.
Qed.

Lemma firstError_cons p d :
  firstError (p :: d) =
  match firstError d with
  | Some e => Some e
  | None => match p.2 with Rejected e => Some e | Fulfilled _ => None end
  end.
Proof. simpl. by destruct (firstError d), p.2. Qed.

Lemma notify_AggOK n c p :
  AggOK n (notified c) (aggregate c) →
  p.1 ∉ (notified c).*1 → (1 ≤ p.1 ≤ n)%nat →
  AggOK n (notified (notify p c)) (aggregate (notify p c)).
Proof.
  intros H Hnew Hr. destruct c as [s a d], p as [id o]. simpl in *.
  pose proof (agg_nodup _ _ _ H) as Hnd.
  pose proof (agg_range _ _ _ H) as Hrg.
  pose proof (agg_length _ _ _ H) as Hlen.
  pose proof (agg_results _ _ _ H) as Hres.
  pose proof (agg_count _ _ _ H) as Hcnt.
  pose proof (agg_rejected _ _ _ H) as Hrej.
  pose proof (agg_promise _ _ _ H) as Hpr.
  pose proof (length_filter (λ p : nat * Outcome, isFulfilled p.2 = true) d) as Hle.
  pose proof (firstError_None d) as HfN.
  assert (Hpig : (S (length d) ≤ n)%nat).
  { rewrite <- (length_fmap fst d).
    apply (pigeonhole n (id :: d.*1)); [by constructor|].
    intros x [->|Hx]%elem_of_cons; [done|].
    apply list_elem_of_fmap in Hx as (q & -> & Hq). by apply Hrg. }
  assert (Hnd' : NoDup (id :: d.*1)) by (by constructor).
  assert (Hrg' : ∀ q, q ∈ (id, o) :: d → (1 ≤ q.1 ≤ n)%nat).
  { intros q [->|Hq]%elem_of_cons; [done|by apply Hrg]. }
  destruct o as [v|e]; simpl.
  - (* the reaction to a fulfilment *)
    assert (Hres' : ∀ i v', array_set (Nat.pred id) v (results a) !! i = Some (Some v') ↔
                            (S i, Fulfilled v') ∈ (id, Fulfilled v) :: d).
    { intros i v'. unfold array_set.
      rewrite (proj2 (Nat.ltb_lt _ _)) by lia.
      rewrite elem_of_cons, <- Hres.
      destruct (decide (i = Nat.pred id)) as [->|Hne].
      - rewrite list_lookup_insert_eq by lia.
        replace (S (Nat.pred id)) with id by lia. split.
        + intros [= ->]. by left.
        + intros [[= ->]|Hin]; [done|].
          exfalso. apply Hnew. apply Hres in Hin.
          apply list_elem_of_fmap. exists (S (Nat.pred id), Fulfilled v').
          split; [simpl; lia|done].
      - rewrite list_lookup_insert_ne by done. split; [by right|].
        intros [[= Hi _]|Hin]; [lia|done]. }
    assert (Hlen' : length (array_set (Nat.pred id) v (results a)) = n).
    { unfold array_set. rewrite (proj2 (Nat.ltb_lt _ _)) by lia.
      by rewrite length_insert. }
    assert (Hcnt' : outstandingResultCount a - 1 =
                    Z.of_nat n - Z.of_nat (length (filter (λ p : nat * Outcome,
                      isFulfilled p.2 = true) ((id, Fulfilled v) :: d)))).
    { rewrite filter_cons_True by done. simpl length. lia. }
    assert (Hfe : firstError ((id, Fulfilled v) :: d) = firstError d).
    { rewrite firstError_cons. simpl. by destruct (firstError d). }
    unfold onValue. simpl.
    destruct (Z.eqb_spec (outstandingResultCount a - 1) 0) as [H0|H0].
    + assert (HN : firstError d = None) by (apply HfN; lia).
      rewrite HN in Hpr.
      rewrite (proj2 (Z.eqb_neq (outstandingResultCount a) 0)) in Hpr by lia.
      simpl in Hpr. unfold resolve. simpl. rewrite Hpr.
      constructor; cbn [rejected results outstandingResultCount allPromise]; try done.
      * by rewrite Hfe.
      * rewrite Hfe, HN. rewrite H0. simpl.
        by rewrite (proj2 (Nat.ltb_lt 0 n)) by lia.
    + constructor; cbn [rejected results outstandingResultCount allPromise]; try done.
      * by rewrite Hfe.
      * rewrite Hfe, Hpr. destruct (firstError d) eqn:HE; [done|].
        rewrite (proj2 (Z.eqb_neq (outstandingResultCount a - 1) 0)) by done.
        rewrite (proj2 (Z.eqb_neq (outstandingResultCount a) 0)); [done|].
        lia.
  - (* the reaction to a rejection *)
    assert (Hres' : ∀ i v', results a !! i = Some (Some v') ↔
                            (S i, Fulfilled v') ∈ (id, Rejected e) :: d).
    { intros i v'. rewrite elem_of_cons, <- Hres. naive_solver. }
    assert (Hcnt' : outstandingResultCount a =
                    Z.of_nat n - Z.of_nat (length (filter (λ p : nat * Outcome,
                      isFulfilled p.2 = true) ((id, Rejected e) :: d)))).
    { by rewrite filter_cons_False by (simpl; done). }
    unfold onError. destruct (rejected a) eqn:Hr'.
    + destruct (proj1 Hrej eq_refl) as [e0 He0].
      assert (Hfe : firstError ((id, Rejected e) :: d) = Some e0).
      { by rewrite firstError_cons, He0. }
      constructor; cbn [rejected results outstandingResultCount allPromise];
        rewrite ?Hfe; try done.
      by rewrite Hpr, He0.
    + assert (HN : firstError d = None).
      { destruct (firstError d) eqn:HE; [|done].
        assert (false = true) by (apply Hrej; by eexists). done. }
      assert (Hfe : firstError ((id, Rejected e) :: d) = Some e).
      { by rewrite firstError_cons, HN. }
      rewrite HN in Hpr.
      rewrite (proj2 (Z.eqb_neq (outstandingResultCount a) 0)) in Hpr by lia.
      simpl in Hpr. unfold reject. simpl. rewrite Hpr.
      constructor; cbn [rejected results outstandingResultCount allPromise];
        rewrite ?Hfe; done.
Qed.

Lemma settleCalls_app id l1 l2 :
  settleCalls id (l1 ++ l2) = (settleCalls id l1 + settleCalls id l2)%nat.
Proof. unfold settleCalls. by rewrite filter_app, length_app. Qed.

Lemma settleCalls_pos id o l : Settled id o ∈ l → (1 ≤ settleCalls id l)%nat.
Proof.
  induction l as [|e l IH]; [by intros ?%elem_of_nil|].
  intros [<-|Hin]%elem_of_cons; unfold settleCalls in *.
  - rewrite filter_cons_True; [simpl; lia|]. simpl. by apply bool_decide_eq_true.
  - specialize (IH Hin).
    destruct (decide (isSettledOf id e = true)).
    + rewrite filter_cons_True by done. simpl. lia.
    + by rewrite filter_cons_False by done.
Qed.

Lemma Hist_settled_once kO kQ l id :
  Hist kO kQ l → (settleCalls id l ≤ 1)%nat.
Proof.
  intros HH. destruct (Hist_item _ _ _ id HH) as [-> _].
  destruct (status l id); lia.
Qed.

Lemma settledIn_spec kO kQ (l l0 : list Effect) :
  Hist kO kQ (l ++ l0) →
  (∀ id o, (id, o) ∈ settledIn (length l) (l ++ l0) ↔ Settled id o ∈ l) ∧
  NoDup (settledIn (length l) (l ++ l0)).*1.
Proof.
  induction l as [|e l IH]; intros HH.
  - simpl. split; [|constructor]. intros id o. split; by intros ?%elem_of_nil.
  - destruct HH as [He HH]. destruct (IH HH) as [IHm IHn].
    change (settledIn (length (e :: l)) ((e :: l) ++ l0))
      with (settledIn (length l) (l ++ l0) ++
            match e with
            | Settled id o => if (settleCalls id (l ++ l0) =? 0)%nat then [(id, o)] else []
            | _ => []
            end).
    destruct e as [i t|i t|i r|i|i r|q t|h t d|h];
      try (rewrite app_nil_r; split; [|done]; intros id o; rewrite IHm, elem_of_cons;
           naive_solver).
    simpl in He.
    destruct (Hist_item _ _ _ i HH) as [Hc _]. rewrite He in Hc. rewrite Hc. simpl.
    split.
    + intros id o. rewrite elem_of_app, list_elem_of_singleton, IHm, elem_of_cons.
      naive_solver.
    + rewrite fmap_app. apply NoDup_app. split; [done|]. split; [|apply NoDup_singleton].
      intros x Hx. simpl. intros ->%list_elem_of_singleton.
      apply list_elem_of_fmap in Hx as ([i' o'] & Heq & Hin). simpl in Heq. subst i'.
      apply IHm in Hin.
      pose proof (settleCalls_pos _ _ _ Hin).
      rewrite settleCalls_app in Hc. lia.
Qed.

Lemma Stable_settled s id o :
  Stable s →
  (Settled id o ∈ log s ↔ whenComplete (heap s !!! id) = Some o) ∧
  (Settled id o ∈ log s → (1 ≤ id < nextWork s)%nat).
Proof.
  intros (j & m & n & HI & _).
  pose proof (inv_hist _ _ _ _ _ _ HI) as HH.
  destruct (Hist_item _ _ _ id HH) as (_ & Hset & _).
  pose proof (inv_whenComplete _ _ _ _ _ _ HI id) as Hw.
  split.
  - rewrite Hset, Hw. destruct (status (log s) id); naive_solver.
  - intros Hin%Hset. rewrite (inv_nextWork _ _ _ _ _ _ HI).
    pose proof (proj2 (inv_absent _ _ _ _ _ _ HI id)) as HA.
    destruct (decide (id = 0 ∨ n < id)%nat) as [Hx|Hx]; [|lia].
    rewrite (HA Hx) in Hin. done.
Qed.

Lemma foldl_notify_AggOK n (new : list (nat * Outcome)) : ∀ c,
  AggOK n (notified c) (aggregate c) →
  NoDup new.*1 →
  (∀ p, p ∈ new → p.1 ∉ (notified c).*1 ∧ (1 ≤ p.1 ≤ n)%nat) →
  AggOK n (notified (foldl (λ c p, notify p c) c new))
          (aggregate (foldl (λ c p, notify p c) c new)) ∧
  throttle (foldl (λ c p, notify p c) c new) = throttle c ∧
  (∀ q, q ∈ notified (foldl (λ c p, notify p c) c new) ↔ q ∈ new ∨ q ∈ notified c).
Proof.
  induction new as [|p new IH]; intros c HA Hnd Hnew.
  - simpl. split; [done|]. split; [done|]. intros q. rewrite elem_of_nil. naive_solver.
  - simpl. rewrite fmap_cons in Hnd. apply NoDup_cons in Hnd as [Hp Hnd].
    destruct (Hnew p ltac:(left)) as [Hp1 Hp2].
    destruct (IH (notify p c)) as (H1 & H2 & H3).
    + by apply notify_AggOK.
    + done.
    + intros q Hq. destruct (Hnew q ltac:(by right)) as [Hq1 Hq2]. split; [|done].
      simpl. rewrite not_elem_of_cons. split; [|done].
      intros Heq. apply Hp. rewrite <- Heq. apply list_elem_of_fmap. by exists q.
    + split; [done|]. split; [done|].
      intros q. rewrite H3. simpl. rewrite !elem_of_cons. naive_solver.
Qed.

Lemma new_settled s s' l :
  Stable s → Stable s' → log s' = l ++ log s →
  NoDup (settledIn (length (log s') - length (log s)) (log s')).*1 ∧
  (∀ id o, (id, o) ∈ settledIn (length (log s') - length (log s)) (log s') ↔
           Settled id o ∈ l) ∧
  (∀ id o, Settled id o ∈ l →
           (∀ o', Settled id o' ∉ log s) ∧ (1 ≤ id < nextWork s')%nat).
Proof.
  intros HS HS' Hl.
  pose proof HS' as (j & m & n & HI & _).
  pose proof (inv_hist _ _ _ _ _ _ HI) as HH.
  rewrite Hl in *. rewrite length_app.
  replace (length l + length (log s) - length (log s))%nat with (length l) by lia.
  destruct (settledIn_spec _ _ _ _ HH) as [Hm Hn].
  split; [done|]. split; [done|].
  intros id o Hin. split.
  - intros o' Hin'.
    pose proof (Hist_settled_once _ _ _ id HH) as H1.
    rewrite settleCalls_app in H1.
    pose proof (settleCalls_pos _ _ _ Hin). pose proof (settleCalls_pos _ _ _ Hin'). lia.
  - apply (Stable_settled s' id o HS'). rewrite Hl. apply elem_of_app. by left.
Qed.

Lemma deliver_CallInv n s s' a d :
  Stable s → Stable s' → (∃ l, log s' = l ++ log s) → (nextWork s' ≤ S n)%nat →
  AggOK n d a → (∀ id o, (id, o) ∈ d ↔ Settled id o ∈ log s) →
  CallInv n (deliver s s' (mkCall s' a d)) ∧
  throttle (deliver s s' (mkCall s' a d)) = s'.
Proof.
  intros HS HS' [l Hl] Hnw HA Hd.
  destruct (new_settled s s' l HS HS' Hl) as (Hnd & Hm & Hfresh).
  unfold deliver. cbn [throttle].
  destruct (foldl_notify_AggOK n
              (settledIn (length (log s') - length (log s)) (log s'))
              (mkCall s' a d)) as (H1 & H2 & H3).
  - done.
  - done.
  - intros [id o] Hp. apply Hm in Hp. destruct (Hfresh id o Hp) as [Hno Hr].
    simpl. split; [|lia].
    intros Hin. apply list_elem_of_fmap in Hin as ([id' o'] & Heq & Hin).
    simpl in Heq. subst id'. apply Hd in Hin. by apply (Hno o').
  - split; [|done]. unfold CallInv. rewrite H2. cbn [throttle].
    split; [done|]. split; [done|]. split; [|done].
    intros id o. rewrite H3, Hm, Hl, elem_of_app. cbn [notified]. by rewrite Hd.
Qed.

Lemma hostStep_CallInv n ev c c' :
  CallInv n c → nextWork (throttle c) = S n → hostStep ev c = Some c' →
  CallInv n c' ∧ nextWork (throttle c') = S n ∧
  step ev (throttle c) = Some (throttle c') ∧
  submitted [ev] = [].
Proof.
  intros (HS & HA & Hd & _) Hnw E.
  destruct ev as [now b|now id o|now h]; [done| |];
    simpl in E;
    match type of E with
    | context [step ?ev _] =>
        destruct (step ev (throttle c)) as [s'|] eqn:Es; simpl in E; [|done];
        injection E as <-;
        pose proof Es as Es'; unfold step in Es';
        destruct (enabled ev (throttle c)) eqn:Hen; [|done];
        destruct (handleEvent_Stable _ _ HS Hen) as (s1 & E1 & HS1%StableAt_Stable);
        rewrite E1 in Es'; injection Es' as <-;
        destruct (handleEvent_Frame _ _ _ E1) as (_ & _ & Hl & Hn & _);
        simpl in Hn;
        destruct (deliver_CallInv n (throttle c) s1 (aggregate c) (notified c))
          as [HC Ht]; try done; [lia|];
        rewrite Ht; split; [done|]; split; [lia|done]
    end.
Qed.

Lemma hostRun_CallInv n evs : ∀ c c',
  CallInv n c → nextWork (throttle c) = S n → hostRun evs c = Some c' →
  CallInv n c' ∧ nextWork (throttle c') = S n ∧
  run evs (throttle c) = Some (throttle c') ∧
  submitted evs = [].
Proof.
  induction evs as [|ev evs IH]; intros c c' HC Hnw E; simpl in E.
  - by injection E as <-.
  - destruct (hostStep ev c) as [c1|] eqn:E1; simpl in E; [|done].
    destruct (hostStep_CallInv n ev c c1 HC Hnw E1) as (HC1 & Hn1 & Hs1 & Hsub).
    destruct (IH c1 c' HC1 Hn1 E) as (HC' & Hn' & Hr & Hsub').
    split; [done|]. split; [done|]. split.
    + simpl. by rewrite Hs1.
    + change (ev :: evs) with ([ev] ++ evs). unfold submitted in *.
      by rewrite omap_app, Hsub, Hsub'.
Qed.

Lemma submitAll_CallInv n now rest : ∀ c,
  CallInv n c → (nextWork (throttle c) + length rest = S n)%nat →
  clock (throttle c) ≤ now →
  ∃ c', submitAll now rest c = Some c' ∧ CallInv n c' ∧
        nextWork (throttle c') = S n ∧
        run (map (CallThrottled now) rest) (throttle c) = Some (throttle c').
Proof.
  induction rest as [|b rest IH]; intros c HC Hnw Hc.
  - exists c. simpl in *. split; [done|]. split; [done|]. split; [lia|done].
  - destruct HC as (HS & HA & Hd & _). simpl in Hnw.
    destruct (callThrottled_Stable_at (throttle c) now b HS Hc)
      as (s' & E & HS'%StableAt_Stable & Hc').
    assert (Es : step (CallThrottled now b) (throttle c) = Some s').
    { unfold step, enabled. simpl. rewrite (proj2 (Z.leb_le _ _) Hc). simpl. exact E. }
    assert (E1 : handleEvent (CallThrottled now b) (throttle c) = Some s') by exact E.
    destruct (handleEvent_Frame _ _ _ E1) as (_ & _ & [l Hl] & Hn & _). simpl in Hn.
    destruct (new_settled _ _ l HS HS' Hl) as (Hnd & Hm & Hfresh).
    pose proof HS as (j0 & m0 & n0 & HI0 & _).
    pose proof (inv_nextWork _ _ _ _ _ _ HI0) as Hnw0.
    set (work := nextWork (throttle c)) in *.
    set (new := settledIn (length (log s') - length (log (throttle c))) (log s')) in *.
    destruct (foldl_notify_AggOK n (filter (λ p, p.1 ≠ work) new)
                (mkCall s' (aggregate c) (notified c))) as (H1 & H2 & H3).
    { done. }
    { eapply sublist_NoDup; [exact Hnd|]. apply fmap_sublist, sublist_filter. }
    { intros [id o] [_ Hp]%list_elem_of_filter. apply Hm in Hp.
      destruct (Hfresh id o Hp) as [Hno Hr]. simpl. split; [|lia].
      intros Hin. apply list_elem_of_fmap in Hin as ([id' o'] & Heq & Hin).
      simpl in Heq. subst id'. apply Hd in Hin. by apply (Hno o'). }
    set (c1 := foldl (λ c p, notify p c) (mkCall s' (aggregate c) (notified c))
                 (filter (λ p, p.1 ≠ work) new)) in *.
    cbn [throttle notified] in H2, H3.
    assert (Hold : ∀ id o, Settled id o ∈ log (throttle c) → (id < work)%nat).
    { intros id o Hin. by apply (Stable_settled _ id o HS). }
    assert (Hc1 : ∀ q, q ∈ notified c1 → q.1 ≠ work).
    { intros [id o] [[Hq _]%list_elem_of_filter|Hq]%H3; [done|].
      apply Hd, Hold in Hq. simpl. lia. }
    set (c2 := match whenComplete (heap s' !!! work) with
               | Some o => notify (work, o) c1
               | None => c1
               end).
    assert (HC2 : CallInv n c2 ∧ throttle c2 = s').
    { unfold c2. destruct (whenComplete (heap s' !!! work)) as [o|] eqn:Hw.
      - apply (proj1 (Stable_settled s' work o HS')) in Hw.
        split; [|done]. unfold CallInv. cbn [throttle notify notified aggregate].
        rewrite H2. split; [done|]. split; [|split; [|lia]].
        + apply (notify_AggOK n c1 (work, o)); [done| |simpl; lia].
          simpl. intros Hin. apply list_elem_of_fmap in Hin as (q & Heq & Hq).
          by apply (Hc1 q).
        + intros id o'. rewrite elem_of_cons, H3, Hl, elem_of_app, <- Hd.
          rewrite list_elem_of_filter, Hm. simpl. split.
          * intros [[= -> ->]|[[_ ?]|?]]; [|by left|by right].
            rewrite Hl in Hw. apply elem_of_app in Hw as [?|Hw]; [by left|].
            apply Hold in Hw. lia.
          * intros [Hin|Hin]; [|by right; right].
            destruct (decide (id = work)) as [->|Hne]; [|by right; left].
            left. f_equal.
            assert (Hin' : Settled work o' ∈ log s').
            { rewrite Hl. apply elem_of_app. by left. }
            apply (proj1 (Stable_settled s' work o' HS')) in Hin'.
            apply (proj1 (Stable_settled s' work o HS')) in Hw. congruence.
      - split; [|done]. unfold CallInv. rewrite H2. split; [done|]. split; [done|].
        split; [|lia].
        intros id o'. rewrite H3, Hl, elem_of_app, <- Hd.
        rewrite list_elem_of_filter, Hm. simpl. split; [naive_solver|].
        intros [Hin|Hin]; [|by right]. left. split; [|done].
        intros ->.
        assert (Hin' : Settled work o' ∈ log s').
        { rewrite Hl. apply elem_of_app. by left. }
        apply (proj1 (Stable_settled s' work o' HS')) in Hin'. congruence. }
    destruct HC2 as [HC2 Ht2].
    destruct (IH c2 HC2) as (c' & E' & HC' & Hn' & Hr').
    + rewrite Ht2. lia.
    + rewrite Ht2. lia.
    + exists c'. split; [|split; [done|split; [done|]]].
      * simpl. rewrite Es. simpl. exact E'.
      * simpl. rewrite Es. simpl. by rewrite Ht2 in Hr'.
Qed.

Lemma run_app evs1 : ∀ evs2 s,
  run (evs1 ++ evs2) s = s' ← run evs1 s; run evs2 s'.
Proof.
  induction evs1 as [|ev evs1 IH]; intros evs2 s; simpl; [done|].
  destruct (step ev s) as [s1|]; simpl; [apply IH|done].
Qed.

Lemma submitted_calls now (fns : list StartResult) :
  submitted (map (CallThrottled now) fns) = fns.
Proof. induction fns as [|b fns IH]; [done|]. unfold submitted in *. simpl. by f_equal. Qed.

Lemma filter_length_all {A} (P : A → Prop) `{∀ x, Decision (P x)} (l : list A) :
  length (filter P l) = length l → ∀ x, x ∈ l → P x.
Proof.
  induction l as [|y l IH]; intros Hl x Hx; [by apply elem_of_nil in Hx|].
  pose proof (length_filter P l) as Hle.
  destruct (decide (P y)) as [Hy|Hy].
  - rewrite filter_cons_True in Hl by done. simpl in Hl.
    apply elem_of_cons in Hx as [->|Hx]; [done|]. apply IH; [lia|done].
  - rewrite filter_cons_False in Hl by done. simpl in Hl. lia.
Qed.

Lemma firstError_elem d id e : (id, Rejected e) ∈ d → is_Some (firstError d).
Proof.
  intros Hin. destruct (firstError d) eqn:HE; [by eexists|].
  apply firstError_None in HE.
  by pose proof (filter_length_all _ _ HE _ Hin).
Qed.

Lemma firstError_first d e :
  firstError d = Some e →
  ∃ d2 id d1, d = d2 ++ (id, Rejected e) :: d1 ∧ firstError d1 = None.
Proof.
  induction d as [|[id o] d IH]; [done|].
  rewrite firstError_cons. destruct (firstError d) as [e'|] eqn:HE.
  - intros [= ->]. destruct (IH eq_refl) as (d2 & id' & d1 & -> & H1).
    by exists ((id, o) :: d2), id', d1.
  - simpl. destruct o as [v|e']; [done|]. intros [= ->].
    by exists [], id, d.
Qed.

Lemma firstError_app d' d e :
  firstError d = Some e → firstError (d' ++ d) = Some e.
Proof.
  intros He. induction d' as [|p d' IH]; [done|].
  change ((p :: d') ++ d) with (p :: (d' ++ d)). by rewrite firstError_cons, IH.
Qed.

(** A settled aggregate promise is never changed by a reaction. *)
Lemma notify_settled p c x :
  allPromise (aggregate c) = Some x → allPromise (aggregate (notify p c)) = Some x.
Proof.
  intros Hx. destruct p as [id [v|e]]; simpl.
  - unfold onValue, resolve. simpl. destruct (_ =? 0); simpl; by rewrite Hx.
  - unfold onError, reject. destruct (rejected (aggregate c)); simpl; by rewrite Hx.
Qed.

Lemma foldl_notify_settled new x : ∀ c,
  allPromise (aggregate c) = Some x →
  allPromise (aggregate (foldl (λ c p, notify p c) c new)) = Some x.
Proof.
  induction new as [|p new IH]; intros c Hx; [done|].
  simpl. by apply IH, notify_settled.
Qed.

Lemma hostStep_settled ev c c' x :
  allPromise (aggregate c) = Some x → hostStep ev c = Some c' →
  allPromise (aggregate c') = Some x.
Proof.
  intros Hx E. destruct ev as [now b|now id o|now h]; [done| |]; simpl in E;
    (destruct (step _ _) as [s'|]; simpl in E; [|done]); injection E as <-;
    by apply foldl_notify_settled.
Qed.

Lemma AggOK_resolved n d a :
  AggOK n d a →
  allPromise a = Some ResolvedWithResults ↔
  (0 < n)%nat ∧ ∀ i, (i < n)%nat → ∃ v, (S i, Fulfilled v) ∈ d.
Proof.
  intros H.
  pose proof (AggOK_length _ _ _ H) as Hlen.
  pose proof (length_filter (λ p : nat * Outcome, isFulfilled p.2 = true) d) as Hle.
  pose proof (agg_nodup _ _ _ H) as Hnd.
  pose proof (agg_range _ _ _ H) as Hrg.
  rewrite (agg_promise _ _ _ H), (agg_count _ _ _ H).
  split.
  - destruct (firstError d) eqn:HE; [done|].
    destruct (Z.eqb_spec (Z.of_nat n - Z.of_nat (length (filter (λ p : nat * Outcome,
                isFulfilled p.2 = true) d))) 0) as [H0|H0]; [|done].
    destruct (Nat.ltb_spec 0 n) as [Hn|Hn]; [|done]. intros _. split; [done|].
    intros i Hi.
    assert (Hperm : d.*1 ≡ₚ seq 1 n).
    { apply submseteq_length_Permutation.
      - apply NoDup_submseteq; [done|]. intros x Hx.
        apply list_elem_of_fmap in Hx as (p & -> & Hp).
        apply elem_of_seq. specialize (Hrg p Hp). lia.
      - rewrite length_seq, length_fmap. lia. }
    assert (Hin : S i ∈ d.*1).
    { rewrite Hperm. apply elem_of_seq. lia. }
    apply list_elem_of_fmap in Hin as ([id o] & Heq & Hp). simpl in Heq. subst id.
    assert (Hall : length (filter (λ p : nat * Outcome, isFulfilled p.2 = true) d) = length d)
      by lia.
    pose proof (filter_length_all _ _ Hall _ Hp) as Hf. simpl in Hf.
    destruct o as [v|e]; [by exists v|done].
  - intros [Hn Hall].
    assert (Hsub : seq 1 n ⊆+ (filter (λ p : nat * Outcome, isFulfilled p.2 = true) d).*1).
    { apply NoDup_submseteq; [apply NoDup_seq|].
      intros x Hx%elem_of_seq. destruct (Hall (Nat.pred x) ltac:(lia)) as [v Hv].
      replace (S (Nat.pred x)) with x in Hv by lia.
      apply list_elem_of_fmap. exists (x, Fulfilled v). split; [done|].
      by apply list_elem_of_filter. }
    apply submseteq_length in Hsub. rewrite length_seq, length_fmap in Hsub.
    assert (HN : firstError d = None) by (apply firstError_None; lia).
    rewrite HN.
    rewrite (proj2 (Z.eqb_eq _ 0)) by lia.
    by rewrite (proj2 (Nat.ltb_lt 0 n)) by lia.
Qed.

Lemma AggOK_rejected n d a e :
  AggOK n d a → allPromise a = Some (RejectedWith e) ↔ firstError d = Some e.
Proof.
  intros H. rewrite (agg_promise _ _ _ H).
  destruct (firstError d) as [e'|]; [naive_solver|].
  by destruct (_ && _).
Qed.

Lemma callAllThrottled_CallInv options now fns :
  valid_options options → 0 ≤ now →
  ∃ c0, callAllThrottled now fns options = Some c0 ∧
        CallInv (length fns) c0 ∧ nextWork (throttle c0) = S (length fns) ∧
        run (map (CallThrottled now) fns) (constructor options) = Some (throttle c0).
Proof.
  intros Hv Hnow. unfold callAllThrottled.
  apply (submitAll_CallInv (length fns) now fns
           (mkCall (constructor options)
              (mkAggregate false (replicate (length fns) None)
                 (Z.of_nat (length fns)) None) [])).
  - split; [by apply constructor_Stable|]. split; [apply AggOK_init|].
    simpl. split; [|lia]. intros id o. split; by intros ?%elem_of_nil.
  - done.
  - done.
Qed.

(** What [callAllThrottled] does, for every array of work functions and
    every later sequence of host events: the call returns; its throttle is
    the one throttle that the submissions and the events drive; the [i]-th
    function is item [i+1]; [results[i]] holds a value exactly when the
    future of item [i+1] is fulfilled with it; the returned promise is
    resolved (with [results]) exactly when the array is not empty and every
    item is fulfilled; it is rejected with [e] exactly when [e] is the first
    error that the reactions met (in the order in which the model ran them,
    see [deliver]), which is the case as soon as the future of
    some item is rejected; the reactions ran once for each settled future;
    a settled promise is unchanged by every later event, and every enabled
    host event can be taken. *)
Theorem callAllThrottled_aggregate (options : AsyncThrottleOptions) (now : Z)
    (fns : list StartResult) :
  valid_options options → 0 ≤ now →
  ∃ c0, callAllThrottled now fns options = Some c0 ∧
  ∀ evs c, hostRun evs c0 = Some c →
    run (map (CallThrottled now) fns ++ evs) (constructor options) = Some (throttle c) ∧
    (∀ i b, fns !! i = Some b → startWork (heap (throttle c) !!! S i) = b) ∧
    length (results (aggregate c)) = length fns ∧
    (∀ i v, results (aggregate c) !! i = Some (Some v) ↔
            whenComplete (heap (throttle c) !!! S i) = Some (Fulfilled v)) ∧
    (allPromise (aggregate c) = Some ResolvedWithResults ↔
     (0 < length fns)%nat ∧
     ∀ i, (i < length fns)%nat →
          ∃ v, whenComplete (heap (throttle c) !!! S i) = Some (Fulfilled v)) ∧
    (∀ e, allPromise (aggregate c) = Some (RejectedWith e) ↔
          firstError (notified c) = Some e) ∧
    (∀ id e, whenComplete (heap (throttle c) !!! id) = Some (Rejected e) →
             ∃ e', allPromise (aggregate c) = Some (RejectedWith e')) ∧
    (∀ id o, (id, o) ∈ notified c ↔ whenComplete (heap (throttle c) !!! id) = Some o) ∧
    NoDup (notified c).*1 ∧
    (∀ ev c' x, allPromise (aggregate c) = Some x → hostStep ev c = Some c' →
                allPromise (aggregate c') = Some x) ∧
    (∀ ev, enabled ev (throttle c) = true → submitted [ev] = [] →
           ∃ c', hostStep ev c = Some c').
Proof.
  intros Hv Hnow.
  destruct (callAllThrottled_CallInv options now fns Hv Hnow) as (c0 & E0 & HC0 & Hn0 & Hr0).
  exists c0. split; [done|]. intros evs c E.
  destruct (hostRun_CallInv _ _ _ _ HC0 Hn0 E) as (HC & Hn & Hr & Hsub).
  destruct HC as (HS & HA & Hd & _).
  assert (Hrun : run (map (CallThrottled now) fns ++ evs) (constructor options)
                 = Some (throttle c)).
  { rewrite run_app, Hr0. simpl. exact Hr. }
  assert (Hnot : ∀ id o, (id, o) ∈ notified c ↔
                         whenComplete (heap (throttle c) !!! id) = Some o).
  { intros id o. rewrite Hd. apply (Stable_settled _ id o HS). }
  split_and!.
  - done.
  - intros i b Hi.
    apply (run_submitted _ _ _ i b Hrun).
    unfold submitted. rewrite omap_app. fold (submitted evs). rewrite Hsub, app_nil_r.
    fold (submitted (map (CallThrottled now) fns)). by rewrite submitted_calls.
  - apply (agg_length _ _ _ HA).
  - intros i v. by rewrite (agg_results _ _ _ HA), Hnot.
  - rewrite (AggOK_resolved _ _ _ HA).
    split; intros [Hlt Hall]; (split; [done|]); intros i Hi;
      destruct (Hall i Hi) as [v Hvi]; exists v; by apply Hnot.
  - intros e. apply (AggOK_rejected _ _ _ e HA).
  - intros id e Hw. apply Hnot in Hw.
    destruct (firstError_elem _ _ _ Hw) as [e' He']. exists e'.
    by apply (AggOK_rejected _ _ _ e' HA).
  - done.
  - apply (agg_nodup _ _ _ HA).
  - intros ev c' x. apply hostStep_settled.
  - intros ev Hen Hsb.
    destruct (handleEvent_Stable _ _ HS Hen) as (s' & Es & _).
    destruct ev as [t b|t id o|t h]; [done| |]; simpl; unfold step; rewrite Hen, Es;
      simpl; by eexists.
Qed.

(** Neither counter exceeds the number of submissions. *)
Lemma counts_bounded s :
  Stable s →
  outstandingCount s ≤ Z.of_nat (nSubmitted (log s)) ∧
  qpsCount s ≤ Z.of_nat (nSubmitted (log s)).
Proof.
  intros (j & m & n & HI & _).
  pose proof (inv_hist _ _ _ _ _ _ HI) as HH.
  pose proof (inv_order _ _ _ _ _ _ HI) as Ho.
  split.
  - rewrite <- (inv_balance _ _ _ _ _ _ HI), <- (Hist_outstanding _ _ _ HH).
    unfold outstandingItems.
    pose proof (length_filter (λ id, isOutstanding (status (log s) id) = true)
                  (seq 1 (nSubmitted (log s)))) as Hle.
    rewrite length_seq in Hle. lia.
  - rewrite (inv_qps _ _ _ _ _ _ HI), (inv_nSubmitted _ _ _ _ _ _ HI). lia.
Qed.

(** When neither limit is reached, nothing is left in the queue. *)
Lemma unsaturated_no_queue s :
  Stable s → atMaxOutstanding s = false → atMaxQps s = false →
  queuedItems (log s) = [].
Proof.
  intros (j & m & n & HI & _ & HE & _) HO HQ.
  pose proof (inv_hist _ _ _ _ _ _ HI) as HH.
  unfold Exit, canExecuteWork in HE. rewrite HO, HQ, andb_true_r in HE.
  rewrite (hasReadyWork_spec _ _ _ _ _ _ HI) in HE.
  apply bool_decide_eq_false in HE.
  rewrite (Hist_queued _ _ _ HH).
  rewrite (inv_nStarted _ _ _ _ _ _ HI), (inv_nSubmitted _ _ _ _ _ _ HI).
  pose proof (inv_order _ _ _ _ _ _ HI).
  by replace (n - m)%nat with 0%nat by lia.
Qed.

(** ** The repository's tests, replayed on the model *)

Example test_outstanding_replayed :
  map (λ k, observe (take k test_outstanding) (mkOptions (Some 1) None)) [3; 4; 5; 6]%nat =
  [ Some ([0], PendingDrain 0, []);
    Some ([2000; 0], PendingDrain 0, []);
    Some ([2000; 2000; 0], PendingDrain 0, []);
    Some ([2000; 2000; 0], ResolvedDrain, []) ].
Proof. vm_compute. reflexivity. Qed.

Example test_qps_replayed :
  map (λ k, observe (take k test_qps) (mkOptions None (Some 1))) [1; 4; 5; 7; 8]%nat =
  [ Some ([0], PendingDrain 0, []);
    Some ([0], PendingDrain 1, [mkTimeout 1 1 999]);
    Some ([1000; 0], PendingDrain 1, [mkTimeout 2 1000 1000]);
    Some ([2000; 1000; 0], PendingDrain 1, []);
    Some ([2000; 1000; 0], ResolvedDrain, []) ] ∧
  observe (take 4 test_qps ++ [TimerFires 999 1]) (mkOptions None (Some 1)) = None ∧
  observe (take 6 test_qps ++ [TimerFires 1999 2]) (mkOptions None (Some 1)) = None.
Proof. vm_compute. done. Qed.

Example test_window_replayed :
  map (λ k, observe (take k test_window) (mkOptions None (Some 2))) [3; 6; 7; 9; 10]%nat =
  [ Some ([500; 0], PendingDrain 1, []);
    Some ([500; 0], PendingDrain 2, [mkTimeout 1 500 500]);
    Some ([1000; 500; 0], PendingDrain 2, [mkTimeout 2 1000 500]);
    Some ([1500; 1000; 500; 0], PendingDrain 2, []);
    Some ([1500; 1000; 500; 0], ResolvedDrain, []) ] ∧
  observe (take 6 test_window ++ [TimerFires 999 1]) (mkOptions None (Some 2)) = None ∧
  observe (take 8 test_window ++ [TimerFires 1499 2]) (mkOptions None (Some 2)) = None.
Proof. vm_compute. done. Qed.

Example test_error_replayed :
  map (λ k, s ← run (take k test_error) (constructor (mkOptions None (Some 1)));
            Some (starts (log s), whenComplete (heap s !!! 1%nat),
                  whenComplete (heap s !!! 2%nat), whenDrained s))
      [1; 2; 3; 4]%nat =
  [ Some ([0], Some (Rejected (Thrown 1)), None, ResolvedDrain);
    Some ([0], Some (Rejected (Thrown 1)), None, PendingDrain 1);
    Some ([1000; 0], Some (Rejected (Thrown 1)), None, PendingDrain 1);
    Some ([1000; 0], Some (Rejected (Thrown 1)), Some (Fulfilled 0%nat), ResolvedDrain) ].
Proof. vm_compute. reflexivity. Qed.

Example test_all_waits_replayed :
  map (λ k, c ← test_all_waits k;
            Some (allPromise (aggregate c), results (aggregate c),
                  nStarted (log (throttle c)))) [0; 4; 5]%nat =
  [ Some (None, [None; None; None], 1%nat);
    Some (None, [Some 1%nat; Some 2%nat; None], 3%nat);
    Some (Some ResolvedWithResults, [Some 1%nat; Some 2%nat; Some 3%nat], 3%nat) ].
Proof. vm_compute. reflexivity. Qed.

Example test_all_rejects_replayed :
  map (λ k, c ← test_all_rejects k;
            Some (allPromise (aggregate c), results (aggregate c),
                  nStarted (log (throttle c)))) [0; 2; 4]%nat =
  [ Some (None, [None; None; None; None], 4%nat);
    Some (Some (RejectedWith (Thrown 2)), [Some 1%nat; None; None; None], 4%nat);
    Some (Some (RejectedWith (Thrown 2)),
          [Some 1%nat; None; Some 3%nat; Some 4%nat], 4%nat) ].
Proof. vm_compute. reflexivity. Qed.

(** ** The properties of the specification *)

(** C1 (outstanding cap).  For every configuration and every sequence of
    submissions, completions and timer fires: the counter
    [outstandingCount] is the number of started-but-not-completed items,
    it stays between 0 and [maxOutstanding], at every point of the history
    at most [maxOutstanding] items are started-but-not-completed, and an
    item is only ever started while fewer than [maxOutstanding] are; with
    the option [maxOutstanding = k > 0] the bound is [k]. *)
Theorem outstanding_cap (o : AsyncThrottleOptions) (evs : list Event) (s : State) :
  valid_options o →
  run evs (constructor o) = Some s →
  (∀ k, options_maxOutstanding o = Some k → 0 < k → maxOutstanding s = k) ∧
  0 ≤ outstandingCount s ≤ maxOutstanding s ∧
  outstandingCount s = Z.of_nat (length (outstandingItems (log s))) ∧
  (∀ l1 l2, log s = l1 ++ l2 →
            Z.of_nat (length (outstandingItems l2)) ≤ maxOutstanding s) ∧
  (∀ l1 l2 id t, log s = l1 ++ Started id t :: l2 →
                 Z.of_nat (length (outstandingItems l2)) < maxOutstanding s).
Proof.
  intros Hv Hrun.
  destruct (run_reachable o evs s Hv Hrun) as [(j & m & n & HI & _) (HmO & _)].
  pose proof (inv_hist _ _ _ _ _ _ HI) as HH.
  pose proof (inv_maxOut _ _ _ _ _ _ HI) as Hmax.
  split; [|split; [|split; [|split]]].
  - intros k Hk Hpos. rewrite HmO. simpl. rewrite Hk. simpl.
    destruct (Z.eqb_spec k 0); [lia|done].
  - rewrite <- (inv_balance _ _ _ _ _ _ HI).
    apply (Hist_balance (maxOutstanding s) (maxQps s) _ ltac:(lia) HH).
  - rewrite <- (inv_balance _ _ _ _ _ _ HI). symmetry.
    by eapply Hist_outstanding.
  - intros l1 l2 Hl. rewrite Hl in HH. apply Hist_suffix in HH.
    rewrite (Hist_outstanding _ _ _ HH).
    apply (Hist_balance (maxOutstanding s) (maxQps s) _ ltac:(lia) HH).
  - intros l1 l2 id t Hl. rewrite Hl in HH. apply Hist_suffix in HH.
    destruct HH as [(_ & _ & Hb & _) HH].
    by rewrite (Hist_outstanding _ _ _ HH).
Qed.

Lemma outstanding_cap_witness :
  ∃ s, run demo_events (constructor demo_options) = Some s ∧
       0 ≤ outstandingCount s ≤ 1.
Proof.
  eexists. split; [vm_compute; reflexivity|].
  eapply (outstanding_cap demo_options demo_events).
  - exact demo_options_valid.
  - vm_compute; reflexivity.
Defined.



(** C3 (FIFO admission).  Items are numbered in submission order; whenever
    an item is started it is the oldest queued item (the head of the queue,
    its number is the number of starts so far plus one); and at no point of
    the history is an item queued while an item submitted after it has
    already been started. *)
Theorem fifo_admission (o : AsyncThrottleOptions) (evs : list Event) (s : State) :
  valid_options o →
  run evs (constructor o) = Some s →
  (∀ l1 l2 id t, log s = l1 ++ Submitted id t :: l2 → id = S (nSubmitted l2)) ∧
  (∀ l1 l2 id t, log s = l1 ++ Started id t :: l2 →
                 id = S (nStarted l2) ∧ head (queuedItems l2) = Some id) ∧
  (∀ l1 l2 id id', log s = l1 ++ l2 →
                   status l2 id = Queued →
                   status l2 id' ≠ Absent → status l2 id' ≠ Queued →
                   (id' < id)%nat).
Proof.
  intros Hv Hrun.
  destruct (run_reachable o evs s Hv Hrun) as [(j & m & n & HI & _) _].
  pose proof (inv_hist _ _ _ _ _ _ HI) as HH.
  split; [|split].
  - intros l1 l2 id t Hl. rewrite Hl in HH. apply Hist_suffix in HH.
    by destruct HH as [[-> _] _].
  - intros l1 l2 id t Hl. rewrite Hl in HH. apply Hist_suffix in HH.
    destruct HH as [(-> & HQ & _) HH]. split; [done|].
    rewrite (Hist_queued _ _ _ HH).
    destruct (Hist_range _ _ _ HH) as [_ Hst]. apply Hst in HQ.
    destruct (nSubmitted l2 - nStarted l2)%nat eqn:Hd; [lia|done].
  - intros l1 l2 id id' Hl HQ HA HnQ. rewrite Hl in HH. apply Hist_suffix in HH.
    destruct (Hist_range _ _ _ HH) as [_ Hst].
    apply Hst in HQ.
    destruct (Hst id') as [HA' HQ'].
    destruct (decide (id' < id)%nat); [done|].
    destruct (decide (id' = 0 ∨ nSubmitted l2 < id')%nat) as [Hx|Hx].
    + by apply HA' in Hx.
    + exfalso. apply HnQ, HQ'. lia.
Qed.

Lemma fifo_admission_witness :
  ∃ s, run demo_events (constructor demo_options) = Some s ∧
       ∀ l1 l2 id t, log s = l1 ++ Started id t :: l2 →
                     id = S (nStarted l2) ∧ head (queuedItems l2) = Some id.
Proof.
  eexists. split; [vm_compute; reflexivity|].
  refine (proj1 (proj2 (fifo_admission demo_options demo_events _ demo_options_valid _))).
  vm_compute; reflexivity.
Defined.

(** C4 (settlement fidelity).  For every item: [resolve]/[reject] of its
    future is called at most once; the future holds an outcome exactly when
    such a call was made, and that is exactly when the item's own work has
    produced this outcome, in which case the call was made exactly once;
    the outcome with which the promise returned by the work function
    settles is produced, and so is the rejection with the thrown error when
    a started work function throws synchronously; while the work has not
    produced anything (the item is queued, or its promise is pending) the
    future is pending. *)
Theorem settlement_fidelity (o : AsyncThrottleOptions) (evs : list Event) (s : State)
    (id : nat) :
  valid_options o →
  run evs (constructor o) = Some s →
  (settleCalls id (log s) ≤ 1)%nat ∧
  (∀ r, whenComplete (heap s !!! id) = Some r ↔ Settled id r ∈ log s) ∧
  (∀ r, Settled id r ∈ log s ↔ Produced id r ∈ log s) ∧
  (∀ r, Produced id r ∈ log s → settleCalls id (log s) = 1%nat) ∧
  (∀ now r, WorkSettles now id r ∈ evs → Produced id r ∈ log s) ∧
  (∀ e t, submitted evs !! Nat.pred id = Some (Throws e) → Started id t ∈ log s →
          Produced id (Rejected e) ∈ log s) ∧
  ((id ∈ queuedItems (log s) ∨ id ∈ reactions s) →
   whenComplete (heap s !!! id) = None ∧ settleCalls id (log s) = 0%nat).
Proof.
  intros Hv Hrun.
  destruct (run_reachable o evs s Hv Hrun) as [HS _].
  pose proof HS as (j & m & n & HI & _).
  pose proof (inv_hist _ _ _ _ _ _ HI) as HH.
  destruct (Hist_item _ _ _ id HH) as (Hcalls & Hset & Hprod & _).
  pose proof (inv_whenComplete _ _ _ _ _ _ HI id) as Hw.
  pose proof (Stable_status s id HS) as Hst.
  split; [|split; [|split; [|split; [|split; [|split]]]]].
  - rewrite Hcalls. destruct (status (log s) id); lia.
  - intros r. rewrite Hset, Hw. destruct (status (log s) id); naive_solver.
  - intros r. rewrite Hset, Hprod.
    destruct Hst as [Hst|[Hst|[[Hst _]|(r' & Hst & _)]]]; rewrite Hst; naive_solver.
  - intros r Hr. apply Hprod in Hr. rewrite Hcalls.
    destruct Hst as [Hst|[Hst|[[Hst _]|(r' & Hst & _)]]]; rewrite Hst in *;
      naive_solver.
  - intros now r Hin. by eapply run_produced.
  - intros e t Hsub Hin.
    destruct (started_exp _ _ _ _ _ _ _ _ HI Hin) as [Hr _].
    destruct (Hist_started_status _ _ _ _ _ HH Hin) as [HnA HnQ].
    pose proof (run_submitted _ _ _ _ _ Hrun Hsub) as Hsw. simpl in Hsw.
    replace (S (Nat.pred id)) with id in Hsw by lia.
    pose proof (inv_throws _ _ _ _ _ _ HI id e Hsw) as Ht.
    apply Hprod.
    destruct Hst as [Hst|[Hst|[[Hst _]|(r' & Hst & _)]]]; rewrite Hst in *; try done.
    right; right. by rewrite Ht.
  - intros Hq.
    assert (Hx : status (log s) id = Queued ∨ status (log s) id = Running).
    { destruct Hq as [Hq|Hq].
      - left. unfold queuedItems in Hq. by apply list_elem_of_filter in Hq as [? _].
      - right. by apply (inv_running _ _ _ _ _ _ HI). }
    rewrite Hw, Hcalls. by destruct Hx as [-> | ->].
Qed.

Lemma settlement_fidelity_witness :
  ∃ s, run demo_events (constructor demo_options) = Some s ∧
       whenComplete (heap s !!! 2%nat) = Some (Rejected (Thrown 5)) ∧
       settleCalls 2 (log s) = 1%nat.
Proof.
  eexists. split; [vm_compute; reflexivity|].
  pose proof (settlement_fidelity demo_options demo_events _ 2 demo_options_valid
                ltac:(vm_compute; reflexivity))
    as (_ & Hw & Hs & Hc & _ & Ht & _).
  assert (Hp : Produced 2 (Rejected (Thrown 5)) ∈ log
    (default (constructor demo_options) (run demo_events (constructor demo_options)))).
  { apply (Ht (Thrown 5) 20); [reflexivity|].
    refine (bool_decide_unpack _ _). vm_compute. exact I. }
  split; [|by apply (Hc (Rejected (Thrown 5)))].
  by apply Hw, Hs.
Defined.

Lemma nDrained_app l1 l2 : nDrained (l1 ++ l2) = (nDrained l1 + nDrained l2)%nat.
Proof.
  induction l1 as [|e l1 IH]; [done|]. destruct e; simpl; by rewrite ?IH.
Qed.

Lemma nDrained_zero l : nDrained l = 0%nat ↔ ∀ p t, Drained p t ∉ l.
Proof.
  induction l as [|e l IH].
  - split; [|done]. by intros _ p t ?%elem_of_nil.
  - split.
    + intros H p t [<-|Hin]%elem_of_cons; [done|].
      assert (H0 : nDrained l = 0%nat) by (destruct e; simpl in H; done).
      by apply (proj1 IH H0 p t).
    + intros H. assert (H0 : nDrained l = 0%nat).
      { apply IH. intros p t Hin. apply (H p t). by right. }
      destruct e; simpl; try done. exfalso. apply (H p t). by left.
Qed.

Lemma DrainSeq_suffix l1 l2 : DrainSeq (l1 ++ l2) → DrainSeq l2.
Proof. induction l1 as [|e l1 IH]; simpl; [done|]. intros [_ H]. auto. Qed.

Lemma DrainSeq_quiet l l0 : nDrained l = 0%nat → DrainSeq l0 → DrainSeq (l ++ l0).
Proof.
  induction l as [|e l IH]; [done|]. intros H H0.
  destruct e; simpl in *; try done; split; try done; by apply IH.
Qed.

(** The oldest resolution in a piece of history. *)
Lemma nDrained_oldest l :
  nDrained l ≠ 0%nat →
  ∃ l1 p t l2, l = l1 ++ Drained p t :: l2 ∧ nDrained l2 = 0%nat.
Proof.
  induction l as [|e l IH]; [done|]. intros H.
  destruct (decide (nDrained l = 0%nat)) as [H0|H0].
  - destruct e; simpl in H; try done. by exists [], p, t, l.
  - destruct (IH H0) as (l1 & p & t & l2 & -> & Hl2).
    by exists (e :: l1), p, t, l2.
Qed.

Lemma DrainStep_refl s : DrainStep s s.
Proof. by intros H. Qed.

Lemma DrainStep_trans s1 s2 s3 : DrainStep s1 s2 → DrainStep s2 s3 → DrainStep s1 s3.
Proof.
  intros H12 H23 H1. destruct (H12 H1) as [H2 Hle]. destruct (H23 H2) as [H3 Hle'].
  split; [done|lia].
Qed.

(** Code that leaves the three fields alone and resolves nothing. *)
Lemma DrainStep_quiet s s' l :
  onLastWorkItemDrained s' = onLastWorkItemDrained s →
  whenQuiescent s' = whenQuiescent s →
  nextPromise s' = nextPromise s →
  log s' = l ++ log s →
  nDrained l = 0%nat →
  DrainStep s s'.
Proof.
  intros H1 H2 H3 H4 H5 (A1 & A2 & A3 & A4).
  assert (Hn : nDrained (log s') = nDrained (log s)).
  { rewrite H4, nDrained_app. lia. }
  split; [|lia]. unfold DrainOK. rewrite H1, H2, H3, Hn.
  split_and!; try done. rewrite H4. by apply DrainSeq_quiet.
Qed.

Lemma purgeExpiredWork_DrainStep fuel now : ∀ s s',
  purgeExpiredWork fuel now s = Some s' → DrainStep s s'.
Proof.
  induction fuel as [|fuel IH]; intros s s' E; [done|].
  simpl in E. fold (purgeStep s) in E.
  destruct (hasExpiredWork now s).
  - eapply DrainStep_trans; [|by apply IH].
    unfold purgeStep. cbv zeta.
    case_match; by apply (DrainStep_quiet _ _ []).
  - injection E as <-. apply DrainStep_refl.
Qed.

Lemma updateTimer_DrainStep now s : DrainStep s (updateTimer now s).
Proof.
  unfold updateTimer.
  repeat case_match; try apply DrainStep_refl.
  all: by eapply (DrainStep_quiet _ _ [_]).
Qed.

Lemma settle_DrainStep id o s : DrainStep s (settle id o s).
Proof.
  unfold settle. simpl.
  case_match; by eapply (DrainStep_quiet _ _ [_]).
Qed.

(** The drain check resolves the promise that [whenDrained] hands out. *)
Lemma drainCheck_DrainStep id s : DrainStep s (drainCheck id s).1.
Proof.
  unfold drainCheck, callOnLastWorkItemDrained. cbv zeta.
  destruct (_ && _).
  - simpl. destruct (onLastWorkItemDrained s) as [p|] eqn:Hp; simpl.
    + intros (A1 & A2 & A3 & A4). rewrite Hp in A1. symmetry in A1.
      rewrite A1 in A2. pose proof (A3 p A1) as Hpn.
      split; [|simpl; lia]. unfold DrainOK. simpl.
      split_and!; try done; lia.
    + by eapply (DrainStep_quiet _ _ [_]).
  - by eapply (DrainStep_quiet _ _ [_]).
Qed.

Lemma cleanup_DrainStep (PW : State → option State) id s s' c :
  (∀ s1 s2, PW s1 = Some s2 → DrainStep s1 s2) →
  cleanup PW id s = Some (s', c) → DrainStep s s'.
Proof.
  intros HPW. rewrite cleanup_unfold.
  pose proof (drainCheck_DrainStep id s) as HF.
  destruct (drainCheck id s) as [s1 c1]. simpl in HF.
  destruct c1.
  - destruct (atMaxOutstanding s).
    + destruct (PW s1) as [s2|] eqn:E; simpl; [|done].
      intros [= <- <-]. eapply DrainStep_trans; [done|]. by apply HPW.
    + by intros [= <- <-].
  - by intros [= <- <-].
Qed.

Lemma processWorkWith_DrainStep (ERW : State → option State) now s s' :
  (∀ s1 s2, ERW s1 = Some s2 → DrainStep s1 s2) →
  processWorkWith ERW now s = Some s' → DrainStep s s'.
Proof.
  intros HE. unfold processWorkWith.
  destruct (purgeExpiredWork _ _ _) as [s1|] eqn:E1; simpl; [|done].
  destruct (ERW s1) as [s2|] eqn:E2; simpl; [|done].
  intros [= <-].
  eapply DrainStep_trans; [by eapply purgeExpiredWork_DrainStep|].
  eapply DrainStep_trans; [by apply HE|]. apply updateTimer_DrainStep.
Qed.

Lemma startedState_DrainStep now s : DrainStep s (startedState now s).
Proof. unfold startedState. cbv zeta. by eapply (DrainStep_quiet _ _ [_]). Qed.

Lemma executeReadyWork_DrainStep now fuel : ∀ s s',
  executeReadyWork fuel now s = Some s' → DrainStep s s'.
Proof.
  induction fuel as [|fuel IH]; intros s s' E; [done|].
  rewrite executeReadyWork_unfold in E.
  destruct (hasReadyWork s && canExecuteWork s); [|injection E as <-; apply DrainStep_refl].
  cbv zeta in E.
  pose proof (startedState_DrainStep now s) as HS.
  destruct (startWork _) as [e|] eqn:Hsw.
  - destruct (cleanup _ _ _) as [[s1 c]|] eqn:Ec; [|done].
    assert (HF1 : DrainStep s s1).
    { eapply DrainStep_trans; [apply HS|].
      eapply DrainStep_trans; [|eapply cleanup_DrainStep; [|exact Ec]].
      - by eapply (DrainStep_quiet _ _ [_]).
      - intros s2 s3. apply processWorkWith_DrainStep. apply IH. }
    destruct c.
    + eapply DrainStep_trans; [|by apply IH].
      eapply DrainStep_trans; [done|]. apply settle_DrainStep.
    + eapply DrainStep_trans; [done|]. by apply IH.
  - eapply DrainStep_trans; [|by apply IH].
    eapply DrainStep_trans; [done|]. by apply (DrainStep_quiet _ _ []).
Qed.

Lemma processWork_DrainStep fuel now s s' :
  processWork fuel now s = Some s' → DrainStep s s'.
Proof. apply processWorkWith_DrainStep, executeReadyWork_DrainStep. Qed.

(** [onWorkItemEnqueued] creates a promise only when none is pending, and
    gives the same promise to [whenDrained] and to the closure. *)
Lemma enqueued_DrainStep now b s : DrainStep s (enqueued now b s).
Proof.
  unfold enqueued, onWorkItemEnqueued. cbv zeta. simpl.
  destruct (whenQuiescent s) as [p|] eqn:Hq.
  - by eapply (DrainStep_quiet _ _ [_]).
  - intros (A1 & A2 & A3 & A4). rewrite Hq in A2.
    split; [|simpl; lia]. unfold DrainOK. simpl.
    split_and!; try done; try lia.
    intros p [= <-]. lia.
Qed.

Lemma handleEvent_DrainStep ev s s' :
  handleEvent ev s = Some s' → DrainStep s s'.
Proof.
  unfold handleEvent. cbv zeta.
  assert (HC : DrainStep s (set_clock (time_of ev) s)).
  { by apply (DrainStep_quiet _ _ []). }
  destruct ev as [now b|now id o|now h]; intros E; cbn [time_of] in *.
  - change (callThrottled now b (set_clock now s))
      with (processWork (nextWork (enqueued now b (set_clock now s))) now
              (enqueued now b (set_clock now s))) in E.
    eapply DrainStep_trans; [exact HC|].
    eapply DrainStep_trans; [apply enqueued_DrainStep|].
    by eapply processWork_DrainStep.
  - unfold settleWork, settleWorkWith in E. cbv zeta in E.
    destruct (cleanup _ _ _) as [[s1 c]|] eqn:Ec; simpl in E; [|done].
    injection E as <-.
    eapply DrainStep_trans; [exact HC|].
    eapply DrainStep_trans; [|apply settle_DrainStep].
    eapply DrainStep_trans; [|eapply cleanup_DrainStep; [|exact Ec]].
    + by eapply (DrainStep_quiet _ _ [_]).
    + intros s2 s3. apply processWork_DrainStep.
  - unfold timerFires in E. cbv zeta in E.
    eapply DrainStep_trans; [exact HC|].
    eapply DrainStep_trans; [|by eapply processWork_DrainStep].
    by apply (DrainStep_quiet _ _ []).
Qed.

Lemma run_DrainStep evs : ∀ s s', run evs s = Some s' → DrainStep s s'.
Proof.
  induction evs as [|ev evs IH]; intros s s' E; simpl in E.
  - injection E as <-. apply DrainStep_refl.
  - unfold step in E. destruct (enabled ev s); [|done].
    destruct (handleEvent ev s) as [s1|] eqn:E1; [|done]. simpl in E.
    eapply DrainStep_trans; [by eapply handleEvent_DrainStep|by apply IH].
Qed.

Lemma constructor_DrainOK (o : AsyncThrottleOptions) : DrainOK (constructor o).
Proof. unfold DrainOK. simpl. split_and!; try done. Qed.

(** A promise handed out by [whenDrained] is resolved by the next
    resolution, and by no other. *)
Lemma pending_drain_resolved s s' l p :
  DrainOK s → DrainOK s' → (nextPromise s ≤ nextPromise s')%nat →
  log s' = l ++ log s → whenQuiescent s = Some p →
  (nDrained l = 0%nat ∧ whenQuiescent s' = Some p) ∨
  (∃ l1 t l2, l = l1 ++ Drained p t :: l2 ∧ nDrained l2 = 0%nat).
Proof.
  intros (A1 & A2 & A3 & A4) (B1 & B2 & B3 & B4) Hle Hl Hq.
  rewrite Hq in A2. pose proof (A3 p Hq) as Hp.
  destruct (decide (nDrained l = 0%nat)) as [H0|H0].
  - left. split; [done|].
    rewrite Hl, nDrained_app, H0 in B2. simpl in B2.
    destruct (whenQuiescent s') as [q|] eqn:Hq'; [|lia].
    specialize (B3 q eq_refl). rewrite Hl, nDrained_app, H0 in B3. simpl in B3.
    congruence.
  - right. destruct (nDrained_oldest l H0) as (l1 & q & t & l2 & -> & Hl2).
    exists l1, t, l2. split; [|done].
    rewrite Hl, <- app_assoc in B4. apply DrainSeq_suffix in B4.
    simpl in B4. destruct B4 as [Hqn _].
    rewrite nDrained_app, Hl2 in Hqn. simpl in Hqn. by replace p with q by lia.
Qed.

(** C5 (drain correctness).  [whenDrained] returns an already-resolved
    future exactly when no item is queued and none is outstanding; a pending
    drain future has not been resolved, and in an idle state every drain
    future handed out so far has been; whenever a drain future is resolved,
    the action just before it is a completion, and at that point no item is
    queued and none is outstanding; and conversely every completion that
    leaves nothing queued and nothing outstanding is followed at once by the
    resolution of the drain future.  The future resolved there is the one
    that was handed out: if [whenDrained] returns the pending future [p],
    then after every further sequence of events either [whenDrained] still
    returns [p], which is unresolved, and no drain future has been resolved
    in between; or [p] itself has been resolved, right after a completion
    that left nothing queued and nothing outstanding, and that completion is
    the first such since the call, no other drain future having been
    resolved in between. *)
Theorem drain_correct (o : AsyncThrottleOptions) (evs : list Event) (s : State) :
  valid_options o →
  run evs (constructor o) = Some s →
  (whenDrained s = ResolvedDrain ↔
   queuedItems (log s) = [] ∧ outstandingItems (log s) = []) ∧
  (∀ p, whenDrained s = PendingDrain p → ¬ drained p (log s)) ∧
  (whenDrained s = ResolvedDrain → ∀ p, (p < nextPromise s)%nat → drained p (log s)) ∧
  (∀ l1 l2 p t, log s = l1 ++ Drained p t :: l2 →
                (∃ id, head l2 = Some (Completed id)) ∧
                queuedItems l2 = [] ∧ outstandingItems l2 = []) ∧
  (∀ l1 l2 id, log s = l1 ++ Completed id :: l2 →
               queuedItems (Completed id :: l2) = [] →
               outstandingItems (Completed id :: l2) = [] →
               ∃ l1' p t, l1 = l1' ++ [Drained p t]) ∧
  (∀ p evs' s', whenDrained s = PendingDrain p → run evs' s = Some s' →
     (whenDrained s' = PendingDrain p ∧ ¬ drained p (log s') ∧
      ∃ l, log s' = l ++ log s ∧ ∀ q t, Drained q t ∉ l) ∨
     (∃ l1 t id l2,
        log s' = l1 ++ Drained p t :: Completed id :: l2 ++ log s ∧
        queuedItems (Completed id :: l2 ++ log s) = [] ∧
        outstandingItems (Completed id :: l2 ++ log s) = [] ∧
        (∀ q t', Drained q t' ∉ l2) ∧
        (∀ l3 id' l4, l2 = l3 ++ Completed id' :: l4 →
           ¬ (queuedItems (Completed id' :: l4 ++ log s) = [] ∧
              outstandingItems (Completed id' :: l4 ++ log s) = [])))).
Proof.
  intros Hv Hrun.
  destruct (run_reachable o evs s Hv Hrun) as [(j & m & n & HI & _) _].
  pose proof (inv_hist _ _ _ _ _ _ HI) as HH.
  assert (Hidle_s : whenQuiescent s = None ↔ idle (log s)).
  { unfold idle.
    rewrite (inv_balance _ _ _ _ _ _ HI), (inv_nStarted _ _ _ _ _ _ HI),
      (inv_nSubmitted _ _ _ _ _ _ HI).
    by rewrite <- (inv_drain _ _ _ _ _ _ HI). }
  split; [|split; [|split; [|split; [|split]]]].
  - rewrite <- (Hist_idle _ _ _ HH). unfold whenDrained, idle.
    rewrite (inv_balance _ _ _ _ _ _ HI), (inv_nStarted _ _ _ _ _ _ HI),
      (inv_nSubmitted _ _ _ _ _ _ HI).
    rewrite <- (inv_drain _ _ _ _ _ _ HI).
    by destruct (whenQuiescent s).
  - unfold whenDrained. intros p Hp.
    destruct (whenQuiescent s) as [q|] eqn:Hq; [|done]. injection Hp as ->.
    by apply (inv_drain_pending _ _ _ _ _ _ HI).
  - unfold whenDrained. intros Hr p Hp.
    destruct (whenQuiescent s) as [q|] eqn:Hq; [done|].
    apply (inv_drain_resolved _ _ _ _ _ _ HI); [done|by rewrite Hq].
  - intros l1 l2 p t Hl. rewrite Hl in HH. apply Hist_suffix in HH.
    destruct HH as [(Hhd & Hidle & _) HH].
    split; [done|]. by apply (Hist_idle _ _ _ HH).
  - intros l1 l2 id Hl HQ HO.
    pose proof (inv_prompt _ _ _ _ _ _ HI) as Hp.
    pose proof (inv_prompt_hist _ _ _ _ _ _ HI) as HP.
    rewrite Hl in HH, Hp, HP.
    assert (Hidle : idle (Completed id :: l2)).
    { apply (Hist_idle (maxOutstanding s) (maxQps s)); [|done].
      by apply Hist_suffix in HH. }
    destruct (decide (l1 = [])) as [->|Hne].
    { exfalso. by apply (Hp id). }
    destruct (exists_last Hne) as (l1' & e & ->).
    rewrite <- app_assoc in HP. apply Prompt_suffix in HP.
    simpl in HP. destruct HP as [HP _].
    destruct e; try (exfalso; by apply (HP id)).
    by eexists _, _, _.
  - { intros p evs' s' Hp Hrun2.
    assert (Hq : whenQuiescent s = Some p).
    { unfold whenDrained in Hp. destruct (whenQuiescent s); [|done]. by injection Hp as ->. }
    assert (Hrun' : run (evs ++ evs') (constructor o) = Some s').
    { by rewrite run_app, Hrun. }
    destruct (run_reachable o _ s' Hv Hrun') as [(j' & m' & n' & HI' & _) _].
    pose proof (inv_hist _ _ _ _ _ _ HI') as HH'.
    pose proof (inv_prompt_hist _ _ _ _ _ _ HI') as HP'.
    destruct (run_DrainStep evs (constructor o) s Hrun (constructor_DrainOK o)) as [HD _].
    destruct (run_DrainStep evs' s s' Hrun2 HD) as [HD' Hle].
    destruct (run_Frame _ _ _ Hrun2) as (_ & _ & [l Hl] & _).
    destruct (pending_drain_resolved s s' l p HD HD' Hle Hl Hq)
      as [[H0 Hq']|(l1 & t & l2 & -> & H0)].
    - left. split; [unfold whenDrained; by rewrite Hq'|].
      split; [by apply (inv_drain_pending _ _ _ _ _ _ HI')|].
      exists l. split; [done|]. by apply nDrained_zero.
    - right. rewrite <- app_assoc in Hl. simpl in Hl.
      rewrite Hl in HH', HP'.
      pose proof HH' as HH2. apply Hist_suffix in HH2.
      destruct HH2 as [([id Hhd] & Hidle & _) HH2].
      destruct l2 as [|e l2]; simpl in Hhd.
      { exfalso. apply Hidle_s in Hidle. congruence. }
      injection Hhd as ->.
      exists l1, t, id, l2. split; [done|].
      destruct (proj1 (Hist_idle _ _ _ HH2) Hidle) as [HQ HO].
      split; [done|]. split; [done|].
      simpl in H0. split; [by apply nDrained_zero|].
      intros l3 id' l4 -> [HQ' HO'].
      assert (Hidle' : idle (Completed id' :: l4 ++ log s)).
      { apply (Hist_idle (maxOutstanding s') (maxQps s')); [|done].
        replace (l1 ++ Drained p t :: (Completed id :: l3 ++ Completed id' :: l4) ++ log s)
          with ((l1 ++ Drained p t :: Completed id :: l3) ++ Completed id' :: l4 ++ log s)
          in HH' by (by rewrite <- !app_assoc; simpl; rewrite <- !app_assoc).
        by apply Hist_suffix in HH'. }
      destruct (decide (l3 = [])) as [->|Hne].
      + replace (l1 ++ Drained p t :: (Completed id :: [] ++ Completed id' :: l4) ++ log s)
          with ((l1 ++ [Drained p t]) ++ Completed id :: Completed id' :: l4 ++ log s)
          in HP' by (by rewrite <- !app_assoc).
        apply Prompt_suffix in HP'. simpl in HP'. destruct HP' as [HP' _].
        by apply (HP' id').
      + destruct (exists_last Hne) as (l3' & e & ->).
        replace (l1 ++ Drained p t :: (Completed id :: (l3' ++ [e]) ++ Completed id' :: l4)
                    ++ log s)
          with ((l1 ++ Drained p t :: Completed id :: l3') ++ e :: Completed id' :: l4 ++ log s)
          in HP' by (by rewrite <- !app_assoc; simpl; rewrite <- !app_assoc).
        apply Prompt_suffix in HP'. simpl in HP'. destruct HP' as [HP' _].
        destruct e; try (by apply (HP' id')).
        rewrite !nDrained_app in H0. simpl in H0. lia. }
Qed.

Lemma drain_correct_witness :
  (∃ s, run demo_events (constructor demo_options) = Some s ∧
        whenDrained s = ResolvedDrain ∧
        queuedItems (log s) = [] ∧ outstandingItems (log s) = []) ∧
  whenDrained (demo_at 1) = PendingDrain 0 ∧
  run (drop 1 demo_events) (demo_at 1) = Some demo_state ∧
  drained 0 (log demo_state).
Proof.
  split.
  - eexists. split; [vm_compute; reflexivity|].
    split; [vm_compute; reflexivity|].
    apply (proj1 (drain_correct demo_options demo_events _ demo_options_valid
                    ltac:(vm_compute; reflexivity))).
    vm_compute; reflexivity.
  - split; [vm_compute; reflexivity|]. split; [vm_compute; reflexivity|].
    destruct (drain_correct demo_options (take 1 demo_events) (demo_at 1)
                demo_options_valid ltac:(vm_compute; reflexivity))
      as (_ & _ & _ & _ & _ & H6).
    destruct (H6 0%nat (drop 1 demo_events) demo_state
                ltac:(vm_compute; reflexivity) ltac:(vm_compute; reflexivity))
      as [[Hp _]|(l1 & t & id & l2 & Hl & _)].
    + vm_compute in Hp. discriminate Hp.
    + exists t. rewrite Hl. apply elem_of_app. right. by left.
Defined.

(** C6 (a synchronous throw is an asynchronous rejection).  Executing an
    item whose work function throws [e] is the same as executing an item
    whose work function returns a promise and then running the reactions of
    that promise, rejected with [e]: the same [cleanup] runs on the same
    state, so the counters, the drain check and the re-admission coincide,
    and the future is rejected with [e].  Consequently, in every reachable
    state an item that was started and whose work function throws [e] has
    its future rejected with [e] by exactly one call, has completed and is
    not outstanding, keeps [expirationTime = start + 1000] and stays in the
    work list until then; [outstandingCount] is the number of started items
    that have not completed, no ready item is left that could be started,
    and nothing queued and nothing outstanding means the drain future is
    resolved. *)
Theorem sync_throw_as_rejection (o : AsyncThrottleOptions) (evs : list Event) (s : State) :
  valid_options o →
  run evs (constructor o) = Some s →
  (∀ PW now work e st,
     startWork (heap st !!! work) = Throws e →
     work ∉ reactions st →
     is_Some (onLastWorkItemDrained st) →
     execute (cleanup PW) now work st =
     settleWorkWith PW work (Rejected e) (registered now work st)) ∧
  (∀ id e t,
     submitted evs !! Nat.pred id = Some (Throws e) → Started id t ∈ log s →
     whenComplete (heap s !!! id) = Some (Rejected e) ∧
     settleCalls id (log s) = 1%nat ∧
     Completed id ∈ log s ∧
     id ∉ outstandingItems (log s) ∧
     expirationTime (heap s !!! id) = t + 1000 ∧
     (clock s < t + 1000 → id ∈ workItems s)) ∧
  outstandingCount s = Z.of_nat (length (outstandingItems (log s))) ∧
  hasReadyWork s && canExecuteWork s = false ∧
  (queuedItems (log s) = [] → outstandingItems (log s) = [] →
   whenDrained s = ResolvedDrain).
Proof.
  intros Hv Hrun.
  destruct (run_reachable o evs s Hv Hrun) as [HS _].
  pose proof HS as (j & m & n & HI & _ & HE & _).
  pose proof (inv_hist _ _ _ _ _ _ HI) as HH.
  split; [|split; [|split; [|split]]].
  - intros PW now work e st Hs Hw Hd.
    unfold settleWorkWith. cbv zeta. rewrite (unregister now work st Hw).
    unfold execute. cbv zeta.
    replace (startWork (heap (emit (Started work now)
               (set_heap (write work (set_expirationTime (now + 1000))) st)) !!! work))
      with (startWork (heap st !!! work))
      by (simpl; unfold write; by rewrite lookup_total_insert_eq).
    rewrite Hs.
    destruct (cleanup PW work _) as [[s1 c]|] eqn:Ec; [|done].
    apply cleanup_Normal in Ec as ->; [done|]. by simpl.
  - intros id e t Hsub Hin.
    destruct (started_exp _ _ _ _ _ _ _ _ HI Hin) as [Hr Hexp].
    destruct (Hist_started_status _ _ _ _ _ HH Hin) as [HnA HnQ].
    pose proof (run_submitted _ _ _ _ _ Hrun Hsub) as Hsw. simpl in Hsw.
    replace (S (Nat.pred id)) with id in Hsw by lia.
    pose proof (inv_throws _ _ _ _ _ _ HI id e Hsw) as Ht.
    destruct (Hist_item _ _ _ id HH) as (Hcalls & _ & _ & Hcomp).
    assert (Hst : status (log s) id = Done (Rejected e)).
    { destruct (Stable_status s id HS) as [Hst|[Hst|[[Hst _]|(r' & Hst & _)]]];
        rewrite Hst in *; try done. by rewrite Ht. }
    split_and!.
    + by rewrite (inv_whenComplete _ _ _ _ _ _ HI id), Hst.
    + by rewrite Hcalls, Hst.
    + apply Hcomp. exists (Rejected e). by right.
    + unfold outstandingItems. intros [Ho _]%list_elem_of_filter.
      by rewrite Hst in Ho.
    + exact Hexp.
    + intros Hc. rewrite (workItems_spec _ _ _ _ _ _ HI). apply elem_of_seq.
      pose proof (inv_order _ _ _ _ _ _ HI).
      destruct (decide (id ≤ j)%nat) as [Hle|]; [|lia].
      pose proof (inv_exp_purged _ _ _ _ _ _ HI id ltac:(lia)).
      unfold exp in *. lia.
  - by rewrite (Hist_outstanding _ _ _ HH), (inv_balance _ _ _ _ _ _ HI).
  - exact HE.
  - intros HQ HO.
    pose proof (proj2 (Hist_idle _ _ _ HH) (conj HQ HO)) as [Hb Hm].
    rewrite (inv_balance _ _ _ _ _ _ HI) in Hb.
    rewrite (inv_nStarted _ _ _ _ _ _ HI), (inv_nSubmitted _ _ _ _ _ _ HI) in Hm.
    unfold whenDrained.
    by rewrite (proj2 (inv_drain _ _ _ _ _ _ HI) (conj Hb Hm)).
Qed.

Lemma sync_throw_as_rejection_witness :
  ∃ s, run demo_events (constructor demo_options) = Some s ∧
       whenComplete (heap s !!! 2%nat) = Some (Rejected (Thrown 5)) ∧
       Completed 2 ∈ log s ∧
       expirationTime (heap s !!! 2%nat) = 1020.
Proof.
  eexists. split; [vm_compute; reflexivity|].
  pose proof (sync_throw_as_rejection demo_options demo_events _ demo_options_valid
                ltac:(vm_compute; reflexivity)) as (_ & Hb & _).
  destruct (Hb 2%nat (Thrown 5) 20) as (Hw & _ & Hc & _ & Hx & _).
  - reflexivity.
  - refine (bool_decide_unpack _ _). vm_compute. exact I.
  - by split_and!.
Defined.

(** C7 (timer reconciliation).  In every state between two turns, hence
    after every admission pass: the field [expiringWorkTimer] is set exactly
    when there is ready work, the QPS limit is saturated and the outstanding
    limit is not; the host has at most one timeout pending, namely the one
    the field refers to, and none when the field is [null]; a pending
    timeout was set by [updateTimer]; and whenever [updateTimer] sets a
    timeout, its delay is the time remaining until the oldest start that is
    still inside its one-second window leaves it.  So when the condition
    holds, the timer is armed: exactly one timeout is pending at the host,
    it is the one the field refers to, and the host can fire it as soon as
    it is due; and when the condition does not hold, the field is [null]
    and no timeout is pending. *)
Theorem timer_reconciled (o : AsyncThrottleOptions) (evs : list Event) (s : State) :
  valid_options o →
  run evs (constructor o) = Some s →
  (is_Some (expiringWorkTimer s) ↔
   hasReadyWork s && atMaxQps s && negb (atMaxOutstanding s) = true) ∧
  (hasReadyWork s = true ↔ queuedItems (log s) ≠ []) ∧
  (length (timers s) ≤ 1)%nat ∧
  (∀ t, t ∈ timers s → expiringWorkTimer s = Some (handle t)) ∧
  (expiringWorkTimer s = None → timers s = []) ∧
  (∀ t, t ∈ timers s → TimerSet (handle t) (armedAt t) (delay t) ∈ log s) ∧
  (∀ l1 l2 h t d, log s = l1 ++ TimerSet h t d :: l2 →
     ∃ τ, τ ∈ starts l2 ∧ t < τ + 1000 ∧ d = τ + 1000 - t ∧
          ∀ τ', τ' ∈ starts l2 → t < τ' + 1000 → τ ≤ τ') ∧
  (hasReadyWork s && atMaxQps s && negb (atMaxOutstanding s) = true →
   ∃ t, timers s = [t] ∧ expiringWorkTimer s = Some (handle t) ∧
        TimerSet (handle t) (armedAt t) (delay t) ∈ log s ∧
        ∀ now, clock s ≤ now → armedAt t + delay t ≤ now →
               enabled (TimerFires now (handle t)) s = true) ∧
  (hasReadyWork s && atMaxQps s && negb (atMaxOutstanding s) = false →
   expiringWorkTimer s = None ∧ timers s = []) ∧
  (∀ h, expiringWorkTimer s = Some h → ∃ t, timers s = [t] ∧ handle t = h).
Proof.
  intros Hv Hrun.
  destruct (run_reachable o evs s Hv Hrun) as [(j & m & n & HI & HT & _) _].
  pose proof (inv_hist _ _ _ _ _ _ HI) as HH.
  pose proof (inv_timer _ _ _ _ _ _ HI) as Htm.
  split; [|split; [|split; [|split; [|split; [|split; [|split; [|split; [|split]]]]]]]].
  - exact HT.
  - rewrite (hasReadyWork_spec _ _ _ _ _ _ HI), (Hist_queued _ _ _ HH).
    rewrite (inv_nStarted _ _ _ _ _ _ HI), (inv_nSubmitted _ _ _ _ _ _ HI).
    pose proof (inv_order _ _ _ _ _ _ HI).
    rewrite bool_decide_eq_true. split.
    + intros Hlt Hs. apply (f_equal length) in Hs. rewrite length_seq in Hs.
      simpl in Hs. lia.
    + intros Hs. destruct (decide (m < n)%nat); [done|].
      exfalso. apply Hs. by replace (n - m)%nat with 0%nat by lia.
  - destruct (expiringWorkTimer s); [destruct Htm as (t & -> & _)|rewrite Htm];
      simpl; lia.
  - intros t Ht. destruct (expiringWorkTimer s).
    + destruct Htm as (t' & Heq & <-). rewrite Heq in Ht.
      by apply list_elem_of_singleton in Ht as ->.
    + rewrite Htm in Ht. by apply elem_of_nil in Ht.
  - intros Hn. by rewrite Hn in Htm.
  - apply (inv_timer_log _ _ _ _ _ _ HI).
  - intros l1 l2 h t d Hl. rewrite Hl in HH. apply Hist_suffix in HH.
    by destruct HH as [He _].
  - intros Hc. destruct (proj2 HT Hc) as [h Hh]. rewrite Hh in Htm.
    destruct Htm as (t & Ht & <-). exists t. split; [done|]. split; [done|]. split.
    + apply (inv_timer_log _ _ _ _ _ _ HI). rewrite Ht. by left.
    + intros now Hclk Hdue. unfold enabled. simpl. rewrite Ht. simpl.
      rewrite (proj2 (Z.leb_le _ _) Hclk), Nat.eqb_refl, (proj2 (Z.leb_le _ _) Hdue).
      done.
  - intros Hc. destruct (expiringWorkTimer s) as [h|] eqn:Hh; [|done].
    assert (true = false); [|done]. rewrite <- Hc. symmetry. apply HT. by eexists.
  - intros h Hh. by rewrite Hh in Htm.
Qed.

Lemma timer_reconciled_witness :
  ∃ t, timers (demo_at 4) = [t] ∧ expiringWorkTimer (demo_at 4) = Some (handle t) ∧
       enabled (TimerFires 1000 (handle t)) (demo_at 4) = true.
Proof.
  pose proof (timer_reconciled demo_options (take 4 demo_events) (demo_at 4)
                demo_options_valid ltac:(vm_compute; reflexivity))
    as (_ & _ & _ & _ & _ & _ & _ & Harmed & _).
  destruct (Harmed ltac:(vm_compute; reflexivity)) as (t & Ht & Hf & _ & Hen).
  exists t. split; [exact Ht|]. split; [exact Hf|].
  apply Hen.
  - vm_compute. discriminate.
  - assert (Heq : t = mkTimeout 1 20 980).
    { assert (H : [t] = [mkTimeout 1 20 980]) by (rewrite <- Ht; vm_compute; reflexivity).
      by injection H. }
    rewrite Heq. vm_compute. discriminate.
Defined.

(** C8 ([callAllThrottled] on the empty array).  For every array of work
    functions the call behaves as [callAllThrottled_aggregate] says; on the
    empty array no reaction is ever attached, so the returned promise is
    pending when the call returns, no host event is enabled afterwards, and
    the promise therefore stays pending for ever: it does not resolve with
    the empty array of results, although every item (there is none) has
    fulfilled. *)
Theorem callAllThrottled_empty_pending (options : AsyncThrottleOptions) (now : Z) :
  ∃ c0, callAllThrottled now [] options = Some c0 ∧
        allPromise (aggregate c0) = None ∧
        results (aggregate c0) = [] ∧
        (∀ ev, enabled ev (throttle c0) = true → submitted [ev] ≠ []) ∧
        (∀ evs c, hostRun evs c0 = Some c → evs = [] ∧ c = c0).
Proof.
  eexists. split; [reflexivity|]. split; [reflexivity|]. split; [reflexivity|].
  assert (Hen : ∀ ev, enabled ev (constructor options) = true → submitted [ev] ≠ []).
  { intros [t b|t id o|t h]; unfold enabled; simpl; [done| |];
      rewrite andb_false_r; done. }
  split; [exact Hen|].
  intros [|ev evs] c E; simpl in E; [by injection E as <-|].
  exfalso. destruct ev as [t b|t id o|t h]; [done| |]; simpl in E;
    unfold step, enabled in E; simpl in E; rewrite andb_false_r in E; done.
Qed.

(** C9, as stated, fails: on [quick_events] the drain future is resolved at
    time 0 although item 1, started at time 0, is still linked in the work
    list and still counted in [qpsCount]. *)
Lemma drain_leaves_tracked_item :
  ∃ s l1 l2 p t,
    run quick_events (constructor (mkOptions None None)) = Some s ∧
    log s = l1 ++ Drained p t :: l2 ∧
    whenDrained s = ResolvedDrain ∧
    clock s = t ∧
    Started 1 t ∈ l2 ∧
    window t l2 = 1 ∧
    workItems s = [1%nat] ∧
    qpsCount s = 1.
Proof.
  eexists _, [Settled 1 (Fulfilled 7%nat)], _, 0%nat, 0.
  split; [vm_compute; reflexivity|].
  split; [vm_compute; reflexivity|].
  split_and!; try (vm_compute; reflexivity).
  refine (bool_decide_unpack _ _). vm_compute. exact I.
Qed.

(** C9 (quiescence at the drain, amended).  At the moment a drain future is
    resolved no item is queued, none is started but not completed, and every
    submitted item has completed; items started within the preceding second
    may still be tracked, at most [maxQps] of them.  Accordingly, in an idle
    state the work list holds only completed items, as many as [qpsCount]
    counts, and an item whose window has not elapsed is among them. *)
Theorem drain_quiescent (o : AsyncThrottleOptions) (evs : list Event) (s : State) :
  valid_options o →
  run evs (constructor o) = Some s →
  (∀ l1 l2 p t, log s = l1 ++ Drained p t :: l2 →
     queuedItems l2 = [] ∧ outstandingItems l2 = [] ∧
     (∀ id, (1 ≤ id ≤ nSubmitted l2)%nat → Completed id ∈ l2) ∧
     0 ≤ window t l2 ≤ maxQps s) ∧
  (whenDrained s = ResolvedDrain →
     (∀ id, id ∈ workItems s → Completed id ∈ log s) ∧
     Z.of_nat (length (workItems s)) = qpsCount s ∧
     (∀ id t, Started id t ∈ log s → clock s < t + 1000 → id ∈ workItems s)).
Proof.
  intros Hv Hrun.
  destruct (run_reachable o evs s Hv Hrun) as [(j & m & n & HI & _) _].
  pose proof (inv_hist _ _ _ _ _ _ HI) as HH.
  pose proof (inv_maxQps _ _ _ _ _ _ HI) as Hmax.
  pose proof (inv_order _ _ _ _ _ _ HI) as Ho.
  assert (Hdone : ∀ l, Hist (maxOutstanding s) (maxQps s) l → idle l →
                       ∀ id, (1 ≤ id ≤ nSubmitted l)%nat → Completed id ∈ l).
  { intros l Hl Hidle id Hid.
    pose proof (proj1 (Hist_idle _ _ _ Hl) Hidle) as [_ HO].
    destruct Hidle as [_ Heq].
    destruct (Hist_range _ _ _ Hl) as [_ Hst]. destruct (Hst id) as [HA HQ].
    apply (Hist_item _ _ _ id Hl).
    assert (Hno : ¬ isOutstanding (status l id) = true).
    { intros Hout. apply (filter_nil_not_elem_of _ _ id HO Hout).
      apply elem_of_seq. lia. }
    destruct (status l id) as [| | |o'|o'|o'] eqn:Hs; simpl in Hno.
    - exfalso. destruct HA as [HA _]. specialize (HA eq_refl). lia.
    - exfalso. destruct HQ as [HQ _]. specialize (HQ eq_refl). lia.
    - done.
    - done.
    - exists o'. by left.
    - exists o'. by right. }
  split.
  - intros l1 l2 p t Hl. rewrite Hl in HH. apply Hist_suffix in HH.
    destruct HH as [(_ & Hidle & _) HH].
    pose proof (proj1 (Hist_idle _ _ _ HH) Hidle) as [HQ HO].
    split; [done|]. split; [done|]. split; [by apply Hdone|].
    split; [unfold window; lia|].
    apply (Hist_window (maxOutstanding s) (maxQps s) l2 ltac:(lia) HH).
  - unfold whenDrained. intros Hr.
    destruct (whenQuiescent s) as [q|] eqn:Hq; [done|].
    apply (inv_drain _ _ _ _ _ _ HI) in Hq as [Hout ->].
    rewrite (workItems_spec _ _ _ _ _ _ HI).
    split; [|split].
    + intros id Hid%elem_of_seq. apply Hdone; [done| |].
      * split; [by rewrite (inv_balance _ _ _ _ _ _ HI)|].
        by rewrite (inv_nStarted _ _ _ _ _ _ HI), (inv_nSubmitted _ _ _ _ _ _ HI).
      * rewrite (inv_nSubmitted _ _ _ _ _ _ HI). lia.
    + rewrite length_seq, (inv_qps _ _ _ _ _ _ HI). lia.
    + intros id t Hin Hc. destruct (started_exp _ _ _ _ _ _ _ _ HI Hin) as [Hrg He].
      apply elem_of_seq.
      destruct (decide (id ≤ j)%nat) as [Hle|]; [|lia].
      pose proof (inv_exp_purged _ _ _ _ _ _ HI id ltac:(lia)). lia.
Qed.

Lemma drain_quiescent_witness :
  ∃ s, run quick_events (constructor (mkOptions None None)) = Some s ∧
       queuedItems (tail (tail (log s))) = [] ∧
       outstandingItems (tail (tail (log s))) = [] ∧
       Completed 1 ∈ log s.
Proof.
  eexists. split; [vm_compute; reflexivity|].
  pose proof (drain_quiescent (mkOptions None None) quick_events _
                ltac:(vm_compute; intuition discriminate)
                ltac:(vm_compute; reflexivity)) as [Hd Hi].
  destruct (Hd [Settled 1 (Fulfilled 7%nat)] _ 0%nat 0 ltac:(vm_compute; reflexivity))
    as (HQ & HO & _).
  split; [exact HQ|]. split; [exact HO|].
  apply Hi; [vm_compute; reflexivity|]. vm_compute. left.
Defined.

(** C10 (a zero option is an omitted option).  A throttle constructed with
    an explicit zero for [maxOutstanding] or for [maxQps] is the very state
    constructed with that field omitted: the limit is
    [Number.MAX_SAFE_INTEGER], and every sequence of events runs identically
    from both.  That dimension does not throttle: as long as fewer than
    [Number.MAX_SAFE_INTEGER] items were submitted its limit is never
    reached, with both options zero nothing is ever left in the queue, and
    a first submission is started at once rather than held back by a
    capacity of zero. *)
Theorem zero_option_is_omitted (q : option Z) (evs : list Event) (b : StartResult) :
  constructor (mkOptions (Some 0) q) = constructor (mkOptions None q) ∧
  constructor (mkOptions q (Some 0)) = constructor (mkOptions q None) ∧
  maxOutstanding (constructor (mkOptions (Some 0) q)) = MAX_SAFE_INTEGER ∧
  maxQps (constructor (mkOptions q (Some 0))) = MAX_SAFE_INTEGER ∧
  run evs (constructor (mkOptions (Some 0) q)) = run evs (constructor (mkOptions None q)) ∧
  run evs (constructor (mkOptions q (Some 0))) = run evs (constructor (mkOptions q None)) ∧
  (∀ s, valid_options (mkOptions (Some 0) q) →
        run evs (constructor (mkOptions (Some 0) q)) = Some s →
        Z.of_nat (nSubmitted (log s)) < MAX_SAFE_INTEGER →
        atMaxOutstanding s = false) ∧
  (∀ s, valid_options (mkOptions q (Some 0)) →
        run evs (constructor (mkOptions q (Some 0))) = Some s →
        Z.of_nat (nSubmitted (log s)) < MAX_SAFE_INTEGER →
        atMaxQps s = false) ∧
  (∀ s, run evs (constructor (mkOptions (Some 0) (Some 0))) = Some s →
        Z.of_nat (nSubmitted (log s)) < MAX_SAFE_INTEGER →
        queuedItems (log s) = []) ∧
  (∃ s, run [CallThrottled 0 b] (constructor (mkOptions (Some 0) (Some 0))) = Some s ∧
        Started 1 0 ∈ log s).
Proof.
  assert (HO : ∀ o s, valid_options o → run evs (constructor o) = Some s →
                      maxOutstanding (constructor o) = MAX_SAFE_INTEGER →
                      Z.of_nat (nSubmitted (log s)) < MAX_SAFE_INTEGER →
                      atMaxOutstanding s = false).
  { intros o s Hv Hrun Hmax Hn.
    destruct (run_reachable o evs s Hv Hrun) as [HS (HmO & _)].
    destruct (counts_bounded s HS) as [Hc _].
    unfold atMaxOutstanding. apply Z.leb_gt. rewrite HmO, Hmax. lia. }
  assert (HQ : ∀ o s, valid_options o → run evs (constructor o) = Some s →
                      maxQps (constructor o) = MAX_SAFE_INTEGER →
                      Z.of_nat (nSubmitted (log s)) < MAX_SAFE_INTEGER →
                      atMaxQps s = false).
  { intros o s Hv Hrun Hmax Hn.
    destruct (run_reachable o evs s Hv Hrun) as [HS (_ & HmQ & _)].
    destruct (counts_bounded s HS) as [_ Hc].
    unfold atMaxQps. apply Z.leb_gt. rewrite HmQ, Hmax. lia. }
  assert (Hv0 : valid_options (mkOptions (Some 0) (Some 0))).
  { split; intros k [= <-]; lia. }
  split_and!; try reflexivity.
  - intros s Hv Hrun Hn. by apply (HO (mkOptions (Some 0) q)).
  - intros s Hv Hrun Hn. by apply (HQ (mkOptions q (Some 0))).
  - intros s Hrun Hn.
    destruct (run_reachable _ evs s Hv0 Hrun) as [HS _].
    apply unsaturated_no_queue; [done| |].
    + by apply (HO (mkOptions (Some 0) (Some 0))).
    + by apply (HQ (mkOptions (Some 0) (Some 0))).
  - destruct b as [e|]; eexists; (split; [vm_compute; reflexivity|]);
      refine (bool_decide_unpack _ _); vm_compute; exact I.
Qed.

(** ** Further properties of the code *)

Lemma status_queued_submitted (l : list Effect) (id : nat) :
  status l id = Queued → ∃ t, Submitted id t ∈ l.
Proof.
  induction l as [|e l IH]; [done|]. simpl.
  assert (Hrec : status l id = Queued → ∃ t, Submitted id t ∈ e :: l).
  { intros H. destruct (IH H) as [t' Ht']. exists t'. by right. }
  destruct e as [i t|i t|i r|i|i r|q t|h t d|h]; try exact Hrec;
    destruct (decide (i = id)) as [->|Hne]; try exact Hrec; try discriminate.
  - intros _. exists t. by left.
  - intros H. apply Hrec. by destruct (status l id).
Qed.

Lemma nStarted_app_started (b : list Effect) (id : nat) (t : Z) (l : list Effect) :
  nStarted (b ++ Started id t :: l) = (nStarted b + S (nStarted l))%nat.
Proof. unfold nStarted, starts. by rewrite omap_app, length_app. Qed.

Lemma Hist_started_exists kO kQ (l : list Effect) (id : nat) :
  Hist kO kQ l → (1 ≤ id ≤ nStarted l)%nat → ∃ t, Started id t ∈ l.
Proof.
  induction l as [|e l IH]; intros HH Hid; [unfold nStarted in Hid; simpl in Hid; lia|].
  destruct HH as [He Hl].
  destruct e as [i t|i t|i r|i|i r|q t|h t d|h];
    try (destruct (IH Hl Hid) as [t' Ht']; exists t'; by right).
  destruct He as (-> & _).
  unfold nStarted in *. simpl in Hid.
  destruct (decide (id = S (length (starts l)))) as [->|Hne].
  - exists t. by left.
  - destruct (IH Hl ltac:(lia)) as [t' Ht']. exists t'. by right.
Qed.

(** X1 (no work is stranded).  In every reachable state in which an item is
    queued, a wake-up is pending: either the outstanding limit is reached
    and some started work is still running, whose completion runs
    [processWork], or the expiration timer is armed and its timeout is
    pending at the host. *)
Theorem no_stranded_work (o : AsyncThrottleOptions) (evs : list Event) (s : State) :
  valid_options o →
  run evs (constructor o) = Some s →
  queuedItems (log s) ≠ [] →
  (atMaxOutstanding s = true ∧ ∃ id, id ∈ reactions s) ∨
  (∃ t, timers s = [t] ∧ expiringWorkTimer s = Some (handle t)).
Proof.
  intros Hv Hrun HQ.
  destruct (run_reachable o evs s Hv Hrun) as [(j & m & n & HI & HT & HE & _) _].
  pose proof (inv_hist _ _ _ _ _ _ HI) as HH.
  assert (Hready : hasReadyWork s = true).
  { rewrite (hasReadyWork_spec _ _ _ _ _ _ HI). apply bool_decide_eq_true.
    rewrite (Hist_queued _ _ _ HH) in HQ.
    rewrite (inv_nStarted _ _ _ _ _ _ HI), (inv_nSubmitted _ _ _ _ _ _ HI) in HQ.
    destruct (decide (m < n)%nat); [done|].
    exfalso. apply HQ. by replace (n - m)%nat with 0%nat by lia. }
  unfold Exit, canExecuteWork in HE. rewrite Hready in HE. simpl in HE.
  destruct (atMaxOutstanding s) eqn:HO.
  - left. split; [done|].
    unfold atMaxOutstanding in HO. apply Z.leb_le in HO.
    pose proof (inv_maxOut _ _ _ _ _ _ HI). pose proof (inv_out _ _ _ _ _ _ HI) as Hout.
    destruct (reactions s) as [|id r]; [simpl in Hout; lia|].
    exists id. by left.
  - right. rewrite andb_true_r in HE. apply negb_false_iff in HE.
    assert (Hsome : is_Some (expiringWorkTimer s)).
    { apply HT. unfold timerCond. by rewrite Hready, HE, HO. }
    pose proof (inv_timer _ _ _ _ _ _ HI) as Htm.
    destruct Hsome as [h Hh]. rewrite Hh in Htm. destruct Htm as (t & Ht & <-).
    by exists t.
Qed.

Lemma no_stranded_work_witness :
  ∃ s, run (take 4 demo_events) (constructor demo_options) = Some s ∧
       ((atMaxOutstanding s = true ∧ ∃ id, id ∈ reactions s) ∨
        (∃ t, timers s = [t] ∧ expiringWorkTimer s = Some (handle t))).
Proof.
  eexists. split; [vm_compute; reflexivity|].
  apply (no_stranded_work demo_options (take 4 demo_events)).
  - exact demo_options_valid.
  - vm_compute; reflexivity.
  - vm_compute. discriminate.
Defined.

(** X2 (a work function is invoked at most once).  Whenever an item is
    started it had been submitted before, and neither before nor after that
    is it started again. *)
Theorem started_once (o : AsyncThrottleOptions) (evs : list Event) (s : State)
    (l1 l2 : list Effect) (id : nat) (t : Z) :
  valid_options o →
  run evs (constructor o) = Some s →
  log s = l1 ++ Started id t :: l2 →
  (∃ t0, Submitted id t0 ∈ l2) ∧
  (∀ t', Started id t' ∉ l1) ∧ (∀ t', Started id t' ∉ l2).
Proof.
  intros Hv Hrun Hl.
  destruct (run_reachable o evs s Hv Hrun) as [(j & m & n & HI & _) _].
  pose proof (inv_hist _ _ _ _ _ _ HI) as HH. rewrite Hl in HH.
  pose proof (Hist_suffix _ _ _ _ HH) as [(Hid & HQ & _) HH2].
  split; [by apply status_queued_submitted|]. split.
  - intros t' Hin. apply list_elem_of_split in Hin as (a & b & ->).
    rewrite <- app_assoc in HH. apply Hist_suffix in HH.
    destruct HH as [(Hid' & _) _].
    rewrite nStarted_app_started in Hid'. lia.
  - intros t' Hin.
    destruct (Hist_started_pos _ _ _ _ _ HH2 Hin) as [Hr _]. lia.
Qed.

Lemma started_once_witness :
  (∃ t0, Submitted 2 t0 ∈ drop 11 (log demo_state)) ∧
  (∀ t', Started 2 t' ∉ take 10 (log demo_state)).
Proof.
  destruct (started_once demo_options demo_events demo_state
              (take 10 (log demo_state)) (drop 11 (log demo_state)) 2 20
              demo_options_valid
              ltac:(vm_compute; reflexivity) ltac:(vm_compute; reflexivity))
    as (H1 & H2 & _).
  by split.
Defined.

(** X3 (items start, and expire, in list order).  Of two started items the
    one submitted earlier was started no later, so its [expirationTime] is
    no later either: the first item of the list is always the first to
    expire, which is what [purgeExpiredWork] relies on. *)
Theorem start_order (o : AsyncThrottleOptions) (evs : list Event) (s : State)
    (id id' : nat) (t t' : Z) :
  valid_options o →
  run evs (constructor o) = Some s →
  Started id t ∈ log s → Started id' t' ∈ log s → (id ≤ id')%nat →
  t ≤ t' ∧
  expirationTime (heap s !!! id) ≤ expirationTime (heap s !!! id').
Proof.
  intros Hv Hrun Hin Hin' Hle.
  destruct (run_reachable o evs s Hv Hrun) as [(j & m & n & HI & _) _].
  destruct (started_exp _ _ _ _ _ _ _ _ HI Hin) as [Hr He].
  destruct (started_exp _ _ _ _ _ _ _ _ HI Hin') as [Hr' He'].
  pose proof (inv_exp_mono _ _ _ _ _ _ HI id id' ltac:(lia) ltac:(lia)) as Hm.
  unfold exp in *. lia.
Qed.

Lemma start_order_witness :
  ∃ s, run demo_events (constructor demo_options) = Some s ∧
       expirationTime (heap s !!! 2%nat) ≤ expirationTime (heap s !!! 3%nat).
Proof.
  eexists. split; [vm_compute; reflexivity|].
  refine (proj2 (start_order demo_options demo_events _ 2 3 20 1000 demo_options_valid
                   ltac:(vm_compute; reflexivity) _ _ ltac:(lia))).
  - refine (bool_decide_unpack _ _). vm_compute. exact I.
  - refine (bool_decide_unpack _ _). vm_compute. exact I.
Defined.

(** X4 (the shape of the work list).  In every reachable state the list
    holds, in submission order and without repetition, first the started
    items that are still tracked (as many as [qpsCount] counts, completed or
    not) and then exactly the queued items. *)
Theorem list_structure (o : AsyncThrottleOptions) (evs : list Event) (s : State) :
  valid_options o →
  run evs (constructor o) = Some s →
  drop (Z.to_nat (qpsCount s)) (workItems s) = queuedItems (log s) ∧
  (∀ id, id ∈ take (Z.to_nat (qpsCount s)) (workItems s) → ∃ t, Started id t ∈ log s) ∧
  Z.of_nat (length (workItems s)) = qpsCount s + Z.of_nat (length (queuedItems (log s))) ∧
  NoDup (workItems s) ∧
  (∀ i k id id', workItems s !! i = Some id → workItems s !! k = Some id' →
                 (i < k)%nat → (id < id')%nat).
Proof.
  intros Hv Hrun.
  destruct (run_reachable o evs s Hv Hrun) as [(j & m & n & HI & _) _].
  pose proof (inv_hist _ _ _ _ _ _ HI) as HH.
  pose proof (inv_order _ _ _ _ _ _ HI) as Ho.
  rewrite (workItems_spec _ _ _ _ _ _ HI), (Hist_queued _ _ _ HH).
  rewrite (inv_nStarted _ _ _ _ _ _ HI), (inv_nSubmitted _ _ _ _ _ _ HI).
  rewrite (inv_qps _ _ _ _ _ _ HI).
  replace (Z.to_nat (Z.of_nat m - Z.of_nat j)) with (m - j)%nat by lia.
  split_and!.
  - rewrite drop_seq. f_equal; lia.
  - intros id Hid. rewrite take_seq in Hid. apply elem_of_seq in Hid.
    apply (Hist_started_exists _ _ _ id HH).
    rewrite (inv_nStarted _ _ _ _ _ _ HI). lia.
  - rewrite !length_seq. lia.
  - apply NoDup_seq.
  - intros i k id id' Hi Hk Hlt.
    apply lookup_seq in Hi as [-> _]. apply lookup_seq in Hk as [-> _]. lia.
Qed.

Lemma list_structure_witness :
  ∃ s, run (take 3 demo_events) (constructor demo_options) = Some s ∧
       drop (Z.to_nat (qpsCount s)) (workItems s) = queuedItems (log s) ∧
       NoDup (workItems s).
Proof.
  eexists. split; [vm_compute; reflexivity|].
  destruct (list_structure demo_options (take 3 demo_events) _ demo_options_valid
              ltac:(vm_compute; reflexivity)) as (H1 & _ & _ & H4 & _).
  by split.
Defined.

(** X5 (the pointer to the ready work).  In every reachable state
    [readyWorkPredecessor.next] is the oldest queued item, and the sentinel
    [workList] when no item is queued. *)
Theorem ready_pointer (o : AsyncThrottleOptions) (evs : list Event) (s : State) :
  valid_options o →
  run evs (constructor o) = Some s →
  next (heap s !!! readyWorkPredecessor s) =
  default workList (head (queuedItems (log s))).
Proof.
  intros Hv Hrun.
  destruct (run_reachable o evs s Hv Hrun) as [(j & m & n & HI & _) _].
  pose proof (inv_hist _ _ _ _ _ _ HI) as HH.
  pose proof (inv_order _ _ _ _ _ _ HI) as Ho.
  rewrite (Hist_queued _ _ _ HH).
  rewrite (inv_nStarted _ _ _ _ _ _ HI), (inv_nSubmitted _ _ _ _ _ _ HI).
  destruct (decide (m < n)%nat) as [Hlt|Hge].
  - rewrite (ready_next _ _ _ _ _ _ HI Hlt).
    by destruct (n - m)%nat eqn:Hd; [lia|].
  - replace (n - m)%nat with 0%nat by lia. simpl.
    pose proof (hasReadyWork_spec _ _ _ _ _ _ HI) as Hr.
    rewrite bool_decide_eq_false_2 in Hr by done.
    unfold hasReadyWork in Hr. apply negb_false_iff, Nat.eqb_eq in Hr. exact Hr.
Qed.

Lemma ready_pointer_witness :
  ∃ s, run (take 3 demo_events) (constructor demo_options) = Some s ∧
       next (heap s !!! readyWorkPredecessor s) = 2%nat.
Proof.
  eexists. split; [vm_compute; reflexivity|].
  refine (eq_trans (ready_pointer demo_options (take 3 demo_events) _
                      demo_options_valid _) _);
    vm_compute; reflexivity.
Defined.

(** X6 (a future settles after the bookkeeping).  Whenever the future of an
    item is settled with [o], the item had been started, its work had
    produced [o], and its [cleanup] had already run. *)
Theorem settled_after_cleanup (o : AsyncThrottleOptions) (evs : list Event) (s : State)
    (l1 l2 : list Effect) (id : nat) (r : Outcome) :
  valid_options o →
  run evs (constructor o) = Some s →
  log s = l1 ++ Settled id r :: l2 →
  (∃ t, Started id t ∈ l2) ∧ Produced id r ∈ l2 ∧ Completed id ∈ l2 ∧
  (∀ r', Settled id r' ∉ l2).
Proof.
  intros Hv Hrun Hl.
  destruct (run_reachable o evs s Hv Hrun) as [(j & m & n & HI & _) _].
  pose proof (inv_hist _ _ _ _ _ _ HI) as HH. rewrite Hl in HH.
  apply Hist_suffix in HH. destruct HH as [He HH]. simpl in He.
  destruct (Hist_item _ _ _ id HH) as (_ & Hset & Hprod & Hcomp).
  destruct (Hist_range _ _ _ HH) as [Hle Hst]. destruct (Hst id) as [HA HQ].
  split_and!.
  - apply (Hist_started_exists _ _ _ id HH).
    destruct (decide (id = 0 ∨ nSubmitted l2 < id)%nat) as [Hx|Hx].
    { apply HA in Hx. congruence. }
    destruct (decide (nStarted l2 < id ≤ nSubmitted l2)%nat) as [Hy|Hy].
    { apply HQ in Hy. congruence. }
    lia.
  - apply Hprod. right. by left.
  - apply Hcomp. exists r. by left.
  - intros r' Hin%Hset. congruence.
Qed.

Lemma settled_after_cleanup_witness :
  Produced 2 (Rejected (Thrown 5)) ∈ drop 7 (log demo_state) ∧
  Completed 2 ∈ drop 7 (log demo_state).
Proof.
  destruct (settled_after_cleanup demo_options demo_events demo_state
              (take 6 (log demo_state)) (drop 7 (log demo_state)) 2 (Rejected (Thrown 5))
              demo_options_valid
              ltac:(vm_compute; reflexivity) ltac:(vm_compute; reflexivity))
    as (_ & H1 & H2 & _).
  by split.
Defined.

(** X7 (a settled future stays settled).  No later event changes the
    outcome of a future that has settled. *)
Theorem settled_stays (o : AsyncThrottleOptions) (evs : list Event) (s s' : State)
    (ev : Event) (id : nat) (r : Outcome) :
  valid_options o →
  run evs (constructor o) = Some s →
  step ev s = Some s' →
  whenComplete (heap s !!! id) = Some r →
  whenComplete (heap s' !!! id) = Some r.
Proof.
  intros Hv Hrun Hstep Hw.
  destruct (run_reachable o evs s Hv Hrun) as [HS _].
  unfold step in Hstep. destruct (enabled ev s) eqn:Hen; [|done].
  destruct (handleEvent_Stable s ev HS Hen) as (s1 & E & HS1%StableAt_Stable).
  assert (s1 = s') as -> by congruence.
  destruct (handleEvent_Frame _ _ _ E) as (_ & _ & [l Hl] & _).
  apply (proj1 (Stable_settled s id r HS)) in Hw.
  apply (proj1 (Stable_settled s' id r HS1)).
  rewrite Hl. apply elem_of_app. by right.
Qed.

Lemma settled_stays_witness :
  whenComplete (heap (demo_at 5) !!! 1%nat) = Some (Fulfilled 7%nat).
Proof.
  apply (settled_stays demo_options (take 4 demo_events) (demo_at 4) (demo_at 5)
           (TimerFires 1000 1) 1 (Fulfilled 7%nat) demo_options_valid);
    vm_compute; reflexivity.
Defined.

Lemma purgeExpiredWork_exp (fuel : nat) (now : Z) : ∀ s s',
  purgeExpiredWork fuel now s = Some s' → ∀ i, exp (heap s') i = exp (heap s) i.
Proof.
  induction fuel as [|fuel IH]; intros s s' E i; [done|].
  simpl in E. destruct (hasExpiredWork now s); [|by injection E as <-].
  apply IH with (i := i) in E. rewrite E.
  destruct (_ =? _)%nat; simpl; apply exp_remove.
Qed.

Lemma purgeExpiredWork_set_clock (fuel : nat) (now t : Z) : ∀ s,
  purgeExpiredWork fuel now (set_clock t s) =
  set_clock t <$> purgeExpiredWork fuel now s.
Proof.
  induction fuel as [|fuel IH]; intros s; [done|].
  simpl. change (hasExpiredWork now (set_clock t s)) with (hasExpiredWork now s).
  destruct (hasExpiredWork now s); [|done].
  rewrite <- IH. f_equal. simpl. by destruct (_ =? _)%nat.
Qed.

Lemma Fresh_not_expired cur stack j m n s now i :
  Inv cur stack j m n s → Fresh now j m (heap s) → (i = 0 ∨ j < i)%nat →
  isExpired now (heap s !!! i) = false.
Proof.
  intros HI HF Hi.
  destruct (isExpired now (heap s !!! i)) eqn:HE; [|done].
  apply isExpired_spec in HE as [Hne Hle]. exfalso.
  destruct (decide (i = 0 ∨ m < i)%nat) as [Hq|Hq].
  - by pose proof (inv_exp_queued _ _ _ _ _ _ HI i Hq).
  - pose proof (HF i ltac:(lia)) as Hf. unfold exp in Hf. lia.
Qed.

(** X8 ([purgeExpiredWork] removes exactly the expired items).  Called at
    a time [now] that is not before the last turn, in a reachable state,
    [purgeExpiredWork] returns; it unlinks exactly the items that are
    expired at [now] and keeps the others in their order; [qpsCount] is
    decreased by the number of items removed; afterwards no work is
    expired; and nothing else changes: not the history, not
    [outstandingCount], not the timer. *)
Theorem purge_exact (o : AsyncThrottleOptions) (evs : list Event) (s : State) (now : Z) :
  valid_options o →
  run evs (constructor o) = Some s →
  clock s ≤ now →
  ∃ s', purgeExpiredWork (nextWork s) now s = Some s' ∧
        workItems s' = filter (λ id, isExpired now (heap s !!! id) = false) (workItems s) ∧
        qpsCount s' = qpsCount s -
          Z.of_nat (length (filter (λ id, isExpired now (heap s !!! id) = true)
                              (workItems s))) ∧
        hasExpiredWork now s' = false ∧
        log s' = log s ∧ outstandingCount s' = outstandingCount s ∧
        expiringWorkTimer s' = expiringWorkTimer s.
Proof.
  intros Hv Hrun Hc.
  destruct (run_reachable o evs s Hv Hrun) as [(j & m & n & HI & _) _].
  pose proof (set_clock_Inv _ _ _ _ _ _ now HI Hc) as HI1.
  pose proof (inv_order _ _ _ _ _ _ HI) as Ho.
  destruct (purgeExpiredWork_Inv now [] (nextWork s) j m n (set_clock now s) HI1 eq_refl)
    as (s1 & j' & E1 & Hj & HI' & HF & Hc1 & Hl1 & Ht1 & Ho1).
  { rewrite (inv_nextWork _ _ _ _ _ _ HI). lia. }
  pose proof (inv_order _ _ _ _ _ _ HI') as Ho'.
  pose proof (purgeExpiredWork_exp _ _ _ _ E1) as Hexp.
  rewrite purgeExpiredWork_set_clock in E1.
  destruct (purgeExpiredWork (nextWork s) now s) as [s'|] eqn:E; [|done].
  simpl in E1. injection E1 as <-.
  exists s'. split; [done|].
  assert (Hold : ∀ i, (j < i ≤ j')%nat → isExpired now (heap s !!! i) = true).
  { intros i Hi. apply isExpired_spec.
    pose proof (inv_exp_purged _ _ _ _ _ _ HI' i ltac:(lia)) as Hp.
    pose proof (inv_exp_hi _ _ _ _ _ _ HI' i ltac:(lia)) as Hh.
    rewrite (Hexp i) in Hp, Hh. unfold exp in *. simpl in *. lia. }
  assert (Hnew : ∀ i, (i = 0 ∨ j' < i)%nat → isExpired now (heap s !!! i) = false).
  { intros i Hi.
    pose proof (Fresh_not_expired _ _ _ _ _ _ now i HI' HF Hi) as Hf.
    destruct (isExpired now (heap s !!! i)) eqn:HE; [|done].
    apply isExpired_spec in HE. 
    assert (isExpired now (heap (set_clock now s') !!! i) = true); [|congruence].
    apply isExpired_spec. pose proof (Hexp i) as Hx. unfold exp in Hx. simpl in *.
    by rewrite Hx. }
  assert (Hw : workItems s = seq (S j) (j' - j) ++ seq (S j') (n - j')).
  { rewrite (workItems_spec _ _ _ _ _ _ HI).
    replace (n - j)%nat with ((j' - j) + (n - j'))%nat by lia.
    rewrite seq_app. do 2 f_equal. lia. }
  assert (Hw' : workItems s' = seq (S j') (n - j')).
  { exact (workItems_spec _ _ _ _ _ _ HI'). }
  split_and!.
  - rewrite Hw, Hw', filter_app, filter_none, filter_all; [done|..].
    + intros i Hi%elem_of_seq. apply Hnew. lia.
    + intros i Hi%elem_of_seq. rewrite Hold by lia. done.
  - rewrite Hw, filter_app, filter_all, filter_none, app_nil_r, length_seq.
    + pose proof (inv_qps _ _ _ _ _ _ HI') as Hq'. simpl in Hq'.
      rewrite Hq', (inv_qps _ _ _ _ _ _ HI). lia.
    + intros i Hi%elem_of_seq. rewrite Hnew by lia. done.
    + intros i Hi%elem_of_seq. apply Hold. lia.
  - unfold hasExpiredWork.
    pose proof (first_spec _ _ _ _ _ _ HI') as Hf.
    change (first (set_clock now s')) with (first s') in Hf.
    pose proof (Fresh_not_expired _ _ _ _ _ _ now (first s') HI' HF) as Hfe.
    apply Hfe. rewrite Hf. destruct (j' <? n)%nat; unfold workList; lia.
  - exact Hl1.
  - exact Ho1.
  - exact Ht1.
Qed.

Lemma purge_exact_witness :
  ∃ s', purgeExpiredWork (nextWork (demo_at 4)) 1010 (demo_at 4) = Some s' ∧
        workItems s' = [2; 3]%nat ∧ qpsCount s' = 1.
Proof.
  destruct (purge_exact demo_options (take 4 demo_events) (demo_at 4) 1010
              demo_options_valid ltac:(vm_compute; reflexivity)
              ltac:(vm_compute; discriminate))
    as (s' & E & Hw & Hq & _).
  exists s'. split; [exact E|]. split.
  - rewrite Hw. vm_compute. reflexivity.
  - rewrite Hq. vm_compute. reflexivity.
Defined.

(** X9 ([updateTimer] is idempotent).  In every state, a second call of
    [updateTimer], at whatever time, changes nothing; and [updateTimer]
    never touches the work list or the counters. *)
Theorem updateTimer_idempotent (now now' : Z) (s : State) :
  updateTimer now' (updateTimer now s) = updateTimer now s ∧
  heap (updateTimer now s) = heap s ∧
  readyWorkPredecessor (updateTimer now s) = readyWorkPredecessor s ∧
  outstandingCount (updateTimer now s) = outstandingCount s ∧
  qpsCount (updateTimer now s) = qpsCount s.
Proof.
  unfold updateTimer.
  destruct (hasReadyWork s && atMaxQps s && negb (atMaxOutstanding s)) eqn:Hc;
    destruct (expiringWorkTimer s) as [h|] eqn:Ht; simpl;
    repeat match goal with
    | |- context [hasReadyWork ?x && atMaxQps ?x && negb (atMaxOutstanding ?x)] =>
        change (hasReadyWork x && atMaxQps x && negb (atMaxOutstanding x))
          with (hasReadyWork s && atMaxQps s && negb (atMaxOutstanding s));
        rewrite Hc
    end; rewrite ?Ht; simpl; done.
Qed.

(** X10 ([processWork] is idempotent).  Right after a turn that ran
    [processWork] (a submission or a timer), running [processWork] again at
    the same time changes nothing: nothing is purged, nothing is started,
    and the timer is left as it is. *)
Theorem processWork_idempotent (o : AsyncThrottleOptions) (evs : list Event)
    (s0 s : State) (ev : Event) (fuel : nat) :
  valid_options o →
  run evs (constructor o) = Some s0 →
  step ev s0 = Some s →
  isPass ev = true →
  processWork (S fuel) (clock s) s = Some s.
Proof.
  intros Hv Hrun Hstep Hp.
  destruct (run_reachable o evs s0 Hv Hrun) as [HS0 _].
  unfold step in Hstep. destruct (enabled ev s0) eqn:Hen; [|done].
  destruct (handleEvent_Stable s0 ev HS0 Hen) as (s1 & E & HS1).
  assert (s1 = s) as -> by congruence. rewrite Hp in HS1.
  destruct HS1 as (j & m & n & HI & HT & HE & HF). specialize (HF eq_refl).
  assert (Hexp : hasExpiredWork (clock s) s = false).
  { unfold hasExpiredWork. apply (Fresh_not_expired _ _ _ _ _ _ _ _ HI HF).
    rewrite (first_spec _ _ _ _ _ _ HI). destruct (j <? n)%nat; unfold workList; lia. }
  unfold processWork, processWorkWith.
  rewrite (inv_nextWork _ _ _ _ _ _ HI). simpl. rewrite Hexp. simpl.
  unfold Exit in HE. rewrite HE. simpl. f_equal.
  unfold updateTimer. unfold TimerOK, timerCond in HT.
  destruct (hasReadyWork s && atMaxQps s && negb (atMaxOutstanding s)).
  - destruct (proj2 HT eq_refl) as [h ->]. done.
  - destruct (expiringWorkTimer s) as [h|] eqn:Ht; [|done].
    by assert (false = true) by (apply HT; by eexists).
Qed.

Lemma processWork_idempotent_witness :
  processWork 1 (clock (demo_at 3)) (demo_at 3) = Some (demo_at 3).
Proof.
  apply (processWork_idempotent demo_options (take 2 demo_events) (demo_at 2) (demo_at 3)
           (CallThrottled 10 ReturnsPromise) 0 demo_options_valid);
    vm_compute; reflexivity.
Defined.

(** X11 ([insertAfter] and [remove] are inverse).  Let [work] be linked to
    its successor, and [this] be neither of the two.  After
    [this.insertAfter(work)] the four links around [this] are consistent;
    and [this.remove()] then restores every other object of the store,
    while [this] keeps its own two links. *)
Theorem insertAfter_remove (h : gmap nat Work) (this work : nat) :
  this ≠ work → this ≠ next (h !!! work) →
  prev (h !!! next (h !!! work)) = work →
  let h1 := insertAfter this work h in
  let h2 := remove this h1 in
  next (h1 !!! work) = this ∧ prev (h1 !!! this) = work ∧
  next (h1 !!! this) = next (h !!! work) ∧
  prev (h1 !!! next (h !!! work)) = this ∧
  (∀ i, i ≠ this → h2 !!! i = h !!! i) ∧
  prev (h2 !!! this) = work ∧ next (h2 !!! this) = next (h !!! work).
Proof.
  intros Hne Hne' Hlink. cbv zeta.
  remember (next (h !!! work)) as nx eqn:Hnx.
  assert (H1 : ∀ i, insertAfter this work h !!! i =
    if decide (i = nx) then
      set_prev this (if decide (i = work) then set_next this (h !!! i) else h !!! i)
    else if decide (i = work) then set_next this (h !!! i)
    else if decide (i = this) then set_next nx (set_prev work (h !!! i))
    else h !!! i).
  { intros i. rewrite insertAfter_eq by done. rewrite <- Hnx.
    rewrite !lookup_write.
    repeat case_decide; subst; try done; try congruence. }
  assert (Hp : prev (insertAfter this work h !!! this) = work).
  { rewrite H1. repeat case_decide; subst; try done; congruence. }
  assert (Hn : next (insertAfter this work h !!! this) = nx).
  { rewrite H1. repeat case_decide; subst; try done; congruence. }
  assert (H2 : ∀ i, remove this (insertAfter this work h) !!! i =
    if decide (i = nx) then
      set_prev work (if decide (i = work) then set_next nx (insertAfter this work h !!! i)
                     else insertAfter this work h !!! i)
    else if decide (i = work) then set_next nx (insertAfter this work h !!! i)
    else insertAfter this work h !!! i).
  { intros i. rewrite remove_eq by (rewrite Hp; congruence).
    rewrite Hp, Hn. rewrite !lookup_write.
    repeat case_decide; subst; try done; try congruence. }
  split_and!.
  - rewrite H1. repeat case_decide; subst; try done; congruence.
  - exact Hp.
  - exact Hn.
  - rewrite H1. repeat case_decide; subst; try done; congruence.
  - intros i Hi. rewrite H2, !H1.
    destruct (decide (i = this)) as [|_]; [done|].
    destruct (decide (i = nx)) as [Hx|Hx], (decide (i = work)) as [Hw|Hw];
      destruct (h !!! i) as [a b c d e] eqn:Hh; unfold set_prev, set_next; simpl;
      try (rewrite <- Hx in Hlink; rewrite Hh in Hlink; simpl in Hlink);
      try (rewrite <- Hw in Hnx; rewrite Hh in Hnx; simpl in Hnx);
      congruence.
  - rewrite H2, H1. repeat case_decide; subst; try done; congruence.
  - rewrite H2, H1. repeat case_decide; subst; try done; congruence.
Qed.

Lemma insertAfter_remove_witness :
  remove 1 (insertAfter 1 workList (heap (constructor demo_options))) !!! workList =
  heap (constructor demo_options) !!! workList.
Proof.
  refine (proj1 (proj2 (proj2 (proj2 (proj2
            (insertAfter_remove (heap (constructor demo_options)) 1 workList _ _ _)))))
            workList _).
  - vm_compute. discriminate.
  - vm_compute. discriminate.
  - vm_compute. reflexivity.
  - vm_compute. discriminate.
Defined.

(** X12 ([callAllThrottled] keeps the index of every result).  After the
    call and any later host events, the array [results] has the length of
    the array of functions, and [results[i]] holds a value exactly when the
    future of the [i]-th function, which is item [i+1] of the one throttle
    that the call created, is fulfilled with that value. *)
Theorem callAllThrottled_results (options : AsyncThrottleOptions) (now : Z)
    (fns : list StartResult) (evs : list Event) (c : Call) :
  valid_options options → 0 ≤ now →
  callAllThrottled now fns options ≫= hostRun evs = Some c →
  run (map (CallThrottled now) fns ++ evs) (constructor options) = Some (throttle c) ∧
  (∀ i b, fns !! i = Some b → startWork (heap (throttle c) !!! S i) = b) ∧
  length (results (aggregate c)) = length fns ∧
  (∀ i v, results (aggregate c) !! i = Some (Some v) ↔
          whenComplete (heap (throttle c) !!! S i) = Some (Fulfilled v)).
Proof.
  intros Hv Hnow E.
  destruct (callAllThrottled_aggregate options now fns Hv Hnow) as (c0 & E0 & H).
  rewrite E0 in E. simpl in E.
  destruct (H evs c E) as (H1 & H2 & H3 & H4 & _).
  by split_and!.
Qed.

Lemma callAllThrottled_results_witness :
  results (aggregate all_waits_done) !! 2%nat = Some (Some 3%nat).
Proof.
  apply (callAllThrottled_results (mkOptions None (Some 1)) 0
           [ReturnsPromise; ReturnsPromise; ReturnsPromise]
           [ WorkSettles 0 1 (Fulfilled 1%nat); TimerFires 1000 1;
             WorkSettles 1000 2 (Fulfilled 2%nat); TimerFires 2000 2;
             WorkSettles 5000 3 (Fulfilled 3%nat) ] all_waits_done).
  - split; intros k [= <-]; lia.
  - lia.
  - vm_compute; reflexivity.
  - vm_compute; reflexivity.
Defined.

(** X13 (when [callAllThrottled] resolves).  The returned promise is
    resolved exactly when the array of functions is not empty and the
    future of every item is fulfilled; [results] then holds the value of
    every item at its index. *)
Theorem callAllThrottled_resolves (options : AsyncThrottleOptions) (now : Z)
    (fns : list StartResult) (evs : list Event) (c : Call) :
  valid_options options → 0 ≤ now →
  callAllThrottled now fns options ≫= hostRun evs = Some c →
  allPromise (aggregate c) = Some ResolvedWithResults ↔
  fns ≠ [] ∧
  ∀ i, (i < length fns)%nat →
       ∃ v, whenComplete (heap (throttle c) !!! S i) = Some (Fulfilled v) ∧
            results (aggregate c) !! i = Some (Some v).
Proof.
  intros Hv Hnow E.
  destruct (callAllThrottled_aggregate options now fns Hv Hnow) as (c0 & E0 & H).
  rewrite E0 in E. simpl in E.
  destruct (H evs c E) as (_ & _ & _ & H4 & H5 & _).
  rewrite H5. split.
  - intros [Hn Hall]. split; [by destruct fns; [simpl in Hn; lia|]|].
    intros i Hi. destruct (Hall i Hi) as [v Hw]. exists v. split; [done|]. by apply H4.
  - intros [Hn Hall]. split; [destruct fns; [done|simpl; lia]|].
    intros i Hi. destruct (Hall i Hi) as (v & Hw & _). by exists v.
Qed.

Lemma callAllThrottled_resolves_witness :
  allPromise (aggregate all_waits_done) = Some ResolvedWithResults.
Proof.
  apply (callAllThrottled_resolves (mkOptions None (Some 1)) 0
           [ReturnsPromise; ReturnsPromise; ReturnsPromise]
           [ WorkSettles 0 1 (Fulfilled 1%nat); TimerFires 1000 1;
             WorkSettles 1000 2 (Fulfilled 2%nat); TimerFires 2000 2;
             WorkSettles 5000 3 (Fulfilled 3%nat) ] all_waits_done).
  - split; intros k [= <-]; lia.
  - lia.
  - vm_compute; reflexivity.
  - split; [done|]. intros i Hi.
    destruct i as [|[|[|i]]]; [by exists 1%nat|by exists 2%nat|by exists 3%nat|].
    simpl in Hi. lia.
Defined.

Lemma firstError_snoc d p :
  firstError (d ++ [p]) =
  match p.2 with Rejected e => Some e | Fulfilled _ => firstError d end.
Proof.
  induction d as [|q d IH].
  - simpl. by destruct p.2.
  - rewrite <- app_comm_cons, !firstError_cons, IH.
    destruct p.2; [|done]. by destruct (firstError d).
Qed.

Lemma firstError_reverse d : firstError (reverse d) = firstRejection d.
Proof.
  induction d as [|p d IH]; [done|].
  rewrite reverse_cons, firstError_snoc. simpl. by destruct p.2.
Qed.

Lemma firstRejection_first d e :
  firstRejection d = Some e ↔
  ∃ d1 id d2, d = d1 ++ (id, Rejected e) :: d2 ∧ ∀ p, p ∈ d1 → isFulfilled p.2 = true.
Proof.
  induction d as [|[id o] d IH]; simpl.
  - split; [done|]. intros (d1 & ? & ? & H & _). by destruct d1.
  - destruct o as [v|e']; simpl.
    + rewrite IH. split.
      * intros (d1 & id' & d2 & -> & Hall). exists ((id, Fulfilled v) :: d1), id', d2.
        split; [done|]. intros p Hp. apply elem_of_cons in Hp as [Hp|Hp]; [by subst|by apply Hall].
      * intros (d1 & id' & d2 & Hd & Hall). destruct d1 as [|q d1].
        -- by injection Hd.
        -- injection Hd as Hq ->. exists d1, id', d2. split; [done|].
           intros p Hp. apply Hall. by right.
    + split.
      * intros [= ->]. exists [], id, d. split; [done|]. by intros p ?%elem_of_nil.
      * intros (d1 & id' & d2 & Hd & Hall). destruct d1 as [|q d1].
        -- by injection Hd as -> ->.
        -- injection Hd as <- _. specialize (Hall (id, Rejected e')). simpl in Hall.
           discriminate Hall. by left.
Qed.

Lemma react_AggOK n s d :
  NoDup d.*1 → (∀ p, p ∈ d → (1 ≤ p.1 ≤ n)%nat) →
  AggOK n (reverse d) (aggregate (react n s d)).
Proof.
  intros Hnd Hr. unfold react.
  assert (Hgen : ∀ d c, notified (foldl (λ c p, notify p c) c d) = reverse d ++ notified c).
  { clear. induction d as [|p d IH]; intros c; [done|].
    simpl. rewrite IH, reverse_cons. simpl. by rewrite <- app_assoc. }
  pose proof (foldl_notify_AggOK n d
                (mkCall s (mkAggregate false (replicate n None) (Z.of_nat n) None) [])
                (AggOK_init n) Hnd) as H.
  destruct H as (HA & _).
  - intros p Hp. split; [|by apply Hr]. simpl. by intros ?%elem_of_nil.
  - by rewrite Hgen, app_nil_r in HA.
Qed.

(** X14 (when [callAllThrottled] rejects).  At every point between two
    host events: if the future of some item is rejected, the returned
    promise is rejected; if the returned promise is rejected with [e], then
    [e] is the error with which the future of one of the items was
    rejected; and once the promise is settled, no later event changes it.
    Which of several errors it is depends on the order in which the
    reactions run, and that order is not the model's to fix: for EVERY
    sequence [d] of reactions, one for each settled future at most, the
    closure rejects the returned promise with the error of the first
    rejection in [d]; without a rejection it resolves it when the last of
    the [n > 0] values has arrived, and leaves it pending before. *)
Theorem callAllThrottled_rejects (options : AsyncThrottleOptions) (now : Z)
    (fns : list StartResult) (evs : list Event) (c : Call) :
  valid_options options → 0 ≤ now →
  callAllThrottled now fns options ≫= hostRun evs = Some c →
  (∀ id e, whenComplete (heap (throttle c) !!! id) = Some (Rejected e) →
           ∃ e', allPromise (aggregate c) = Some (RejectedWith e')) ∧
  (∀ e, allPromise (aggregate c) = Some (RejectedWith e) →
        ∃ id, (1 ≤ id ≤ length fns)%nat ∧
              whenComplete (heap (throttle c) !!! id) = Some (Rejected e)) ∧
  (∀ ev c' x, allPromise (aggregate c) = Some x → hostStep ev c = Some c' →
              allPromise (aggregate c') = Some x) ∧
  (∀ (s : State) (d : list (nat * Outcome)),
     NoDup d.*1 → (∀ p, p ∈ d → (1 ≤ p.1 ≤ length fns)%nat) →
     allPromise (aggregate (react (length fns) s d)) =
       match firstRejection d with
       | Some e => Some (RejectedWith e)
       | None => if (length d =? length fns)%nat && (0 <? length fns)%nat
                 then Some ResolvedWithResults else None
       end ∧
     ∀ e, allPromise (aggregate (react (length fns) s d)) = Some (RejectedWith e) ↔
          ∃ d1 id d2, d = d1 ++ (id, Rejected e) :: d2 ∧
                      ∀ p, p ∈ d1 → isFulfilled p.2 = true).
Proof.
  intros Hv Hnow E.
  destruct (callAllThrottled_CallInv options now fns Hv Hnow) as (c0 & E0' & HC0 & Hn0 & _).
  destruct (callAllThrottled_aggregate options now fns Hv Hnow) as (c0' & E0 & H).
  rewrite E0 in E0'. injection E0' as ->.
  rewrite E0 in E. simpl in E.
  destruct (hostRun_CallInv _ _ _ _ HC0 Hn0 E) as ((_ & HA & _) & _).
  destruct (H evs c E) as (_ & _ & _ & _ & _ & H6 & H7 & H8 & _ & H10 & _).
  assert (HR : ∀ (s : State) (d : list (nat * Outcome)),
     NoDup d.*1 → (∀ p, p ∈ d → (1 ≤ p.1 ≤ length fns)%nat) →
     allPromise (aggregate (react (length fns) s d)) =
       match firstRejection d with
       | Some e => Some (RejectedWith e)
       | None => if (length d =? length fns)%nat && (0 <? length fns)%nat
                 then Some ResolvedWithResults else None
       end).
  { intros s d Hnd Hr.
    pose proof (react_AggOK (length fns) s d Hnd Hr) as HAd.
    rewrite (agg_promise _ _ _ HAd), firstError_reverse.
    destruct (firstRejection d) as [e|] eqn:Hf; [done|].
    rewrite (agg_count _ _ _ HAd).
    rewrite <- firstError_reverse in Hf. apply firstError_None in Hf.
    rewrite Hf, length_reverse.
    destruct (decide (length d = length fns)) as [Hl|Hl].
    - rewrite Hl, Nat.eqb_refl. by replace (_ - _ =? 0) with true by lia.
    - replace (length d =? length fns)%nat with false by (symmetry; by apply Nat.eqb_neq).
      by replace (_ - _ =? 0) with false by lia. }
  split_and!; [done| |done|].
  - intros e He. apply H6 in He.
    destruct (firstError_first _ _ He) as (d2 & id & d1 & Hd & _).
    assert (Hin : (id, Rejected e) ∈ notified c).
    { rewrite Hd. apply elem_of_app. right. by left. }
    exists id. split; [exact (agg_range _ _ _ HA _ Hin)|by apply H8].
  - intros s d Hnd Hr. split; [by apply HR|].
    intros e. rewrite (HR s d Hnd Hr), <- firstRejection_first.
    destruct (firstRejection d) as [e'|]; [split; congruence|].
    split; [|done]. by destruct (_ && _).
Qed.

Lemma callAllThrottled_rejects_witness :
  (∃ e', allPromise (aggregate all_rejects_done) = Some (RejectedWith e')) ∧
  allPromise (aggregate (react 4 (throttle all_rejects_done)
     [ (4%nat, Rejected (Thrown 4)); (1%nat, Rejected (Thrown 1));
       (2%nat, Rejected (Thrown 2)); (3%nat, Fulfilled 3%nat) ]))
  = Some (RejectedWith (Thrown 4)).
Proof.
  destruct (callAllThrottled_rejects (mkOptions None None) 0
           [ReturnsPromise; ReturnsPromise; ReturnsPromise; ReturnsPromise]
           [ WorkSettles 0 1 (Fulfilled 1%nat); WorkSettles 0 2 (Rejected (Thrown 2));
             WorkSettles 0 3 (Fulfilled 3%nat); WorkSettles 0 4 (Fulfilled 4%nat) ]
           all_rejects_done
           ltac:(split; intros k [= <-]; lia) ltac:(lia) ltac:(vm_compute; reflexivity))
    as (H1 & _ & _ & H4).
  split.
  - apply (H1 2%nat (Thrown 2)). vm_compute; reflexivity.
  - refine (eq_trans (proj1 (H4 (throttle all_rejects_done)
              [ (4%nat, Rejected (Thrown 4)); (1%nat, Rejected (Thrown 1));
                (2%nat, Rejected (Thrown 2)); (3%nat, Fulfilled 3%nat) ] _ _)) _).
    + refine (bool_decide_unpack _ _). vm_compute. exact I.
    + intros p Hp. repeat (apply elem_of_cons in Hp as [->|Hp]; [simpl; lia|]).
      by apply elem_of_nil in Hp.
    + reflexivity.
Defined.

Lemma Starved_processWork (now : Z) (fuel : nat) (s : State) :
  Starved s → processWork (S fuel) now s = Some (updateTimer now s).
Proof.
  intros (Hneg & Ho & Hq & _ & Hh & _ & Hn & _).
  unfold processWork, processWorkWith.
  destruct (nextWork s) as [|k] eqn:Hk; [lia|]. simpl.
  unfold hasExpiredWork, isExpired.
  rewrite (proj1 (Hh (first s))). simpl.
  assert (Hc : canExecuteWork s = false).
  { unfold canExecuteWork, atMaxQps, atMaxOutstanding. rewrite Ho, Hq.
    destruct Hneg as [H|H].
    - rewrite (proj2 (Z.leb_le (maxOutstanding s) 0)) by lia. apply andb_false_r.
    - by rewrite (proj2 (Z.leb_le (maxQps s) 0)) by lia. }
  by rewrite Hc, andb_false_r.
Qed.

Lemma Starved_updateTimer (now : Z) (s : State) :
  Starved s → Starved (updateTimer now s).
Proof.
  intros (Hneg & Ho & Hq & Hr & Hh & Hl & Hn & Hw).
  unfold updateTimer.
  destruct (hasReadyWork s && atMaxQps s && negb (atMaxOutstanding s));
    destruct (expiringWorkTimer s); unfold Starved; simpl;
    split_and!; try done; by constructor.
Qed.

Lemma Starved_enqueued (now : Z) (b : StartResult) (s : State) :
  Starved s →
  Starved (enqueued now b s) ∧ nextWork (enqueued now b s) = S (nextWork s).
Proof.
  intros (Hneg & Ho & Hq & Hr & Hh & Hl & Hn & Hw).
  assert (Hdata : ∀ i,
    data (insertAfter (nextWork s)
            (prev (<[nextWork s := mkWork b None 0 (nextWork s) (nextWork s)]> (heap s)
                   !!! workList))
            (<[nextWork s := mkWork b None 0 (nextWork s) (nextWork s)]> (heap s)) !!! i)
    = if decide (nextWork s = i) then (b, None, 0) else data (heap s !!! i)).
  { intros i. rewrite insertAfter_data, lookup_total_insert. by case_decide. }
  assert (Hfield : ∀ i,
    expirationTime
      (insertAfter (nextWork s)
         (prev (<[nextWork s := mkWork b None 0 (nextWork s) (nextWork s)]> (heap s)
                !!! workList))
         (<[nextWork s := mkWork b None 0 (nextWork s) (nextWork s)]> (heap s)) !!! i) = 0 ∧
    whenComplete
      (insertAfter (nextWork s)
         (prev (<[nextWork s := mkWork b None 0 (nextWork s) (nextWork s)]> (heap s)
                !!! workList))
         (<[nextWork s := mkWork b None 0 (nextWork s) (nextWork s)]> (heap s)) !!! i) = None).
  { intros i. specialize (Hdata i). unfold data in Hdata.
    destruct (Hh i) as [He Hc].
    case_decide; injection Hdata as _ -> ->; done. }
  unfold enqueued, onWorkItemEnqueued, last. cbv zeta. simpl.
  destruct (whenQuiescent s) as [q|] eqn:HQ; unfold Starved; simpl;
    (split; [|done]); split_and!; try done; try (by constructor); try lia;
    try (intros _; by eexists).
Qed.

Lemma Starved_step (ev : Event) (s : State) :
  Starved s → enabled ev s = true →
  ∃ s', step ev s = Some s' ∧ Starved s'.
Proof.
  intros HS Hen. unfold step. rewrite Hen.
  assert (HS1 : Starved (set_clock (time_of ev) s)).
  { destruct HS as (? & ? & ? & ? & ? & ? & ? & ?). by unfold Starved. }
  unfold enabled in Hen. apply andb_true_iff in Hen as [_ Hen].
  destruct ev as [now b|now id o|now h]; unfold handleEvent; cbv zeta;
    cbn [time_of] in *.
  - destruct (Starved_enqueued now b _ HS1) as [HS2 Hn2].
    change (callThrottled now b (set_clock now s))
      with (processWork (nextWork (enqueued now b (set_clock now s))) now
              (enqueued now b (set_clock now s))).
    rewrite Hn2, Starved_processWork by done.
    eexists. split; [done|]. by apply Starved_updateTimer.
  - destruct HS as (_ & _ & _ & Hr & _). rewrite Hr in Hen.
    apply bool_decide_eq_true in Hen. by apply elem_of_nil in Hen.
  - unfold timerFires. cbv zeta.
    assert (HS2 : Starved (set_expiringWorkTimer None
                    (set_timers (filter (λ t, handle t ≠ h))
                       (set_clock now s)))).
    { destruct HS1 as (? & ? & ? & ? & ? & ? & ? & ?). by unfold Starved. }
    destruct HS2 as (H1 & H2 & H3 & H4 & H5 & H6 & H7 & H8).
    destruct (nextWork (set_clock now s)) as [|k] eqn:Hk;
      [simpl in *; lia|].
    rewrite Starved_processWork by (by unfold Starved).
    eexists. split; [done|]. apply Starved_updateTimer. by unfold Starved.
Qed.

Lemma Starved_run (evs : list Event) : ∀ s s',
  Starved s → run evs s = Some s' → Starved s'.
Proof.
  induction evs as [|ev evs IH]; intros s s' HS E; simpl in E; [by injection E as <-|].
  destruct (step ev s) as [s1|] eqn:E1; [|done]. simpl in E.
  unfold step in E1. destruct (enabled ev s) eqn:Hen; [|done].
  destruct (Starved_step ev s HS Hen) as (s2 & E2 & HS2).
  unfold step in E2. rewrite Hen in E2. assert (s2 = s1) as -> by congruence.
  by apply (IH s1).
Qed.

(** X15 (a negative limit starves the throttle).  A negative
    [maxOutstanding] or [maxQps] is taken as it is (only a zero is replaced
    by the default), and that limit is reached from the start: whatever
    happens, no work function is ever invoked and every future stays
    pending, the drain future included once something was submitted; the
    calls themselves return. *)
Theorem negative_limit_starves (o : AsyncThrottleOptions) (evs : list Event) (s : State) :
  (∃ k, options_maxOutstanding o = Some k ∧ k < 0) ∨
  (∃ k, options_maxQps o = Some k ∧ k < 0) →
  run evs (constructor o) = Some s →
  (∀ id t, Started id t ∉ log s) ∧
  (∀ id, whenComplete (heap s !!! id) = None) ∧
  (submitted evs ≠ [] → ∃ p, whenDrained s = PendingDrain p) ∧
  (∀ ev, enabled ev s = true → ∃ s', step ev s = Some s').
Proof.
  intros Hneg Hrun.
  assert (HS0 : Starved (constructor o)).
  { unfold Starved. simpl. split_and!; try done; try lia.
    - unfold js_or.
      destruct Hneg as [(k & -> & Hk)|(k & -> & Hk)];
        rewrite (proj2 (Z.eqb_neq k 0)) by lia; [by left|by right].
    - intros i. destruct (decide (i = workList)) as [->|Hi].
      + by rewrite lookup_total_singleton.
      + by rewrite lookup_total_singleton_ne. }
  pose proof (Starved_run evs _ _ HS0 Hrun) as HS.
  pose proof (run_Frame _ _ _ Hrun) as (_ & _ & _ & Hnw & _). simpl in Hnw.
  pose proof HS as (_ & _ & _ & _ & Hh & Hl & _ & Hw).
  split_and!.
  - intros id t Hin. rewrite Forall_forall in Hl. by apply Hl in Hin.
  - intros id. apply Hh.
  - intros Hsub. unfold whenDrained.
    destruct Hw as [p ->]; [|by exists p].
    destruct (submitted evs); [done|]. simpl in Hnw. lia.
  - intros ev Hen. destruct (Starved_step ev s HS Hen) as (s' & E & _). by exists s'.
Qed.

Lemma negative_limit_starves_witness :
  ∃ s, run [CallThrottled 0 ReturnsPromise; CallThrottled 5 (Throws (Thrown 1))]
         (constructor (mkOptions (Some (-1)) None)) = Some s ∧
       (∀ id t, Started id t ∉ log s) ∧
       ∃ p, whenDrained s = PendingDrain p.
Proof.
  eexists. split; [vm_compute; reflexivity|].
  destruct (negative_limit_starves (mkOptions (Some (-1)) None)
              [CallThrottled 0 ReturnsPromise; CallThrottled 5 (Throws (Thrown 1))] _
              ltac:(left; exists (-1); split; [reflexivity|lia])
              ltac:(vm_compute; reflexivity)) as (H1 & _ & H3 & _).
  split; [exact H1|]. by apply H3.
Defined.

Lemma Prov_refl s : Prov s s.
Proof. split; [done|]. exists []. split; [done|]. by intros id r ?%elem_of_nil. Qed.

Lemma Prov_trans s1 s2 s3 : Prov s1 s2 → Prov s2 s3 → Prov s1 s3.
Proof.
  intros (A1 & l1 & A2 & A3) (B1 & l2 & B2 & B3). split.
  - intros i. by rewrite B1, A1.
  - exists (l2 ++ l1). split; [by rewrite B2, A2, app_assoc|].
    intros id r [Hin|Hin]%elem_of_app.
    + destruct (B3 id r Hin) as (e & He & ->). exists e. by rewrite <- A1.
    + by apply A3.
Qed.

Lemma Prov_quiet s s' l :
  (∀ i, startWork (heap s' !!! i) = startWork (heap s !!! i)) →
  log s' = l ++ log s →
  (∀ id r, Produced id r ∉ l) →
  Prov s s'.
Proof.
  intros H1 H2 H3. split; [done|]. exists l. split; [done|].
  intros id r Hin. by apply H3 in Hin.
Qed.

Ltac quiet :=
  intros ? ? ?Hin;
  repeat (apply elem_of_cons in Hin as [Hin|Hin]; [discriminate Hin|]);
  by apply elem_of_nil in Hin.

Lemma purgeExpiredWork_Prov fuel now : ∀ s s',
  purgeExpiredWork fuel now s = Some s' → Prov s s'.
Proof.
  induction fuel as [|fuel IH]; intros s s' E; [done|].
  simpl in E. fold (purgeStep s) in E.
  destruct (hasExpiredWork now s).
  - eapply Prov_trans; [|by apply IH].
    unfold purgeStep. cbv zeta.
    case_match; apply (Prov_quiet _ _ []); simpl; try done; try quiet.
    all: intros i; by rewrite startWork_remove.
  - injection E as <-. apply Prov_refl.
Qed.

Lemma updateTimer_Prov now s : Prov s (updateTimer now s).
Proof.
  unfold updateTimer.
  repeat case_match; try apply Prov_refl.
  all: eapply (Prov_quiet _ _ [_]); simpl; try done; quiet.
Qed.

Lemma settle_Prov id o s : Prov s (settle id o s).
Proof.
  unfold settle. simpl.
  case_match; eapply (Prov_quiet _ _ [_]); simpl; try done; try quiet.
  intros i. by rewrite startWork_write_future.
Qed.

Lemma drainCheck_Prov id s : Prov s (drainCheck id s).1.
Proof.
  unfold drainCheck, callOnLastWorkItemDrained. cbv zeta.
  repeat case_match; simpl.
  all: first [ eapply (Prov_quiet _ _ [_; _]); simpl; [done|done|quiet]
             | eapply (Prov_quiet _ _ [_]); simpl; [done|done|quiet] ].
Qed.

Lemma cleanup_Prov (PW : State → option State) id s s' c :
  (∀ s1 s2, PW s1 = Some s2 → Prov s1 s2) →
  cleanup PW id s = Some (s', c) → Prov s s'.
Proof.
  intros HPW. rewrite cleanup_unfold.
  pose proof (drainCheck_Prov id s) as HF.
  destruct (drainCheck id s) as [s1 c1]. simpl in HF.
  destruct c1.
  - destruct (atMaxOutstanding s).
    + destruct (PW s1) as [s2|] eqn:E; simpl; [|done].
      intros [= <- <-]. eapply Prov_trans; [done|]. by apply HPW.
    + by intros [= <- <-].
  - by intros [= <- <-].
Qed.

Lemma processWorkWith_Prov (ERW : State → option State) now s s' :
  (∀ s1 s2, ERW s1 = Some s2 → Prov s1 s2) →
  processWorkWith ERW now s = Some s' → Prov s s'.
Proof.
  intros HE. unfold processWorkWith.
  destruct (purgeExpiredWork _ _ _) as [s1|] eqn:E1; simpl; [|done].
  destruct (ERW s1) as [s2|] eqn:E2; simpl; [|done].
  intros [= <-].
  eapply Prov_trans; [by eapply purgeExpiredWork_Prov|].
  eapply Prov_trans; [by apply HE|]. apply updateTimer_Prov.
Qed.

Lemma startedState_Prov now s : Prov s (startedState now s).
Proof.
  unfold startedState. cbv zeta. eapply (Prov_quiet _ _ [_]); simpl; try done; try quiet.
  intros i. by rewrite startWork_write_time.
Qed.

Lemma executeReadyWork_Prov now fuel : ∀ s s',
  executeReadyWork fuel now s = Some s' → Prov s s'.
Proof.
  induction fuel as [|fuel IH]; intros s s' E; [done|].
  rewrite executeReadyWork_unfold in E.
  destruct (hasReadyWork s && canExecuteWork s); [|injection E as <-; apply Prov_refl].
  cbv zeta in E.
  pose proof (startedState_Prov now s) as HS.
  destruct (startWork _) as [e|] eqn:Hsw.
  - destruct (cleanup _ _ _) as [[s1 c]|] eqn:Ec; [|done].
    assert (HF1 : Prov s s1).
    { eapply Prov_trans; [apply HS|].
      eapply Prov_trans; [|eapply cleanup_Prov; [|exact Ec]].
      - split; [done|]. eexists [_]. split; [done|].
        intros id r [[= -> ->]|Hin%elem_of_nil]%elem_of_cons; [|done].
        exists e. split; [|done]. by rewrite (proj1 HS).
      - intros s2 s3. apply processWorkWith_Prov. apply IH. }
    destruct c.
    + eapply Prov_trans; [|by apply IH].
      eapply Prov_trans; [done|]. apply settle_Prov.
    + eapply Prov_trans; [done|]. by apply IH.
  - eapply Prov_trans; [|by apply IH].
    eapply Prov_trans; [done|]. apply (Prov_quiet _ _ []); simpl; try done. quiet.
Qed.

Lemma processWork_Prov fuel now s s' :
  processWork fuel now s = Some s' → Prov s s'.
Proof. apply processWorkWith_Prov, executeReadyWork_Prov. Qed.

(** What one event adds to the history: the outcome that the event itself
    delivers, and errors thrown by work functions. *)
Lemma handleEvent_Prov ev s s' :
  handleEvent ev s = Some s' →
  ∃ l, log s' = l ++ log s ∧
       ∀ id r, Produced id r ∈ l →
               (∃ now, ev = WorkSettles now id r) ∨
               (∃ e, startWork (heap s' !!! id) = Throws e ∧ r = Rejected e).
Proof.
  unfold handleEvent. cbv zeta.
  destruct ev as [now b|now id o|now h]; intros E; cbn [time_of] in E.
  - change (callThrottled now b (set_clock now s))
      with (processWork (nextWork (enqueued now b (set_clock now s))) now
              (enqueued now b (set_clock now s))) in E.
    apply processWork_Prov in E as (H1 & l & H2 & H3).
    destruct (enqueued_Frame now b (set_clock now s)) as (_ & _ & [l0 Hl0] & _).
    assert (Hl0' : l0 = [Submitted (nextWork s) now]).
    { assert (Hlog : log (enqueued now b (set_clock now s)) =
                     Submitted (nextWork s) now :: log s).
      { unfold enqueued, onWorkItemEnqueued. cbv zeta. by case_match. }
      rewrite Hlog in Hl0. simpl in Hl0.
      change (Submitted (nextWork s) now :: log s)
        with ([Submitted (nextWork s) now] ++ log s) in Hl0.
      by apply app_inv_tail in Hl0. }
    subst l0. exists (l ++ [Submitted (nextWork s) now]).
    split; [by rewrite H2, Hl0, <- app_assoc|].
    intros id r [Hin|Hin]%elem_of_app.
    + right. destruct (H3 id r Hin) as (e & He & ->). exists e. by rewrite H1.
    + apply list_elem_of_singleton in Hin. discriminate.
  - unfold settleWork, settleWorkWith in E. cbv zeta in E.
    destruct (cleanup _ _ _) as [[s1 c]|] eqn:Ec; simpl in E; [|done].
    injection E as <-.
    apply cleanup_Prov in Ec as (H1 & l & H2 & H3);
      [|intros s2 s3; apply processWork_Prov].
    destruct (settle_Prov id (match c with Normal => o | Throw e => Rejected e end) s1)
      as (K1 & l' & K2 & K3).
    exists (l' ++ l ++ [Produced id o]). split.
    { rewrite K2, H2. simpl. by rewrite <- !app_assoc. }
    intros id' r [Hin|[Hin|Hin]%elem_of_app]%elem_of_app.
    + destruct (K3 id' r Hin) as (e & He & ->). right. exists e. by rewrite K1.
    + destruct (H3 id' r Hin) as (e & He & ->). right. exists e.
      rewrite K1, H1. by split.
    + apply list_elem_of_singleton in Hin. injection Hin as -> ->. left. by exists now.
  - unfold timerFires in E. cbv zeta in E.
    apply processWork_Prov in E as (H1 & l & H2 & H3).
    exists l. split; [exact H2|].
    intros id r Hin. right. destruct (H3 id r Hin) as (e & He & ->).
    exists e. by rewrite H1.
Qed.

Lemma Stable_produced s id r :
  Stable s → Produced id r ∈ log s → (1 ≤ id < nextWork s)%nat.
Proof.
  intros (j & m & n & HI & _) Hin.
  pose proof (inv_hist _ _ _ _ _ _ HI) as HH.
  destruct (Hist_item _ _ _ id HH) as (_ & _ & Hprod & _).
  apply Hprod in Hin. rewrite (inv_nextWork _ _ _ _ _ _ HI).
  pose proof (proj2 (inv_absent _ _ _ _ _ _ HI id)) as HA.
  destruct (decide (id = 0 ∨ n < id)%nat) as [Hx|Hx]; [|lia].
  rewrite (HA Hx) in Hin. naive_solver.
Qed.

Lemma run_Prov evs : ∀ s s' id r,
  Stable s → run evs s = Some s' → Produced id r ∈ log s' →
  Produced id r ∈ log s ∨
  (∃ now, WorkSettles now id r ∈ evs) ∨
  (∃ e, startWork (heap s' !!! id) = Throws e ∧ r = Rejected e).
Proof.
  induction evs as [|ev evs IH]; intros s s' id r HS E Hin; simpl in E.
  - injection E as <-. by left.
  - unfold step in E. destruct (enabled ev s) eqn:Hen; [|done].
    destruct (handleEvent_Stable s ev HS Hen) as (s1 & E1 & HS1%StableAt_Stable).
    rewrite E1 in E. simpl in E.
    destruct (IH s1 s' id r HS1 E Hin) as [H|[[now H]|H]].
    + destruct (handleEvent_Prov _ _ _ E1) as (l & Hl & Hp).
      rewrite Hl in H. apply elem_of_app in H as [H|H]; [|by left].
      right. destruct (Hp id r H) as [[now ->]|(e & He & ->)].
      * left. exists now. by left.
      * right. exists e. split; [|done].
        assert (Hr : (1 ≤ id < nextWork s1)%nat).
        { apply (Stable_produced s1 id (Rejected e) HS1).
          rewrite Hl. apply elem_of_app. by left. }
        destruct (run_Frame _ _ _ E) as (_ & _ & _ & _ & Hsw).
        destruct (Hsw id) as [->|?]; [done|lia].
    + right. left. exists now. by right.
    + right. by right.
Qed.

(** X16 (every outcome comes from the item's own work).  If the future of
    an item is settled with [r], then either the promise returned by the
    work function of that item settled with [r], or that work function
    threw [e] when it was invoked and [r] is the rejection with [e]: the
    throttle never settles a future with anything else. *)
Theorem outcome_provenance (o : AsyncThrottleOptions) (evs : list Event) (s : State)
    (id : nat) (r : Outcome) :
  valid_options o →
  run evs (constructor o) = Some s →
  whenComplete (heap s !!! id) = Some r →
  (∃ now, WorkSettles now id r ∈ evs) ∨
  (∃ e, submitted evs !! Nat.pred id = Some (Throws e) ∧ r = Rejected e).
Proof.
  intros Hv Hrun Hw.
  destruct (run_reachable o evs s Hv Hrun) as [HS (_ & _ & _ & Hnw & _)].
  simpl in Hnw.
  pose proof HS as (j & m & n & HI & _).
  pose proof (inv_hist _ _ _ _ _ _ HI) as HH.
  destruct (Hist_item _ _ _ id HH) as (_ & Hset & Hprod & _).
  apply (proj1 (Stable_settled s id r HS)) in Hw.
  assert (Hin : Produced id r ∈ log s).
  { apply Hprod. right; right. by apply Hset. }
  pose proof (Stable_produced s id r HS Hin) as Hr.
  destruct (run_Prov evs (constructor o) s id r (constructor_Stable o Hv) Hrun Hin)
    as [H|[H|(e & He & ->)]].
  - simpl in H. by apply elem_of_nil in H.
  - by left.
  - right. exists e. split; [|done].
    destruct (lookup_lt_is_Some_2 (submitted evs) (Nat.pred id) ltac:(lia)) as [b Hb].
    pose proof (run_submitted _ _ _ _ _ Hrun Hb) as Hsw. simpl in Hsw.
    replace (S (Nat.pred id)) with id in Hsw by lia. congruence.
Qed.

Lemma outcome_provenance_witness :
  (∃ now, WorkSettles now 2 (Rejected (Thrown 5)) ∈ demo_events) ∨
  (∃ e, submitted demo_events !! 1%nat = Some (Throws e) ∧
        Rejected (Thrown 5) = Rejected e).
Proof.
  apply (outcome_provenance demo_options demo_events demo_state 2 (Rejected (Thrown 5))
           demo_options_valid); vm_compute; reflexivity.
Defined.

(** X17 (the throttle is work-conserving).  In every reachable state an
    item is queued only while one of the two limits is reached. *)
Theorem work_conserving (o : AsyncThrottleOptions) (evs : list Event) (s : State) :
  valid_options o →
  run evs (constructor o) = Some s →
  queuedItems (log s) ≠ [] →
  atMaxOutstanding s = true ∨ atMaxQps s = true.
Proof.
  intros Hv Hrun HQ.
  destruct (run_reachable o evs s Hv Hrun) as [HS _].
  destruct (atMaxOutstanding s) eqn:HO; [by left|].
  destruct (atMaxQps s) eqn:Hq; [by right|].
  exfalso. apply HQ. by apply unsaturated_no_queue.
Qed.

Lemma work_conserving_witness :
  atMaxOutstanding (demo_at 3) = true ∨ atMaxQps (demo_at 3) = true.
Proof.
  apply (work_conserving demo_options (take 3 demo_events) (demo_at 3) demo_options_valid).
  - vm_compute; reflexivity.
  - vm_compute. discriminate.
Defined.

(** X18 (drain promises).  In every reachable state the drain promises that
    have been resolved are exactly those created before the current one: no
    drain promise is left behind unresolved; and no drain promise is
    resolved twice. *)
Theorem drain_promises (o : AsyncThrottleOptions) (evs : list Event) (s : State) :
  valid_options o →
  run evs (constructor o) = Some s →
  (∀ p, drained p (log s) ↔ (p < nextPromise s)%nat ∧ whenQuiescent s ≠ Some p) ∧
  (∀ l1 l2 p t, log s = l1 ++ Drained p t :: l2 → ¬ drained p l1 ∧ ¬ drained p l2).
Proof.
  intros Hv Hrun.
  destruct (run_reachable o evs s Hv Hrun) as [(j & m & n & HI & _) _].
  pose proof (inv_hist _ _ _ _ _ _ HI) as HH.
  split.
  - intros p. split.
    + intros Hd. split; [by apply (inv_drain_bound _ _ _ _ _ _ HI)|].
      intros Hq. by destruct (inv_drain_pending _ _ _ _ _ _ HI p Hq).
    + intros [Hp Hq]. by apply (inv_drain_resolved _ _ _ _ _ _ HI).
  - intros l1 l2 p t Hl. rewrite Hl in HH. split.
    + intros [t' Hin]. apply list_elem_of_split in Hin as (a & b & ->).
      rewrite <- app_assoc in HH. apply Hist_suffix in HH.
      destruct HH as [(_ & _ & Hnd) _]. apply Hnd. exists t.
      apply elem_of_app. right. by left.
    + apply Hist_suffix in HH. by destruct HH as [(_ & _ & Hnd) _].
Qed.

Lemma drain_promises_witness :
  drained 0 (log demo_state) ∧ ¬ drained 1 (log demo_state).
Proof.
  destruct (drain_promises demo_options demo_events demo_state demo_options_valid
              ltac:(vm_compute; reflexivity)) as [H _].
  split.
  - apply H. split; [vm_compute; lia|]. vm_compute. discriminate.
  - intros Hd%H. destruct Hd as [Hlt _]. vm_compute in Hlt. lia.
Defined.

(** X19 (the handlers return).  In every reachable state every event that
    the host can deliver is handled to the end: the loops of
    [purgeExpiredWork] and [executeReadyWork], and the calls of
    [processWork] from inside [cleanup], finish.  The handler only adds to
    the history, and creates an item exactly when it is a submission. *)
Theorem handlers_return (o : AsyncThrottleOptions) (evs : list Event) (s : State)
    (ev : Event) :
  valid_options o →
  run evs (constructor o) = Some s →
  enabled ev s = true →
  ∃ s', step ev s = Some s' ∧
        (∃ l, log s' = l ++ log s) ∧
        nextWork s' = (nextWork s + length (submitted [ev]))%nat ∧
        maxOutstanding s' = maxOutstanding s ∧ maxQps s' = maxQps s.
Proof.
  intros Hv Hrun Hen. destruct (run_reachable o evs s Hv Hrun) as [HS _].
  destruct (handleEvent_Stable s ev HS Hen) as (s' & E & _).
  exists s'. unfold step. rewrite Hen. split; [done|].
  destruct (handleEvent_Frame _ _ _ E) as (H1 & H2 & H3 & H4 & _). done.
Qed.

Lemma handlers_return_witness :
  ∃ s', step (TimerFires 1000 1) (demo_at 4) = Some s' ∧
        nextWork s' = nextWork (demo_at 4).
Proof.
  destruct (handlers_return demo_options (take 4 demo_events) (demo_at 4)
              (TimerFires 1000 1) demo_options_valid
              ltac:(vm_compute; reflexivity) ltac:(vm_compute; reflexivity))
    as (s' & E & _ & Hn & _).
  exists s'. split; [exact E|]. rewrite Hn. simpl. lia.
Defined.

(** X20 (what [callThrottled] returns).  A call of [callThrottled] in a
    reachable state creates exactly one item, which holds the function
    that was passed.  If the function was invoked during the call and threw
    [e], the future returned is already rejected with [e]; in every other
    case (the function returned a promise, or the item was left in the
    queue) the future returned is pending.  The function is invoked during
    the call whenever neither limit is reached when the call returns. *)
Theorem callThrottled_future (o : AsyncThrottleOptions) (evs : list Event) (s s' : State)
    (now : Z) (b : StartResult) :
  valid_options o →
  run evs (constructor o) = Some s →
  step (CallThrottled now b) s = Some s' →
  nextWork s' = S (nextWork s) ∧
  startWork (heap s' !!! nextWork s) = b ∧
  Submitted (nextWork s) now ∈ log s' ∧
  (whenComplete (heap s' !!! nextWork s) = None ∨
   ∃ e, b = Throws e ∧ whenComplete (heap s' !!! nextWork s) = Some (Rejected e)) ∧
  (∀ e t, b = Throws e → Started (nextWork s) t ∈ log s' →
          whenComplete (heap s' !!! nextWork s) = Some (Rejected e)) ∧
  (b = ReturnsPromise → whenComplete (heap s' !!! nextWork s) = None) ∧
  ((∀ t, Started (nextWork s) t ∉ log s') →
   whenComplete (heap s' !!! nextWork s) = None ∧ nextWork s ∈ queuedItems (log s')) ∧
  (atMaxOutstanding s' = false → atMaxQps s' = false →
   ∃ t, Started (nextWork s) t ∈ log s').
Proof.
  intros Hv Hrun Hstep.
  destruct (run_reachable o evs s Hv Hrun) as [HS (_ & _ & _ & Hnw & _)].
  simpl in Hnw.
  assert (Hrun' : run (evs ++ [CallThrottled now b]) (constructor o) = Some s').
  { rewrite run_app, Hrun. simpl. by rewrite Hstep. }
  destruct (run_reachable o _ s' Hv Hrun') as [HS' _].
  unfold step in Hstep. destruct (enabled _ s) eqn:Hen; [|done].
  pose proof (handleEvent_Frame _ _ _ Hstep) as (_ & _ & _ & Hn' & _). simpl in Hn'.
  assert (Hsw : startWork (heap s' !!! nextWork s) = b).
  { rewrite Hnw.
    apply (run_submitted _ _ _ (length (submitted evs)) b Hrun').
    unfold submitted. rewrite omap_app. simpl.
    by rewrite lookup_app_r, Nat.sub_diag by done. }
  destruct (handleEvent_Prov _ _ _ Hstep) as (l & Hl & Hp).
  split_and!.
  - lia.
  - exact Hsw.
  - unfold handleEvent in Hstep. cbv zeta in Hstep. cbn [time_of] in Hstep.
    change (callThrottled now b (set_clock now s))
      with (processWork (nextWork (enqueued now b (set_clock now s))) now
              (enqueued now b (set_clock now s))) in Hstep.
    apply processWork_Frame in Hstep as (_ & _ & [l' Hl'] & _).
    rewrite Hl'. apply elem_of_app. right.
    unfold enqueued, onWorkItemEnqueued. cbv zeta. case_match; simpl; by left.
  - destruct (whenComplete (heap s' !!! nextWork s)) as [r|] eqn:Hw; [right|by left].
    apply (proj1 (Stable_settled s' _ r HS')) in Hw.
    pose proof HS' as (j & m & n & HI & _).
    pose proof (inv_hist _ _ _ _ _ _ HI) as HH.
    destruct (Hist_item _ _ _ (nextWork s) HH) as (_ & Hset & Hprod & _).
    assert (Hin : Produced (nextWork s) r ∈ log s').
    { apply Hprod. right; right. by apply Hset. }
    rewrite Hl in Hin. apply elem_of_app in Hin as [Hin|Hin].
    + destruct (Hp _ _ Hin) as [[t [=]]|(e & He & ->)].
      exists e. split; [congruence|done].
    + apply (Stable_produced s _ r HS) in Hin. lia.
  - intros e t -> Hin.
    pose proof HS' as (j & m & n & HI & _).
    pose proof (inv_hist _ _ _ _ _ _ HI) as HH.
    destruct (Hist_started_status _ _ _ _ _ HH Hin) as [HnA HnQ].
    pose proof (inv_throws _ _ _ _ _ _ HI (nextWork s) e Hsw) as Ht.
    destruct (Stable_status s' (nextWork s) HS') as [Hst|[Hst|[[Hst _]|(r' & Hst & Hw)]]];
      rewrite Hst in *; try done.
    by rewrite Hw, Ht.
  - intros ->.
    destruct (whenComplete (heap s' !!! nextWork s)) as [r|] eqn:Hw; [|done].
    apply (proj1 (Stable_settled s' _ r HS')) in Hw.
    pose proof HS' as (j & m & n & HI & _).
    pose proof (inv_hist _ _ _ _ _ _ HI) as HH.
    destruct (Hist_item _ _ _ (nextWork s) HH) as (_ & Hset & Hprod & _).
    assert (Hin : Produced (nextWork s) r ∈ log s').
    { apply Hprod. right; right. by apply Hset. }
    rewrite Hl in Hin. apply elem_of_app in Hin as [Hin|Hin].
    + destruct (Hp _ _ Hin) as [[t [=]]|(e & He & ->)]. congruence.
    + apply (Stable_produced s _ r HS) in Hin. lia.
  - intros Hns.
    pose proof HS' as (j & m & n & HI & _).
    pose proof (inv_hist _ _ _ _ _ _ HI) as HH.
    pose proof (inv_nextWork _ _ _ _ _ _ HI) as Hn1.
    pose proof (inv_order _ _ _ _ _ _ HI) as Ho.
    assert (Hm : (m < nextWork s)%nat).
    { destruct (decide (m < nextWork s)%nat); [done|]. exfalso.
      destruct (Hist_started_exists _ _ _ (nextWork s) HH) as [t Ht].
      - rewrite (inv_nStarted _ _ _ _ _ _ HI). lia.
      - by apply (Hns t). }
    assert (HQ : status (log s') (nextWork s) = Queued).
    { apply (inv_queued _ _ _ _ _ _ HI). lia. }
    split.
    + by rewrite (inv_whenComplete _ _ _ _ _ _ HI), HQ.
    + unfold queuedItems. apply list_elem_of_filter. split; [done|].
      apply elem_of_seq. rewrite (inv_nSubmitted _ _ _ _ _ _ HI). lia.
  - intros HO HQ.
    pose proof (unsaturated_no_queue s' HS' HO HQ) as Hq.
    pose proof HS' as (j & m & n & HI & _).
    pose proof (inv_hist _ _ _ _ _ _ HI) as HH.
    pose proof (inv_nextWork _ _ _ _ _ _ HI) as Hn1.
    pose proof (inv_order _ _ _ _ _ _ HI) as Ho.
    rewrite (Hist_queued _ _ _ HH) in Hq.
    rewrite (inv_nStarted _ _ _ _ _ _ HI), (inv_nSubmitted _ _ _ _ _ _ HI) in Hq.
    assert (m = n).
    { destruct (decide (m = n)); [done|].
      apply (f_equal length) in Hq. rewrite length_seq in Hq. simpl in Hq. lia. }
    apply (Hist_started_exists _ _ _ (nextWork s) HH).
    rewrite (inv_nStarted _ _ _ _ _ _ HI). lia.
Qed.

Lemma callThrottled_future_witness :
  whenComplete (heap thrower_state !!! 1%nat) = Some (Rejected (Thrown 1)).
Proof.
  destruct (callThrottled_future (mkOptions None (Some 1)) []
              (constructor (mkOptions None (Some 1))) thrower_state
              0 (Throws (Thrown 1))
              ltac:(split; intros k [= <-]; lia)
              ltac:(reflexivity) ltac:(vm_compute; reflexivity))
    as (_ & _ & _ & _ & Hthrow & _).
  apply (Hthrow (Thrown 1) 0 eq_refl).
  refine (bool_decide_unpack _ _). vm_compute. exact I.
Defined.
